(** * Parallel oplog application: partitioning and worker application

    A shallow embedding of [src/mongo/db/repl/sync_tail.cpp]:
    [parseUUIDOrNs], [getNsOrUUID], [finishAndLogApply],
    [fixLockModeForSystemDotViewsChanges], [CachedCollectionProperties],
    [processCrudOp], [addToWriterVector], [addDerivedOps],
    [SyncTail::_deriveOpsAndFillWriterVectors], [SyncTail::fillWriterVectors],
    [syncApply], [stableSortByNamespace] and [multiSyncApply].

    Oplog entries live in vectors owned by the caller (the input batch) or by
    the derived-ops pool; writer vectors hold pointers into them.  The model
    keeps that store explicit: a pointer is a vector location plus an index,
    and [isForCappedCollection] is written through the pointer. *)

From Stdlib Require Import ZArith Lia Ascii String Sorted Permutation OrdersEx.
From stdpp Require Import base option list sorting gmap strings pretty.

Set Default Proof Using "Type".

(** ** Data model *)

Inductive OpTypeEnum := kCommand | kInsert | kUpdate | kDelete | kNoop.

Inductive CommandType :=
  kNotCommand | kApplyOps | kCommitTransaction | kAbortTransaction | kOtherCommand.

Inductive Mode := kSecondary | kInitialSync | kRecovering.

#[global] Instance OpTypeEnum_eq_dec : EqDecision OpTypeEnum.
Proof. solve_decision. Defined.
#[global] Instance CommandType_eq_dec : EqDecision CommandType.
Proof. solve_decision. Defined.
#[global] Instance Mode_eq_dec : EqDecision Mode.
Proof. solve_decision. Defined.

(** Modelled from the spec: [OpTime] and its ordering are declared in
    [optime.h]; the spec describes an opTime as a logical timestamp
    (term, ts), compared term first. *)
Record OpTime := mkOpTime { getTerm : Z; getTimestamp : Z }.

Definition OpTime_le (a b : OpTime) : bool :=
  (getTerm a <? getTerm b)%Z
  || ((getTerm a =? getTerm b)%Z && (getTimestamp a <=? getTimestamp b)%Z).

Inductive BSONElement := EOO | NumberLong (n : Z) | BSONString (s : string).

Definition LogicalSessionId := Z.
Definition TxnNumber := Z.
Definition UUID := Z.
Definition CollatorInterface := string.

(** Modelled from the spec: the [OplogEntry] class is declared in
    [oplog_entry.h]; the spec lists the fields and predicates the core reads.
    Each accessor the source calls is a field of the record, and
    [isForCappedCollection] is the one field the core writes. *)
Record OplogEntry := mkOplogEntry {
  getOpType : OpTypeEnum;
  getNss : string;
  getUuid : option UUID;
  getOpTime : OpTime;
  getObject : list (string * BSONElement);
  getIdElement : BSONElement;
  getSessionId : option LogicalSessionId;
  getTxnNumber : option TxnNumber;
  getPrevWriteOpTimeInTransaction : option OpTime;
  getCommandType : CommandType;
  isPartialTransaction : bool;
  shouldPrepare : bool;
  isPreparedCommit : bool;
  isTerminalApplyOps : bool;
  isForCappedCollection : bool
}.

(** [op->isForCappedCollection = v] *)
Definition setForCapped (v : bool) (op : OplogEntry) : OplogEntry :=
  {| getOpType := getOpType op;
     getNss := getNss op;
     getUuid := getUuid op;
     getOpTime := getOpTime op;
     getObject := getObject op;
     getIdElement := getIdElement op;
     getSessionId := getSessionId op;
     getTxnNumber := getTxnNumber op;
     getPrevWriteOpTimeInTransaction := getPrevWriteOpTimeInTransaction op;
     getCommandType := getCommandType op;
     isPartialTransaction := isPartialTransaction op;
     shouldPrepare := shouldPrepare op;
     isPreparedCommit := isPreparedCommit op;
     isTerminalApplyOps := isTerminalApplyOps op;
     isForCappedCollection := v |}.

(** Modelled from the spec: [OplogEntry::isCrudOpType] lives in
    [oplog_entry.cpp]; a CRUD op is an Insert, Update or Delete. *)
Definition isCrudOpType (op : OplogEntry) : bool :=
  match getOpType op with
  | kInsert | kUpdate | kDelete => true
  | kCommand | kNoop => false
  end.

Record CollectionProperties := mkCollectionProperties {
  isCapped : bool;
  collator : option CollatorInterface
}.

Record Options := mkOptions {
  mode : Mode;
  beginApplyingOpTime : OpTime;
  allowNamespaceNotFoundErrorsOnCrudOps : bool
}.

(** The collaborators of the partitioning pass that live outside
    [sync_tail.cpp]: hash functions, the storage engine and catalog, the
    transaction chain reader, [ApplyOps::extractOperations] and the
    [SessionUpdateTracker] (whose state has type [T]). *)
Record Externals (T : Type) := mkExternals {
  hashed_key : string → Z;
  elementHasher_hash : option CollatorInterface → BSONElement → Z;
  MurmurHash3_x86_32 : Z → Z → Z;
  supportsDocLocking : bool;
  getCollectionPropertiesImpl : string → CollectionProperties;
  readTransactionOperationsFromOplogChain :
    OplogEntry → list OplogEntry → list OplogEntry;
  extractOperations : OplogEntry → list OplogEntry;
  newSessionUpdateTracker : T;
  updateSession : T → OplogEntry → option (list OplogEntry) * T;
  flushAll : T → list OplogEntry
}.
Arguments hashed_key {T}.
Arguments elementHasher_hash {T}.
Arguments MurmurHash3_x86_32 {T}.
Arguments supportsDocLocking {T}.
Arguments getCollectionPropertiesImpl {T}.
Arguments readTransactionOperationsFromOplogChain {T}.
Arguments extractOperations {T}.
Arguments newSessionUpdateTracker {T}.
Arguments updateSession {T}.
Arguments flushAll {T}.

(** ** The store: vectors of entries and pointers into them *)

Inductive OpsLoc := InputOps | DerivedOps (g : nat).

#[global] Instance OpsLoc_eq_dec : EqDecision OpsLoc.
Proof. solve_decision. Defined.

(** An [OplogEntry*]: the vector it points into and the position there. *)
Abbreviation OperationPtr := (OpsLoc * nat)%type (only parsing).

Record St (T : Type) := mkSt {
  st_ops : list OplogEntry;
  st_derivedOps : list (list OplogEntry);
  st_writerVectors : list (list OperationPtr);
  st_partialTxnOps : gmap LogicalSessionId (list OperationPtr);
  st_cache : gmap string CollectionProperties;
  st_tracker : option T
}.
Arguments mkSt {T}.
Arguments st_ops {T}.
Arguments st_derivedOps {T}.
Arguments st_writerVectors {T}.
Arguments st_partialTxnOps {T}.
Arguments st_cache {T}.
Arguments st_tracker {T}.

Definition uint32 (z : Z) : Z := (z mod 2 ^ 32)%Z.
Definition uint64 (z : Z) : Z := (z mod 2 ^ 64)%Z.

Section Partitioning.
Context {T : Type} (E : Externals T) (opts : Options).

Definition vecAt (st : St T) (loc : OpsLoc) : option (list OplogEntry) :=
  match loc with
  | InputOps => Some (st_ops st)
  | DerivedOps g => st_derivedOps st !! g
  end.

Definition deref (st : St T) (p : OperationPtr) : option OplogEntry :=
  v ← vecAt st p.1; v !! p.2.

(** Write through a pointer: [*p = f( *p )]. *)
Definition update (f : OplogEntry → OplogEntry) (p : OperationPtr) (st : St T) : St T :=
  match p.1 with
  | InputOps =>
      mkSt (alter f p.2 (st_ops st)) (st_derivedOps st) (st_writerVectors st)
           (st_partialTxnOps st) (st_cache st) (st_tracker st)
  | DerivedOps g =>
      mkSt (st_ops st) (alter (alter f p.2) g (st_derivedOps st)) (st_writerVectors st)
           (st_partialTxnOps st) (st_cache st) (st_tracker st)
  end.

Definition set_writerVectors (wv : list (list OperationPtr)) (st : St T) : St T :=
  mkSt (st_ops st) (st_derivedOps st) wv (st_partialTxnOps st) (st_cache st) (st_tracker st).

Definition set_partialTxnOps (m : gmap LogicalSessionId (list OperationPtr)) (st : St T) : St T :=
  mkSt (st_ops st) (st_derivedOps st) (st_writerVectors st) m (st_cache st) (st_tracker st).

Definition set_cache (c : gmap string CollectionProperties) (st : St T) : St T :=
  mkSt (st_ops st) (st_derivedOps st) (st_writerVectors st) (st_partialTxnOps st) c (st_tracker st).

Definition set_tracker (t : option T) (st : St T) : St T :=
  mkSt (st_ops st) (st_derivedOps st) (st_writerVectors st) (st_partialTxnOps st) (st_cache st) t.

(** [derivedOps->emplace_back(v)] *)
Definition emplace_back (v : list OplogEntry) (st : St T) : St T :=
  mkSt (st_ops st) (st_derivedOps st ++ [v]) (st_writerVectors st)
       (st_partialTxnOps st) (st_cache st) (st_tracker st).

(** The position of [derivedOps->back()]. *)
Definition back (st : St T) : nat := pred (length (st_derivedOps st)).

(** [CachedCollectionProperties::getCollectionProperties] *)
Definition getCollectionProperties (ns : string) (st : St T) : CollectionProperties * St T :=
  match st_cache st !! ns with
  | Some p => (p, st)
  | None =>
      let collProperties := getCollectionPropertiesImpl E ns in
      (collProperties, set_cache (<[ns := collProperties]> (st_cache st)) st)
  end.

(** [processCrudOp]: may mix the [_id] into the hash, may mark the op. *)
Definition processCrudOp (p : OperationPtr) (hash : Z) (hashedNs : string) (st : St T)
  : option (Z * St T) :=
  let '(collProperties, st) := getCollectionProperties hashedNs st in
  op ← deref st p;
  let hash :=
    if supportsDocLocking E && negb (isCapped collProperties) then
      let idHash := uint64 (elementHasher_hash E (collator collProperties) (getIdElement op)) in
      uint32 (MurmurHash3_x86_32 E idHash hash)
    else hash in
  if bool_decide (getOpType op = kInsert) && isCapped collProperties then
    Some (hash, update (setForCapped true) p st)
  else Some (hash, st).

(** [addToWriterVector]: [hash % numWriters] is undefined for no writers. *)
Definition addToWriterVector (p : OperationPtr) (hash : Z)
    (writerVectors : list (list OperationPtr)) : option (list (list OperationPtr)) :=
  let numWriters := uint32 (Z.of_nat (length writerVectors)) in
  if decide (numWriters = 0%Z) then None
  else Some (alter (λ writer, writer ++ [p]) (Z.to_nat (hash mod numWriters)) writerVectors).

(** A [for] loop over the positions of a vector, in the error monad. *)
Fixpoint forEach {S : Type} (body : S → nat → option S) (st : S) (idxs : list nat) : option S :=
  match idxs with
  | [] => Some st
  | i :: idxs => st ← body st i; forEach body st idxs
  end.

Definition addDerivedOp (g : nat) (st : St T) (j : nat) : option (St T) :=
  let p := (DerivedOps g, j) in
  op ← deref st p;
  let hashedNs := getNss op in
  let hash := uint32 (hashed_key E hashedNs) in
  '(hash, st) ← (if isCrudOpType op then processCrudOp p hash hashedNs st
                  else Some (hash, st));
  wv ← addToWriterVector p hash (st_writerVectors st);
  Some (set_writerVectors wv st).

(** [addDerivedOps] on the group at position [g] of the pool. *)
Definition addDerivedOps (g : nat) (st : St T) : option (St T) :=
  v ← st_derivedOps st !! g;
  forEach (addDerivedOp g) st (seq 0 (length v)).

Definition emplaceAndAdd (v : list OplogEntry) (st : St T) : option (St T) :=
  let st := emplace_back v st in addDerivedOps (back st) st.

(** The [sessionUpdateTracker] block of the loop body. *)
Definition trackSession (op : OplogEntry) (st : St T) : option (St T) :=
  match st_tracker st with
  | Some tr =>
      let '(newOplogWrites, tr) := updateSession E tr op in
      let st := set_tracker (Some tr) st in
      match newOplogWrites with
      | Some ws => emplaceAndAdd ws st
      | None => Some st
      end
  | None => Some st
  end.

(** [partialTxnOps[sid]] read as a value (an absent key holds no ops). *)
Definition partialTxnList (sid : LogicalSessionId) (st : St T) : list OperationPtr :=
  default [] (st_partialTxnOps st !! sid).

(** Flush a transaction: read its operations from the chain together with
    the buffered list, clear the buffer, route what was read. *)
Definition materialize (op : OplogEntry) (sid : LogicalSessionId) (st : St T) : option (St T) :=
  cached ← mapM (deref st) (partialTxnList sid st);
  let v := readTransactionOperationsFromOplogChain E op cached in
  let st := emplace_back v st in
  let st := set_partialTxnOps (<[sid := []]> (st_partialTxnOps st)) st in
  addDerivedOps (back st) st.

(** The body of the loop of [_deriveOpsAndFillWriterVectors] at position
    [i] of the vector at [loc].  [None] is a failed [invariant], a
    dereferenced empty optional, or a division by zero writers. *)
Definition deriveOp (loc : OpsLoc) (st : St T) (i : nat) : option (St T) :=
  let p := (loc, i) in
  op ← deref st p;
  if OpTime_le (getOpTime op) (beginApplyingOpTime opts) then Some st
  else
    let hashedNs := getNss op in
    let hash := uint32 (hashed_key E hashedNs) in
    st ← trackSession op st;
    if isPartialTransaction op
       || (shouldPrepare op && bool_decide (mode opts = kInitialSync)) then
      sid ← getSessionId op;
      let l := partialTxnList sid st in
      front ← match l with
              | [] => Some true
              | f :: _ => fop ← deref st f;
                          Some (bool_decide (getTxnNumber fop = getTxnNumber op))
              end;
      if front : bool then Some (set_partialTxnOps (<[sid := l ++ [p]]> (st_partialTxnOps st)) st)
      else None
    else
      st ← (if bool_decide (getCommandType op = kAbortTransaction) then
              sid ← getSessionId op;
              Some (set_partialTxnOps (<[sid := []]> (st_partialTxnOps st)) st)
            else Some st);
      '(hash, st) ← (if isCrudOpType op then processCrudOp p hash hashedNs st
                      else Some (hash, st));
      op ← deref st p;
      if isTerminalApplyOps op then
        match getSessionId op, getTxnNumber op with
        | Some sid, Some _ => materialize op sid st
        | _, _ =>
            match getPrevWriteOpTimeInTransaction op with
            | Some _ => None
            | None => emplaceAndAdd (extractOperations E op) st
            end
        end
      else if isPreparedCommit op && bool_decide (mode opts = kInitialSync) then
        sid ← getSessionId op;
        materialize op sid st
      else
        wv ← addToWriterVector p hash (st_writerVectors st);
        Some (set_writerVectors wv st).

(** [SyncTail::_deriveOpsAndFillWriterVectors]: fresh [partialTxnOps] and
    property cache, then the loop over [*ops]. *)
Definition _deriveOpsAndFillWriterVectors
    (loc : OpsLoc) (tracker : option T) (st : St T) : option (St T) :=
  let st := mkSt (st_ops st) (st_derivedOps st) (st_writerVectors st) ∅ ∅ tracker in
  v ← vecAt st loc;
  forEach (deriveOp loc) st (seq 0 (length v)).

(** [SyncTail::fillWriterVectors] *)
Definition fillWriterVectors (ops : list OplogEntry)
    (writerVectors : list (list OperationPtr)) (derivedOps : list (list OplogEntry))
  : option (St T) :=
  let st := mkSt ops derivedOps writerVectors ∅ ∅ None in
  st ← _deriveOpsAndFillWriterVectors InputOps (Some (newSessionUpdateTracker E)) st;
  tr ← st_tracker st;
  let newOplogWrites := flushAll E tr in
  match newOplogWrites with
  | [] => Some st
  | _ :: _ =>
      let st := emplace_back newOplogWrites st in
      _deriveOpsAndFillWriterVectors (DerivedOps (back st)) None st
  end.

End Partitioning.

(** * Applying operations: [syncApply] and [multiSyncApply] *)

Inductive ErrorCodes :=
  OK | NamespaceNotFound | WriteConflict | UpdateOperationFailed | OtherError (n : nat).

#[global] Instance ErrorCodes_eq_dec : EqDecision ErrorCodes.
Proof. solve_decision. Defined.

Record Status := mkStatus { code : ErrorCodes; reason : string }.

Definition Status_OK : Status := mkStatus OK "".

Definition isOK (s : Status) : bool := bool_decide (code s = OK).

(** A [DBException]: its code, its reason, and the contexts added to it
    (latest first). *)
Record DBException := mkDBException {
  ex_code : ErrorCodes;
  ex_reason : string;
  ex_context : list string
}.

(** Modelled from the spec: [DBException::toStatus] lives in
    [assert_util.h]; the status of an exception carries its code and its
    reason behind the contexts added to it, each followed by
    [" :: caused by :: "]. *)
Definition toStatus (e : DBException) : Status :=
mkStatus (ex_code e)
  (foldr (λ ctx r, ctx +:+ " :: caused by :: " +:+ r)%string (ex_reason e) (ex_context e)).

Definition addContext (ctx : string) (e : DBException) : DBException :=
mkDBException (ex_code e) (ex_reason e) (ctx :: ex_context e).

Definition WriteConflictException : DBException := mkDBException WriteConflict "" [].

(** What a call yields: a value, or an exception in flight. *)
Inductive Result (A : Type) := Returned (a : A) | Thrown (e : DBException).
Arguments Returned {A}.
Arguments Thrown {A}.

(** How a run ends: with a result, on a failed [invariant], or (in the
    model only) with the retry budget used up. *)
Inductive Outcome (A : Type) := Finished (a : A) | InvariantFailed | OutOfFuel.
Arguments Finished {A}.
Arguments InvariantFailed {A}.
Arguments OutOfFuel {A}.

Inductive LockMode := MODE_IS | MODE_IX | MODE_X.

(** What [AutoGetCollection] is given: a namespace, or a database name and
    a collection UUID. *)
Inductive NamespaceStringOrUUID :=
  NssOf (nss : string) | DbAndUuid (db : string) (uuid : UUID).

(** Modelled from the spec: [NamespaceString::db], [coll] and
    [isSystemDotViews] are declared in [namespace_string.h]; a namespace is a
    dotted [db.collection] identifier. *)
Fixpoint nss_db (ns : string) : string :=
match ns with
| EmptyString => EmptyString
| String c ns' => if Ascii.eqb c "."%char then EmptyString else String c (nss_db ns')
end.

Fixpoint nss_coll (ns : string) : string :=
match ns with
| EmptyString => EmptyString
| String c ns' => if Ascii.eqb c "."%char then ns' else nss_coll ns'
end.

Definition isSystemDotViews (ns : string) : bool :=
bool_decide (nss_coll ns = "system.views").

(** [getNsOrUUID] *)
Definition getNsOrUUID (nss : string) (op : OplogEntry) : NamespaceStringOrUUID :=
match getUuid op with
| Some ui => DbAndUuid (nss_db nss) ui
| None => NssOf nss
end.

(** [fixLockModeForSystemDotViewsChanges] *)
Definition fixLockModeForSystemDotViewsChanges (nss : string) (mode : LockMode) : LockMode :=
if isSystemDotViews nss then MODE_X else mode.

Record OperationContext := mkOperationContext {
  writesAreReplicated : bool;
  documentValidationDisabled : bool
}.

(** The collaborators of the apply path, over the state [World] of the
    storage engine, catalog, clock and log: [AutoGetCollection] (which may
    throw, and whose database may be null), [applyOperation_inlock],
    [applyCommand_inlock], [InsertGroup::groupAndApplyInserts] (the offset
    of the last grouped entry from the cursor when a group was applied), the
    ops-applied counter, the clock, the log, [redact(batch.toBSON())] and
    the multikey path tracker. *)
Record ApplyEnv (World Database Paths : Type) := mkApplyEnv {
  autoGetCollection :
    NamespaceStringOrUUID → LockMode → World → World * Result (option Database);
  applyOperation_inlock :
    Database → OplogEntry → bool → Mode → World → World * Result Status;
  applyCommand_inlock : OplogEntry → Mode → World → World * Result Status;
  groupAndApplyInserts : list OplogEntry → Mode → World → World * option nat;
  incrementOpsAppliedStats : World → World;
  now : World → Z;
  slowMS : Z;
  log : string → World → World;
  redact : OplogEntry → string;
  getMultikeyPathInfo : World → list Paths
}.
Arguments autoGetCollection {World Database Paths}.
Arguments applyOperation_inlock {World Database Paths}.
Arguments applyCommand_inlock {World Database Paths}.
Arguments groupAndApplyInserts {World Database Paths}.
Arguments incrementOpsAppliedStats {World Database Paths}.
Arguments now {World Database Paths}.
Arguments slowMS {World Database Paths}.
Arguments log {World Database Paths}.
Arguments redact {World Database Paths}.
Arguments getMultikeyPathInfo {World Database Paths}.

(** Modelled from the spec: [NamespaceString::operator<] is declared in
    [namespace_string.h]; namespaces are dotted strings, ordered as
    strings. *)
Definition NamespaceString_lt (l r : string) : bool :=
match String_as_OT.compare l r with
| Lt => true
| _ => false
end.

(** [std::stable_sort] with a comparator, as a stable insertion sort: an
    element goes behind every element that is not greater than it. *)
Fixpoint stable_insert {A : Type} (comp : A → A → bool) (x : A) (l : list A) : list A :=
match l with
| [] => [x]
| y :: l' => if comp x y then x :: y :: l' else y :: stable_insert comp x l'
end.

Definition stable_sort {A : Type} (comp : A → A → bool) (l : list A) : list A :=
foldl (λ sorted x, stable_insert comp x sorted) [] l.

Section SortByNamespace.
Context {P : Type} (entryAt : P → OplogEntry).

(** The comparator of [stableSortByNamespace], on pointers to entries. *)
Definition nssComparator (l r : P) : bool :=
NamespaceString_lt (getNss (entryAt l)) (getNss (entryAt r)).

(** [stableSortByNamespace] on a vector of pointers; [entryAt] reads the
    entry a pointer points to. *)
Definition stableSortByNamespace (oplogEntryPointers : list P) : list P :=
if bool_decide (length oplogEntryPointers < 1) then oplogEntryPointers
else stable_sort nssComparator oplogEntryPointers.

End SortByNamespace.

Section Applying.
Context {World Database Paths : Type} (A : ApplyEnv World Database Paths).

(** [finishAndLogApply]: the status is returned as it came; a slow
    successful apply is logged. *)
Definition finishAndLogApply (finalStatus : Status) (applyStartTime : Z)
    (op : OplogEntry) (w : World) : World * Status :=
if isOK finalStatus then
  let applyEndTime := now A w in
  let diffMS := (applyEndTime - applyStartTime)%Z in
  if (slowMS A <? diffMS)%Z then
    let s := ("applied op: "
              +:+ (if bool_decide (getOpType op = kCommand) then "command " else "CRUD ")
              +:+ redact A op +:+ ", took " +:+ pretty diffMS +:+ "ms")%string in
    (log A s w, finalStatus)
  else (w, finalStatus)
else (w, finalStatus).

(** Modelled from the spec: [writeConflictRetry] is declared in
    [write_conflict_exception.h]; it runs the thunk and, on a
    [WriteConflict] exception, retries.  [fuel] bounds the retries of the
    model. *)
Fixpoint writeConflictRetry {R : Type} (fuel : nat) (f : World → World * Result R)
    (w : World) : Outcome (World * Result R) :=
match fuel with
| 0 => OutOfFuel
| S fuel =>
    let '(w, r) := f w in
    match r with
    | Thrown e =>
        if bool_decide (ex_code e = WriteConflict) then writeConflictRetry fuel f w
        else Finished (w, r)
    | Returned _ => Finished (w, r)
    end
end.

(** The [applyOp] lambda of [syncApply]. *)
Definition applyOp (op : OplogEntry) (oplogApplicationMode : Mode) (db : Database)
    (w : World) : World * Result Status :=
let shouldAlwaysUpsert := negb (bool_decide (oplogApplicationMode = kInitialSync)) in
let '(w, r) := applyOperation_inlock A db op shouldAlwaysUpsert oplogApplicationMode w in
match r with
| Returned status =>
    if negb (isOK status) && bool_decide (code status = WriteConflict)
    then (w, Thrown WriteConflictException)
    else (w, Returned status)
| Thrown e => (w, Thrown e)
end.

(** The body of the [try] block of the CRUD branch. *)
Definition crudTry (op : OplogEntry) (oplogApplicationMode : Mode) (w : World)
  : World * Result Status :=
let nss := getNss op in
let '(w, autoColl) :=
  autoGetCollection A (getNsOrUUID nss op)
    (fixLockModeForSystemDotViewsChanges nss MODE_IX) w in
match autoColl with
| Thrown e => (w, Thrown e)
| Returned None =>
    (w, Thrown (mkDBException NamespaceNotFound
                  ("missing database (" +:+ nss_db nss +:+ ")") []))
| Returned (Some db) => applyOp op oplogApplicationMode db w
end.

(** The thunk given to [writeConflictRetry] in the CRUD branch: the [try]
    block and its [catch] of [NamespaceNotFound]. *)
Definition crudAttempt (op : OplogEntry) (oplogApplicationMode : Mode) (w : World)
  : World * Result Status :=
let '(w, r) := crudTry op oplogApplicationMode w in
match r with
| Thrown ex =>
    if bool_decide (ex_code ex = NamespaceNotFound) then
      if bool_decide (getOpType op = kDelete)
         || bool_decide (oplogApplicationMode = kRecovering)
      then (w, Returned Status_OK)
      else (w, Thrown (addContext ("Failed to apply operation: " +:+ redact A op) ex))
    else (w, Thrown ex)
| Returned status => (w, Returned status)
end.

(** The thunk of the command branch. *)
Definition commandAttempt (op : OplogEntry) (oplogApplicationMode : Mode) (w : World)
  : World * Result Status :=
let '(w, r) := applyCommand_inlock A op oplogApplicationMode w in
match r with
| Returned status => (incrementOpsAppliedStats A w, Returned status)
| Thrown e => (w, Thrown e)
end.

(** [finishApply] on what [writeConflictRetry] produced. *)
Definition finishApply (applyStartTime : Z) (op : OplogEntry)
    (o : Outcome (World * Result Status)) : Outcome (World * Result Status) :=
match o with
| Finished (w, Returned status) =>
    let '(w, status) := finishAndLogApply status applyStartTime op w in
    Finished (w, Returned status)
| _ => o
end.

(** [syncApply], with the fail point
    [hangAfterRecordingOpApplicationStartTime] not set. *)
Definition syncApply (fuel : nat) (opCtx : OperationContext) (op : OplogEntry)
    (oplogApplicationMode : Mode) (w : World) : Outcome (World * Result Status) :=
if writesAreReplicated opCtx || negb (documentValidationDisabled opCtx) then InvariantFailed
else
  let applyStartTime := now A w in
  match getOpType op with
  | kNoop => Finished (incrementOpsAppliedStats A w, Returned Status_OK)
  | kInsert | kUpdate | kDelete =>
      finishApply applyStartTime op
        (writeConflictRetry fuel (crudAttempt op oplogApplicationMode) w)
  | kCommand =>
      finishApply applyStartTime op
        (writeConflictRetry fuel (commandAttempt op oplogApplicationMode) w)
  end.

(** The apply loop of [multiSyncApply] over the entries the sorted
    pointers point to.  [skip] counts the entries the cursor still has to
    pass after [groupAndApplyInserts] applied a group.  [Some status] is an
    early [return status]; [None] is the end of the vector. *)
Fixpoint applyLoop (fuel : nat) (opCtx : OperationContext) (opts : Options)
    (skip : nat) (ops : list OplogEntry) (w : World) : Outcome (World * option Status) :=
match ops with
| [] => Finished (w, None)
| entry :: rest =>
    match skip with
    | S skip => applyLoop fuel opCtx opts skip rest w
    | 0 =>
        let '(w, groupResult) := groupAndApplyInserts A ops (mode opts) w in
        match groupResult with
        | Some last => applyLoop fuel opCtx opts last rest w
        | None =>
            match syncApply fuel opCtx entry (mode opts) w with
            | Finished (w, Returned status) =>
                if isOK status then applyLoop fuel opCtx opts 0 rest w
                else if bool_decide (code status = UpdateOperationFailed)
                        && bool_decide (mode opts = kInitialSync)
                then applyLoop fuel opCtx opts 0 rest w
                else Finished (w, Some status)
            | Finished (w, Thrown e) =>
                if bool_decide (ex_code e = NamespaceNotFound)
                   && isCrudOpType entry
                   && allowNamespaceNotFoundErrorsOnCrudOps opts
                then applyLoop fuel opCtx opts 0 rest w
                else Finished (w, Some (toStatus e))
            | InvariantFailed => InvariantFailed
            | OutOfFuel => OutOfFuel
            end
        end
    end
end.

(** [multiSyncApply]: the worker marks its writes unreplicated and disables
    document validation, sorts its vector, runs the loop and hands over the
    multikey paths.  The settings of the locker and of the recovery unit
    act on the collaborators only and are not part of the model. *)
Definition multiSyncApply {P : Type} (entryAt : P → OplogEntry) (fuel : nat)
    (opts : Options) (ops : list P) (workerMultikeyPathInfo : list Paths) (w : World)
  : Outcome (World * list P * list Paths * Status) :=
let opCtx := mkOperationContext false true in
let ops := stableSortByNamespace entryAt ops in
match applyLoop fuel opCtx opts 0 (entryAt <$> ops) w with
| Finished (w, Some status) => Finished (w, ops, workerMultikeyPathInfo, status)
| Finished (w, None) =>
    match workerMultikeyPathInfo with
    | _ :: _ => InvariantFailed
    | [] => Finished (w, ops, getMultikeyPathInfo A w, Status_OK)
    end
| InvariantFailed => InvariantFailed
| OutOfFuel => OutOfFuel
end.

End Applying.

(** * The catalog: [parseUUIDOrNs] and [getCollectionPropertiesImpl] *)

(** [CollectionCatalog::lookupNSSByUUID] answers from the catalog's map of
    collection UUIDs to namespaces. *)
Definition CollectionCatalog := gmap UUID string.

(** [parseUUIDOrNs]: the namespace of an entry, looked up in the catalog
    when the entry carries a collection UUID. *)
Definition parseUUIDOrNs (catalog : CollectionCatalog) (oplogEntry : OplogEntry)
  : Result string :=
match getUuid oplogEntry with
| None => Returned (getNss oplogEntry)
| Some uuid =>
    match catalog !! uuid with
    | Some nss => Returned nss
    | None =>
        Thrown (mkDBException NamespaceNotFound
                  ("No namespace with UUID " +:+ pretty uuid) [])
    end
end.

(** A collection, as [getCollectionPropertiesImpl] reads it. *)
Record Collection := mkCollection {
  collection_isCapped : bool;
  getDefaultCollator : option CollatorInterface
}.

(** [DatabaseHolder]: the open databases by name, each holding its
    collections by namespace. *)
Definition DatabaseHolder := gmap string (gmap string Collection).

Module CachedCollectionProperties.

(** [CachedCollectionProperties::getCollectionPropertiesImpl].  The
    database lock it takes in [MODE_IS] acts on the lock manager only. *)
Definition getCollectionPropertiesImpl (databaseHolder : DatabaseHolder) (nss : string)
  : CollectionProperties :=
let collProperties := mkCollectionProperties false None in
match databaseHolder !! nss_db nss with
| None => collProperties
| Some db =>
    match db !! nss with
    | None => collProperties
    | Some collection =>
        mkCollectionProperties (collection_isCapped collection) (getDefaultCollator collection)
    end
end.

End CachedCollectionProperties.

(** The collaborators [E], with [databaseHolder] as the catalog behind the
    property cache. *)
Definition overCatalog {T : Type} (databaseHolder : DatabaseHolder) (E : Externals T)
  : Externals T :=
mkExternals T (hashed_key E) (elementHasher_hash E) (MurmurHash3_x86_32 E)
  (supportsDocLocking E)
  (CachedCollectionProperties.getCollectionPropertiesImpl databaseHolder)
  (readTransactionOperationsFromOplogChain E) (extractOperations E)
  (newSessionUpdateTracker E) (updateSession E) (flushAll E).

(** * The vocabulary of the properties *)

(** ** The store *)

(** The only change an entry undergoes: its capped flag may be raised. *)
Definition evolves (o o' : OplogEntry) : Prop :=
  o' = o ∨ o' = setForCapped true o.

Section StoreVocabulary.
Context {T : Type}.
Implicit Types (st : St T) (p : OperationPtr).

(** [ext st st']: every vector of [st] is still there in [st'], its
    entries the same up to the capped flag; the number of writers is kept. *)
Definition ext st st' : Prop :=
  Forall2 evolves (st_ops st) (st_ops st')
  ∧ (∀ g v, st_derivedOps st !! g = Some v →
       ∃ v', st_derivedOps st' !! g = Some v' ∧ Forall2 evolves v v')
  ∧ length (st_writerVectors st') = length (st_writerVectors st).

End StoreVocabulary.

(** ** Routing: where an entry goes, and what is known of routed entries *)

Section RoutingVocabulary.
Context {T : Type} (E : Externals T).
Implicit Types (st : St T) (p : OperationPtr) (op : OplogEntry).

(** The hash [addToWriterVector] receives for an entry, read off the
    catalog rather than the cache. *)
Definition routeHash op : Z :=
  let h := uint32 (hashed_key E (getNss op)) in
  let props := getCollectionPropertiesImpl E (getNss op) in
  if isCrudOpType op && (supportsDocLocking E && negb (isCapped props)) then
    uint32 (MurmurHash3_x86_32 E
              (uint64 (elementHasher_hash E (collator props) (getIdElement op))) h)
  else h.

Definition bucket (W : nat) (hash : Z) : nat :=
  Z.to_nat (hash mod uint32 (Z.of_nat W)).

Definition workerOf (W : nat) op : nat := bucket W (routeHash op).

(** An insert into a capped collection carries the flag. *)
Definition marked op : Prop :=
  getOpType op = kInsert →
  isCapped (getCollectionPropertiesImpl E (getNss op)) = true →
  isForCappedCollection op = true.

(** An entry once the hasher has seen it: an insert into a capped
    collection has the flag set, any other entry is as it was. *)
Definition markCapped op : OplogEntry :=
  if bool_decide (getOpType op = kInsert)
     && isCapped (getCollectionPropertiesImpl E (getNss op))
  then setForCapped true op else op.

Definition cache_ok st : Prop :=
  ∀ ns props, st_cache st !! ns = Some props → props = getCollectionPropertiesImpl E ns.

(** Every pointer in a writer vector is valid, sits in the vector its
    entry hashes to, and points to a marked entry. *)
Definition routed_ok st : Prop :=
  ∀ k w p, st_writerVectors st !! k = Some w → p ∈ w →
    ∃ op, deref st p = Some op
          ∧ k = workerOf (length (st_writerVectors st)) op ∧ marked op.

(** The positions of the input batch a writer vector points to. *)
Definition inputIdxs (w : list OperationPtr) : list nat :=
  omap (λ p : OperationPtr,
          match p.1 with InputOps => Some p.2 | DerivedOps _ => None end) w.

(** A step that routes no pointer into the input batch. *)
Definition silent st st' : Prop :=
  ext st st'
  ∧ (∀ k, inputIdxs <$> st_writerVectors st' !! k = inputIdxs <$> st_writerVectors st !! k)
  ∧ (cache_ok st → cache_ok st')
  ∧ (cache_ok st → routed_ok st → routed_ok st').

(** The writer vectors after the entries of [v], the group at position
    [g] of the pool, were routed at the positions [idxs]. *)
Definition routeDerived (W g : nat) (v : list OplogEntry)
    (wv : list (list OperationPtr)) (idxs : list nat) : list (list OperationPtr) :=
  foldl (λ wv j, match v !! j with
                 | Some o => alter (λ w, w ++ [(DerivedOps g, j)]) (workerOf W o) wv
                 | None => wv
                 end) wv idxs.

(** A step that works on group [g] of the pool only. *)
Definition derivedStep (g : nat) st st' : Prop :=
  silent st st'
  ∧ st_ops st' = st_ops st
  ∧ st_partialTxnOps st' = st_partialTxnOps st
  ∧ st_tracker st' = st_tracker st
  ∧ length (st_derivedOps st') = length (st_derivedOps st)
  ∧ (∀ g', g' ≠ g → st_derivedOps st' !! g' = st_derivedOps st !! g').

End RoutingVocabulary.

(** ** Pointers in the writer vectors *)

Definition present (wv : list (list OperationPtr)) (p : OperationPtr) : Prop :=
∃ k w, wv !! k = Some w ∧ p ∈ w.

Definition absent (wv : list (list OperationPtr)) (p : OperationPtr) : Prop :=
∀ k w, wv !! k = Some w → p ∉ w.

Definition before (w : list OperationPtr) (p q : OperationPtr) : Prop :=
∃ l1 l2 l3, w = l1 ++ p :: l2 ++ q :: l3.

Definition sameVectorBefore (wv : list (list OperationPtr)) (p q : OperationPtr) : Prop :=
∃ k w, wv !! k = Some w ∧ before w p q.

(** The pointers of a writer vector into group [g] of the pool, in the
    order of the vector. *)
Definition intoGroup (g : nat) (w : list OperationPtr) : list OperationPtr :=
filter (λ p : OperationPtr, p.1 = DerivedOps g) w.

(** ** The loop body, the passes and the transaction buffer *)

Section PassVocabulary.
Context {T : Type} (E : Externals T) (opts : Options).
Implicit Types (st : St T) (p : OperationPtr) (op : OplogEntry).

(** The entries of the scanned vector that reach [addToWriterVector]. *)
Definition isRouted op : bool :=
  negb (OpTime_le (getOpTime op) (beginApplyingOpTime opts))
  && negb (isPartialTransaction op
           || (shouldPrepare op && bool_decide (mode opts = kInitialSync)))
  && negb (isTerminalApplyOps op)
  && negb (isPreparedCommit op && bool_decide (mode opts = kInitialSync)).

Definition routedTo (W k : nat) op : bool :=
  isRouted op && bool_decide (workerOf E W op = k).

(** The input positions one iteration adds to writer vector [k]. *)
Definition added (loc : OpsLoc) (W k : nat) op (i : nat) : list nat :=
  match loc with
  | InputOps => if routedTo W k op then [i] else []
  | DerivedOps _ => []
  end.

(** What one iteration of the loop guarantees. *)
Definition iteration (loc : OpsLoc) (i : nat) op st st' : Prop :=
  ext st st'
  ∧ (cache_ok E st → cache_ok E st')
  ∧ (cache_ok E st → routed_ok E st → routed_ok E st')
  ∧ (cache_ok E st → ∀ k,
       inputIdxs <$> st_writerVectors st' !! k =
       (λ w, inputIdxs w ++ added loc (length (st_writerVectors st)) k op i)
         <$> st_writerVectors st !! k).

(** The positions of [v] (among [idxs]) that are routed to writer [k]. *)
Definition routedIdxs (W k : nat) (v : list OplogEntry) (idxs : list nat) : list nat :=
  filter (λ i, from_option (routedTo W k) false (v !! i) = true) idxs.

Definition addedBy (loc : OpsLoc) (W k : nat) (v : list OplogEntry) (idxs : list nat)
  : list nat :=
  match loc with
  | InputOps => routedIdxs W k v idxs
  | DerivedOps _ => []
  end.

(** Two CRUD entries on the same document, as the routing sees it. *)
Definition sameDocument (a b : OplogEntry) : Prop :=
isCrudOpType a = true ∧ isCrudOpType b = true
∧ getNss a = getNss b
∧ (getIdElement a = getIdElement b
   ∨ isCapped (getCollectionPropertiesImpl E (getNss a)) = true
   ∨ supportsDocLocking E = false).

(** Position [i] of [v] holds an entry above [beginApplyingOpTime]. *)
Definition aboveFloor (v : list OplogEntry) (i : nat) : Prop :=
from_option (λ o, OpTime_le (getOpTime o) (beginApplyingOpTime opts)) true (v !! i) = false.

#[global] Instance aboveFloor_dec v i : Decision (aboveFloor v i).
Proof. unfold aboveFloor. apply _. Defined.

(** C1 as the spec states it: for two same-document CRUD entries of a
    batch, the earlier one at [i] and the later one at [j], either both are
    in one writer vector with [i] first, or [j] is in none. *)
Definition serialization_as_stated (ops : list OplogEntry) (W : nat) : Prop :=
∀ st' i j a b,
  fillWriterVectors E opts ops (replicate W []) [] = Some st' →
  i < j → ops !! i = Some a → ops !! j = Some b → sameDocument a b →
  sameVectorBefore (st_writerVectors st') (InputOps, i) (InputOps, j)
  ∨ absent (st_writerVectors st') (InputOps, j).

(** The positions of group [v] whose entry hashes to writer [k]. *)
Definition derivedIdxs (W k : nat) (v : list OplogEntry) (idxs : list nat) : list nat :=
filter (λ j, from_option (λ o, bool_decide (workerOf E W o = k)) false (v !! j) = true) idxs.

(** A terminal [applyOps] of a transaction, or a prepared commit during
    initial sync: a command of session [sid] that the loop body neither
    skips nor buffers. *)
Definition endsTransaction op (sid : LogicalSessionId) : Prop :=
OpTime_le (getOpTime op) (beginApplyingOpTime opts) = false
∧ getOpType op = kCommand
∧ getSessionId op = Some sid
∧ isPartialTransaction op = false
∧ shouldPrepare op && bool_decide (mode opts = kInitialSync) = false
∧ ((getCommandType op = kApplyOps ∧ isTerminalApplyOps op = true
    ∧ is_Some (getTxnNumber op))
   ∨ (getCommandType op = kCommitTransaction ∧ isTerminalApplyOps op = false
      ∧ isPreparedCommit op = true ∧ mode opts = kInitialSync)).

(** An [abortTransaction] command of session [sid] above the floor. *)
Definition isAbortEntry op (sid : LogicalSessionId) : Prop :=
OpTime_le (getOpTime op) (beginApplyingOpTime opts) = false
∧ getOpType op = kCommand
∧ getCommandType op = kAbortTransaction
∧ getSessionId op = Some sid
∧ isPartialTransaction op = false
∧ shouldPrepare op && bool_decide (mode opts = kInitialSync) = false
∧ isTerminalApplyOps op = false
∧ isPreparedCommit op && bool_decide (mode opts = kInitialSync) = false.

(** The entries the loop body puts into the transaction buffer. *)
Definition isBuffered op : bool :=
isPartialTransaction op || (shouldPrepare op && bool_decide (mode opts = kInitialSync)).


(** What the loop body dereferences or asserts is there. *)
Definition wellFormed op : Prop :=
(isBuffered op = true → is_Some (getSessionId op))
∧ (getCommandType op = kAbortTransaction → is_Some (getSessionId op))
∧ (isTerminalApplyOps op = true →
   (is_Some (getSessionId op) ∧ is_Some (getTxnNumber op))
   ∨ getPrevWriteOpTimeInTransaction op = None)
∧ (isPreparedCommit op && bool_decide (mode opts = kInitialSync) = true →
   is_Some (getSessionId op)).

(** The buffered entries of one session carry one transaction number. *)
Definition txnConsistent (v : list OplogEntry) : Prop :=
∀ i j a b, v !! i = Some a → v !! j = Some b →
  isBuffered a = true → isBuffered b = true →
  getSessionId a = getSessionId b → getTxnNumber a = getTxnNumber b.

(** The vector scanned is in the store, up to the capped flag. *)
Definition scanned (loc : OpsLoc) (v : list OplogEntry) st : Prop :=
∀ j a, v !! j = Some a → ∃ a', deref st (loc, j) = Some a' ∧ evolves a a'.

(** The buffer holds pointers to buffered entries of the scanned vector,
    filed under their session. *)
Definition buffer_ok (loc : OpsLoc) (v : list OplogEntry) st : Prop :=
∀ sid l q, st_partialTxnOps st !! sid = Some l → q ∈ l →
  ∃ j a, q = (loc, j) ∧ v !! j = Some a
         ∧ isBuffered a = true ∧ getSessionId a = Some sid.

Definition writers_ok st : Prop :=
uint32 (Z.of_nat (length (st_writerVectors st))) ≠ 0%Z.

(** What the loop body does with an entry above the floor once the session
    tracker has seen it, from [st1] to [st']: a buffered entry goes to the
    end of the buffer of its session; a terminal [applyOps] or a prepared
    commit in initial sync puts one group into the pool and routes the
    entries of that group; any other entry is appended to the writer vector
    its hash selects. *)
Definition disposed (loc : OpsLoc) (i : nat) op st1 st' : Prop :=
if isBuffered op then
  ∃ sid, getSessionId op = Some sid
    ∧ partialTxnList sid st' = partialTxnList sid st1 ++ [(loc, i)]
    ∧ st_writerVectors st' = st_writerVectors st1
    ∧ st_derivedOps st' = st_derivedOps st1
else if isTerminalApplyOps op
        || (isPreparedCommit op && bool_decide (mode opts = kInitialSync)) then
  ∃ v v', length (st_derivedOps st') = S (length (st_derivedOps st1))
    ∧ st_derivedOps st' !! length (st_derivedOps st1) = Some v'
    ∧ Forall2 evolves v v'
    ∧ st_writerVectors st' =
        routeDerived E (length (st_writerVectors st1)) (length (st_derivedOps st1)) v
          (st_writerVectors st1) (seq 0 (length v))
else
  uint32 (Z.of_nat (length (st_writerVectors st1))) ≠ 0%Z
  ∧ st_writerVectors st' =
      alter (λ w, w ++ [(loc, i)]) (workerOf E (length (st_writerVectors st1)) op)
        (st_writerVectors st1)
  ∧ length (st_derivedOps st') = length (st_derivedOps st1).

End PassVocabulary.

(** C4 as stated: once partial entries of a session are followed by its
    [abortTransaction], no routed entry belongs to that session. *)
Definition abort_routes_nothing_as_stated {T : Type} (E : Externals T) (opts : Options)
  (ops : list OplogEntry) (W : nat) : Prop :=
∀ st' sid i j p a,
  fillWriterVectors E opts ops (replicate W []) [] = Some st' →
  i < j →
  ops !! i = Some p → isPartialTransaction p = true → getSessionId p = Some sid →
  ops !! j = Some a → getCommandType a = kAbortTransaction → getSessionId a = Some sid →
  ∀ k w q op, st_writerVectors st' !! k = Some w → q ∈ w →
              deref st' q = Some op → getSessionId op ≠ Some sid.

(** ** Applying *)

(** [a] is not after [b]. *)
Definition NamespaceString_le (a b : string) : Prop := NamespaceString_lt b a = false.

Section Retries.
Context {World : Type}.

(** The world after [k] attempts of [f] that all ended in a write
    conflict, if that is how the first [k] attempts go. *)
Fixpoint conflictsFor {R : Type} (k : nat) (f : World → World * Result R) (w : World)
  : option World :=
match k with
| 0 => Some w
| S k =>
    match f w with
    | (w, Thrown e) =>
        if bool_decide (ex_code e = WriteConflict) then conflictsFor k f w else None
    | (_, Returned _) => None
    end
end.

End Retries.

(** The outcomes the worker loop passes over, in the claim's words: an
    [UpdateOperationFailed] status in initial sync, or a
    [NamespaceNotFound] exception on a CRUD op when such errors are
    allowed. *)
Definition suppressed (opts : Options) (entry : OplogEntry) (r : Result Status) : bool :=
match r with
| Returned status =>
    bool_decide (code status = UpdateOperationFailed)
    && bool_decide (mode opts = kInitialSync)
| Thrown e =>
    bool_decide (ex_code e = NamespaceNotFound)
    && isCrudOpType entry && allowNamespaceNotFoundErrorsOnCrudOps opts
end.

Definition nonOK (r : Result Status) : Prop :=
match r with
| Returned status => isOK status = false
| Thrown _ => True
end.

#[global] Instance nonOK_dec r : Decision (nonOK r).
Proof. destruct r; simpl; apply _. Defined.

Definition statusOf (r : Result Status) : Status :=
match r with
| Returned status => status
| Thrown e => toStatus e
end.

Section WorkerVocabulary.
Context {World Database Paths : Type} (A : ApplyEnv World Database Paths).

(** The worker gets on, in the claim's words: from the cursor at the head
    of [l] in world [w] it reaches the cursor at the head of [l'] in world
    [w'] without returning.  Each step is an insert group applied at the
    cursor, or an entry applied on its own whose outcome is OK or is one of
    the two that are skipped. *)
Inductive getsOn (fuel : nat) (opts : Options)
  : list OplogEntry → World → list OplogEntry → World → Prop :=
| getsOn_here l w : getsOn fuel opts l w l w
| getsOn_group entry rest w w1 last l' w' :
    groupAndApplyInserts A (entry :: rest) (mode opts) w = (w1, Some last) →
    getsOn fuel opts (drop last rest) w1 l' w' →
    getsOn fuel opts (entry :: rest) w l' w'
| getsOn_apply entry rest w w0 w1 r l' w' :
    groupAndApplyInserts A (entry :: rest) (mode opts) w = (w0, None) →
    syncApply A fuel (mkOperationContext false true) entry (mode opts) w0
    = Finished (w1, r) →
    (nonOK r → suppressed opts entry r = true) →
    getsOn fuel opts rest w1 l' w' →
    getsOn fuel opts (entry :: rest) w l' w'.

End WorkerVocabulary.

(** ** What a pass does to the entries, the tracker and the vectors *)

Section ExactVocabulary.
Context {T : Type} (E : Externals T) (opts : Options).

(** The entries on which the loop body sets the capped flag: inserts into
    a capped collection that are above the floor and not buffered. *)
Definition isMarkedByPass (op : OplogEntry) : bool :=
negb (OpTime_le (getOpTime op) (beginApplyingOpTime opts))
&& negb (isBuffered opts op)
&& bool_decide (getOpType op = kInsert)
&& isCapped (getCollectionPropertiesImpl E (getNss op)).

(** An entry of the scanned vector after the pass. *)
Definition afterPass (op : OplogEntry) : OplogEntry :=
if isMarkedByPass op then setForCapped true op else op.

(** The session tracker after it was shown the entries of [v] that are
    above the floor, in order. *)
Definition trackAll (tr : T) (v : list OplogEntry) : T :=
foldl (λ tr op, if OpTime_le (getOpTime op) (beginApplyingOpTime opts) then tr
                else (updateSession E tr op).2) tr v.

(** What the loop body dereferences or asserts of an entry above the
    floor, branch by branch. *)
Definition required (op : OplogEntry) : Prop :=
OpTime_le (getOpTime op) (beginApplyingOpTime opts) = false →
if isBuffered opts op then is_Some (getSessionId op)
else (getCommandType op = kAbortTransaction → is_Some (getSessionId op))
     ∧ (if isTerminalApplyOps op
        then (is_Some (getSessionId op) ∧ is_Some (getTxnNumber op))
             ∨ getPrevWriteOpTimeInTransaction op = None
        else isPreparedCommit op && bool_decide (mode opts = kInitialSync) = true →
             is_Some (getSessionId op)).

End ExactVocabulary.

(** Every writer vector of [wv] is still there in [wv'], with its old
    contents at the front. *)
Definition grows (wv wv' : list (list OperationPtr)) : Prop :=
Forall2 (λ w w' : list OperationPtr, w `prefix_of` w') wv wv'.

(** An [applyOps] command that is not part of a transaction: above the
    floor, not buffered, terminal, without a session id or without a
    transaction number, and with no previous write in a transaction. *)
Definition isPlainApplyOps (opts : Options) (op : OplogEntry) : Prop :=
OpTime_le (getOpTime op) (beginApplyingOpTime opts) = false
∧ getOpType op = kCommand
∧ getCommandType op = kApplyOps
∧ isBuffered opts op = false
∧ isTerminalApplyOps op = true
∧ (getSessionId op = None ∨ getTxnNumber op = None)
∧ getPrevWriteOpTimeInTransaction op = None.

(** The buffer of session [sid] is not empty, and the entry at its front
    carries the transaction number [tn]. *)
Definition frontTxn {T : Type} (sid : LogicalSessionId) (tn : option TxnNumber) (st : St T)
  : Prop :=
∃ f l fop, partialTxnList sid st = f :: l ∧ deref st f = Some fop ∧ getTxnNumber fop = tn.

(** From [st] to [st'] the writer vectors gained the pointers [news], all
    of them into groups the pool gained meanwhile. *)
Definition gains {T : Type} (st st' : St T) (news : list OperationPtr) : Prop :=
length (st_derivedOps st) ≤ length (st_derivedOps st')
∧ concat (st_writerVectors st') ≡ₚ news ++ concat (st_writerVectors st)
∧ NoDup news
∧ ∀ p, p ∈ news →
    ∃ g j, p = (DerivedOps g, j)
           ∧ length (st_derivedOps st) ≤ g < length (st_derivedOps st').

(** The thunk [syncApply] hands to [writeConflictRetry] for an entry that
    is not a no-op. *)
Definition attempt {World Database Paths : Type} (A : ApplyEnv World Database Paths)
    (op : OplogEntry) (oplogApplicationMode : Mode) : World → World * Result Status :=
if isCrudOpType op then crudAttempt A op oplogApplicationMode
else commandAttempt A op oplogApplicationMode.

(** The pointers the loop body appends to the buffer of session [sid] on
    a stretch [v] of the vector at [loc] that starts at position [s]: one
    for each entry above the floor that is of that session. *)
Fixpoint bufferedFor (opts : Options) (loc : OpsLoc) (sid : LogicalSessionId) (s : nat)
    (v : list OplogEntry) : list OperationPtr :=
match v with
| [] => []
| op :: v' =>
    (if negb (OpTime_le (getOpTime op) (beginApplyingOpTime opts))
        && bool_decide (getSessionId op = Some sid)
     then [(loc, s)] else [])
    ++ bufferedFor opts loc sid (S s) v'
end.

(** ** The partitioning pass on values *)

(** The partitioning as the specification tells it (OpHasher,
    SessionUpdateTracker, TransactionAssembler, WriterVectorBuilder), on
    entries rather than on pointers to them and without pool or cache: the
    state is the writer vectors as lists of entries, the transaction buffer
    of each session as a list of entries, and the session tracker. *)
Record Fill (T : Type) := mkFill {
  fill_writers : list (list OplogEntry);
  fill_partial : gmap LogicalSessionId (list OplogEntry);
  fill_tracker : option T
}.
Arguments mkFill {T}.
Arguments fill_writers {T}.
Arguments fill_partial {T}.
Arguments fill_tracker {T}.

Section ValueRun.
Context {T : Type} (E : Externals T) (opts : Options).

Definition valuePartial (sid : LogicalSessionId) (r : Fill T) : list OplogEntry :=
default [] (fill_partial r !! sid).

Definition setPartial (sid : LogicalSessionId) (l : list OplogEntry) (r : Fill T) : Fill T :=
mkFill (fill_writers r) (<[sid := l]> (fill_partial r)) (fill_tracker r).

(** Route one entry: the hasher marks it, and it goes to the end of the
    writer vector its hash selects; with no writer there is no such
    vector. *)
Definition route (op : OplogEntry) (r : Fill T) : option (Fill T) :=
let W := length (fill_writers r) in
if decide (uint32 (Z.of_nat W) = 0%Z) then None
else Some (mkFill (alter (λ w, w ++ [markCapped E op]) (workerOf E W op) (fill_writers r))
             (fill_partial r) (fill_tracker r)).

(** Route derived entries, in their order. *)
Fixpoint routeAll (v : list OplogEntry) (r : Fill T) : option (Fill T) :=
match v with
| [] => Some r
| op :: v => r ← route op r; routeAll v r
end.

(** Ask the session tracker, and route what it hands back. *)
Definition askTracker (op : OplogEntry) (r : Fill T) : option (Fill T) :=
match fill_tracker r with
| Some tr =>
    let '(newOplogWrites, tr) := updateSession E tr op in
    let r := mkFill (fill_writers r) (fill_partial r) (Some tr) in
    match newOplogWrites with
    | Some ws => routeAll ws r
    | None => Some r
    end
| None => Some r
end.

(** Read the transaction of [sid] from the chain and the buffer, empty
    the buffer, route what was read. *)
Definition assemble (op : OplogEntry) (sid : LogicalSessionId) (r : Fill T)
  : option (Fill T) :=
routeAll (readTransactionOperationsFromOplogChain E op (valuePartial sid r))
  (setPartial sid [] r).

(** One entry of the scan: skipped at or below the floor; else shown to
    the tracker and then buffered, or, the hasher having seen it, expanded
    into the entries of its transaction or of its [applyOps], or routed. *)
Definition valueStep (r : Fill T) (op : OplogEntry) : option (Fill T) :=
if OpTime_le (getOpTime op) (beginApplyingOpTime opts) then Some r
else
  r ← askTracker op r;
  if isBuffered opts op then
    sid ← getSessionId op;
    let l := valuePartial sid r in
    if match l with
       | [] => true
       | f :: _ => bool_decide (getTxnNumber f = getTxnNumber op)
       end
    then Some (setPartial sid (l ++ [op]) r)
    else None
  else
    r ← (if bool_decide (getCommandType op = kAbortTransaction) then
           sid ← getSessionId op; Some (setPartial sid [] r)
         else Some r);
    let seen := markCapped E op in
    if isTerminalApplyOps seen then
      match getSessionId seen, getTxnNumber seen with
      | Some sid, Some _ => assemble seen sid r
      | _, _ =>
          match getPrevWriteOpTimeInTransaction seen with
          | Some _ => None
          | None => routeAll (extractOperations E seen) r
          end
      end
    else if isPreparedCommit seen && bool_decide (mode opts = kInitialSync) then
      sid ← getSessionId seen;
      assemble seen sid r
    else route op r.

Fixpoint valuePass (r : Fill T) (v : list OplogEntry) : option (Fill T) :=
match v with
| [] => Some r
| op :: v => r ← valueStep r op; valuePass r v
end.

(** The writer vectors of a batch for [W] writers: a scan of the batch
    with a fresh tracker and empty buffers, then a scan, without tracker,
    of what the tracker flushes. *)
Definition valueRun (W : nat) (ops : list OplogEntry) : option (list (list OplogEntry)) :=
r ← valuePass (mkFill (replicate W []) ∅ (Some (newSessionUpdateTracker E))) ops;
tr ← fill_tracker r;
match flushAll E tr with
| [] => Some (fill_writers r)
| newOplogWrites =>
    fill_writers <$> valuePass (mkFill (fill_writers r) ∅ None) newOplogWrites
end.

(** The entries the writer vectors of a state point to. *)
Definition pointees (st : St T) : option (list (list OplogEntry)) :=
mapM (mapM (deref st)) (st_writerVectors st).

(** Pointer [p] holds entry [o] for good: it is not one of the positions
    [todo] that the scan has yet to visit. *)
Definition holds (todo : OperationPtr → Prop) (st : St T) (p : OperationPtr)
    (o : OplogEntry) : Prop :=
deref st p = Some o ∧ ¬ todo p.

(** A state and its account on values: the writer vectors and the
    buffers point to the entries of the account, and the trackers are the
    same. *)
Definition tied (todo : OperationPtr → Prop) (st : St T) (r : Fill T) : Prop :=
Forall2 (Forall2 (holds todo st)) (st_writerVectors st) (fill_writers r)
∧ (∀ sid, Forall2 (holds todo st) (partialTxnList sid st) (valuePartial sid r))
∧ st_tracker st = fill_tracker r.

(** The positions of the vector at [loc] from [i] on. *)
Definition fromOn (loc : OpsLoc) (i : nat) (p : OperationPtr) : Prop :=
p.1 = loc ∧ i ≤ p.2.

(** The scan of [v], the vector at [loc], has reached position [i] in
    state [st], of which [r] is the account on values. *)
Definition sim (loc : OpsLoc) (v : list OplogEntry) (i : nat) (st : St T) (r : Fill T)
  : Prop :=
tied (fromOn loc i) st r
∧ cache_ok E st
∧ ∀ j o, i ≤ j → v !! j = Some o → deref st (loc, j) = Some o.

End ValueRun.

(** * Concrete inputs *)

(** ** Batches for the partitioning pass *)

Module Demo.

Local Open Scope string_scope.

Fixpoint stringHash (s : string) (h : Z) : Z :=
match s with
| EmptyString => h
| String c s' => stringHash s' ((h * 31 + Z.of_nat (Ascii.nat_of_ascii c)) mod 2 ^ 64)%Z
end.

Definition elementHash (c : option CollatorInterface) (e : BSONElement) : Z :=
match e with
| EOO => 0
| NumberLong n => n
| BSONString s => stringHash s 0
end.

Definition mix (key seed : Z) : Z := (key * 2654435761 + seed * 40503 + 1)%Z.

(** [db.log] is the one capped collection of the demo catalog. *)
Definition catalog (ns : string) : CollectionProperties :=
mkCollectionProperties (bool_decide (ns = "db.log")) None.

Definition insert (ns : string) (ts id : Z) : OplogEntry :=
mkOplogEntry kInsert ns None (mkOpTime 1 ts) [("_id", NumberLong id)] (NumberLong id)
  None None None kNotCommand false false false false false.

Definition delete (ns : string) (ts id : Z) : OplogEntry :=
mkOplogEntry kDelete ns None (mkOpTime 1 ts) [("_id", NumberLong id)] (NumberLong id)
  None None None kNotCommand false false false false false.

(** An [applyOps] entry lists its inner inserts as (namespace, _id). *)
Definition innerOps (e : OplogEntry) : list OplogEntry :=
(λ '(ns, id), mkOplogEntry kInsert ns None (getOpTime e) [("_id", id)] id
                None None None kNotCommand false false false false false)
  <$> getObject e.

Definition partialTxn (sid txn ts : Z) (inner : list (string * BSONElement)) : OplogEntry :=
mkOplogEntry kCommand "admin.$cmd" None (mkOpTime 1 ts) inner EOO
  (Some sid) (Some txn) None kApplyOps true false false false false.

Definition terminalApplyOps (sid txn ts : Z) (inner : list (string * BSONElement))
  : OplogEntry :=
mkOplogEntry kCommand "admin.$cmd" None (mkOpTime 1 ts) inner EOO
  (Some sid) (Some txn) None kApplyOps false false false true false.

Definition abortTransaction (sid txn ts : Z) : OplogEntry :=
mkOplogEntry kCommand "admin.$cmd" None (mkOpTime 1 ts) [] EOO
  (Some sid) (Some txn) None kAbortTransaction false false false false false.

Definition tableUpdate (s : LogicalSessionId * OpTime) : OplogEntry :=
mkOplogEntry kUpdate "config.transactions" None s.2 [("_id", NumberLong s.1)] (NumberLong s.1)
  None None None kNotCommand false false false false false.

(** A tracker that remembers the sessions of retryable writes (flushed at
    the end of the batch) and emits the table update of a transaction when
    it ends. *)
Definition Tracker : Type := list (LogicalSessionId * OpTime).

Definition track (tr : Tracker) (op : OplogEntry) : option (list OplogEntry) * Tracker :=
match getSessionId op with
| None => (None, tr)
| Some sid =>
    if isCrudOpType op then
      (None, (filter (λ s, s.1 ≠ sid) tr ++ [(sid, getOpTime op)])%list)
    else if isTerminalApplyOps op
            || bool_decide (getCommandType op = kAbortTransaction)
            || bool_decide (getCommandType op = kCommitTransaction) then
      (Some [tableUpdate (sid, getOpTime op)], filter (λ s, s.1 ≠ sid) tr)
    else (None, tr)
end.

Definition env : Externals Tracker :=
mkExternals Tracker (λ ns, stringHash ns 7) elementHash mix true catalog
  (λ op cached, flat_map innerOps (cached ++ [op])%list) innerOps
  [] track (fmap tableUpdate).

Definition options : Options := mkOptions kSecondary (mkOpTime 1 100) false.

(** Four writes to one document, the first two at or below the floor. *)
Definition floorBatch : list OplogEntry :=
[insert "db.c" 99 1; delete "db.c" 100 1; insert "db.c" 101 1; delete "db.c" 102 1].

(** Inserts into the capped collection and into a plain one. *)
Definition cappedBatch : list OplogEntry :=
[insert "db.log" 101 1; insert "db.c" 102 1; insert "db.log" 103 2; insert "db.c" 104 2].

(** Session 5, transaction 7: three partial entries, then the terminal one. *)
Definition txnBatch : list OplogEntry :=
[partialTxn 5 7 101 [("db.c", NumberLong 1)];
 partialTxn 5 7 102 [("db.c", NumberLong 2)];
 partialTxn 5 7 103 [("db.log", NumberLong 3)];
 terminalApplyOps 5 7 104 [("db.c", NumberLong 4)]].


(** Session 5: two partial entries, the abort, then an unrelated insert. *)
Definition abortBatch : list OplogEntry :=
[partialTxn 5 7 101 [("db.c", NumberLong 1)];
 partialTxn 5 7 102 [("db.c", NumberLong 2)];
 abortTransaction 5 7 103;
 insert "db.c" 104 9].

(** Sessions 5 and 6 interleaved: session 5 buffers two partial entries and
    aborts, session 6 buffers one and ends with its terminal [applyOps];
    then an unrelated insert. *)
Definition mixedBatch : list OplogEntry :=
[partialTxn 5 7 101 [("db.c", NumberLong 1)];
 partialTxn 6 3 102 [("db.c", NumberLong 2)];
 partialTxn 5 7 103 [("db.c", NumberLong 3)];
 abortTransaction 5 7 104;
 terminalApplyOps 6 3 105 [("db.log", NumberLong 4)];
 insert "db.c" 106 9].

Definition fresh (W : nat) : list (list OperationPtr) := replicate W [].

Definition start (ops : list OplogEntry) (W : nat) : St Tracker :=
mkSt ops [] (fresh W) ∅ ∅ (Some []).

End Demo.

(** ** A world for the apply path *)

Module ApplyDemo.

Local Open Scope string_scope.

(** The world counts the storage operations done so far.  Database
    [dropping] is there until the first operation and gone afterwards; an
    operation on it at time 0 meets a write conflict.  Updates elsewhere find
    no document. *)
Definition env : ApplyEnv nat string string :=
mkApplyEnv nat string string
  (λ nsOrUUID lockMode w,
     match nsOrUUID with
     | NssOf "dropping.c" =>
         (w, Returned (if bool_decide (w = 0) then Some "dropping" else None))
     | NssOf _ => (w, Returned (Some "db"))
     | DbAndUuid _ _ =>
         (w, Thrown (mkDBException NamespaceNotFound "no namespace with this UUID" []))
     end)
  (λ db op alwaysUpsert m w,
     if bool_decide (db = "dropping") then (S w, Returned (mkStatus WriteConflict "conflict"))
     else if bool_decide (getOpType op = kUpdate)
          then (S w, Returned (mkStatus UpdateOperationFailed "document missing"))
          else (S w, Returned Status_OK))
  (λ op m w, (S w, Returned Status_OK))
  (λ ops m w, (w, None))
  (λ w, w)
  (λ w, Z.of_nat w)
  100
  (λ s w, w)
  getNss
  (λ w, []).

Definition opCtx : OperationContext := mkOperationContext false true.

Definition insertDropping : OplogEntry := Demo.insert "dropping.c" 101 1.

Definition missingDatabase : DBException :=
mkDBException NamespaceNotFound "missing database (dropping)" [].

Definition update (ns : string) (ts id : Z) : OplogEntry :=
mkOplogEntry kUpdate ns None (mkOpTime 1 ts) [("_id", NumberLong id)] (NumberLong id)
  None None None kNotCommand false false false false false.

Definition initialSync : Options := mkOptions kInitialSync (mkOpTime 1 100) false.

End ApplyDemo.

(** ** A world that groups inserts *)

Module GroupDemo.

Local Open Scope string_scope.

(** The leading run of inserts into [ns] that are not for a capped
    collection. *)
Fixpoint run (ns : string) (ops : list OplogEntry) : nat :=
match ops with
| [] => 0%nat
| op :: ops' =>
    if bool_decide (getOpType op = kInsert) && bool_decide (getNss op = ns)
       && negb (isForCappedCollection op)
    then S (run ns ops') else 0%nat
end.

(** [groupAndApplyInserts] applies a run of two or more inserts at the
    cursor as one operation and answers with the position of its last
    entry. *)
Definition group (ops : list OplogEntry) (m : Mode) (w : nat) : nat * option nat :=
match ops with
| [] => (w, None)
| op :: _ =>
    let n := run (getNss op) ops in
    if bool_decide (2 ≤ n)%nat then (S w, Some (n - 1)%nat) else (w, None)
end.

Definition env : ApplyEnv nat string string :=
mkApplyEnv nat string string
  (autoGetCollection ApplyDemo.env) (applyOperation_inlock ApplyDemo.env)
  (applyCommand_inlock ApplyDemo.env) group
  (incrementOpsAppliedStats ApplyDemo.env) (now ApplyDemo.env) (slowMS ApplyDemo.env)
  (log ApplyDemo.env) (redact ApplyDemo.env) (getMultikeyPathInfo ApplyDemo.env).

(** Three inserts into one collection, then a delete. *)
Definition batch : list OplogEntry :=
[Demo.insert "db.c" 101 1; Demo.insert "db.c" 102 2; Demo.insert "db.c" 103 3;
 Demo.delete "db.c" 104 1].

End GroupDemo.

(** ** A catalog, and an [applyOps] outside a transaction *)

Module CatalogDemo.

Local Open Scope string_scope.

(** Database [db] holds the capped collection [db.log] and the plain
    collection [db.c]; there is no other database. *)
Definition holder : DatabaseHolder :=
{["db" := <["db.log" := mkCollection true None]> {["db.c" := mkCollection false None]}]}.

Definition env : Externals Demo.Tracker := overCatalog holder Demo.env.

(** Inserts into the capped collection, into a collection that is not
    there, and into a database that is not there. *)
Definition batch : list OplogEntry :=
[Demo.insert "db.log" 101 1; Demo.insert "db.gone" 102 1; Demo.insert "nodb.c" 103 1].

(** An [applyOps] command with no session: two inner inserts. *)
Definition applyOps : OplogEntry :=
mkOplogEntry kCommand "admin.$cmd" None (mkOpTime 1 101)
  [("db.c", NumberLong 1); ("db.log", NumberLong 2)] EOO
  None None None kApplyOps false false false true false.

(** Partial entries of sessions 5 and 6, interleaved. *)
Definition twoSessions : list OplogEntry :=
[Demo.partialTxn 5 7 101 [("db.c", NumberLong 1)];
 Demo.partialTxn 6 3 102 [("db.c", NumberLong 2)];
 Demo.partialTxn 5 7 103 [("db.c", NumberLong 3)]].

(** UUID 7 is [db.c]; UUID 8 is not in the catalog. *)
Definition uuids : CollectionCatalog := {[7%Z := "db.c"]}.

End CatalogDemo.

(** * Lemmas and theorems *)

(** ** Properties of the store *)

Lemma evolves_refl o : evolves o o.
Proof. by left. Qed.

Lemma evolves_trans o1 o2 o3 : evolves o1 o2 → evolves o2 o3 → evolves o1 o3.
Proof.
  intros [->| ->] [->| ->]; [by left|by right|by right|].
  right. by destruct o1.
Qed.

Lemma evolves_set o : evolves o (setForCapped true o).
Proof. by right. Qed.

Create HintDb store.
#[global] Hint Resolve evolves_refl evolves_set : store.

Section StoreFacts.
Context {T : Type}.
Implicit Types (st : St T) (p : OperationPtr).

Lemma Forall2_evolves_refl (v : list OplogEntry) : Forall2 evolves v v.
Proof. apply Forall2_same_length_lookup_2; [done|]. intros ??? -> [= ->]. apply evolves_refl. Qed.

Lemma Forall2_evolves_trans (v1 v2 v3 : list OplogEntry) :
  Forall2 evolves v1 v2 → Forall2 evolves v2 v3 → Forall2 evolves v1 v3.
Proof. apply Forall2_trans. intros ???. apply evolves_trans. Qed.

Lemma Forall2_evolves_alter (v : list OplogEntry) i :
  Forall2 evolves v (alter (setForCapped true) i v).
Proof.
  apply Forall2_alter_r; [apply Forall2_evolves_refl|].
  intros x y -> [= ->] _. apply evolves_set.
Qed.

Lemma ext_refl st : ext st st.
Proof. split_and!; eauto using Forall2_evolves_refl. Qed.

Lemma ext_trans st1 st2 st3 : ext st1 st2 → ext st2 st3 → ext st1 st3.
Proof.
  intros (A1 & B1 & C1) (A2 & B2 & C2). split_and!; [| |lia].
  - eauto using Forall2_evolves_trans.
  - intros g v Hg. destruct (B1 _ _ Hg) as (v' & Hg' & F1).
    destruct (B2 _ _ Hg') as (v'' & Hg'' & F2).
    eauto using Forall2_evolves_trans.
Qed.

Lemma ext_deref st st' p o :
  ext st st' → deref st p = Some o →
  ∃ o', deref st' p = Some o' ∧ evolves o o'.
Proof.
  intros (A & B & _). destruct p as [[|g] i]; unfold deref; simpl.
  - intros Hi. destruct (Forall2_lookup_l _ _ _ _ _ A Hi) as (o' & ? & ?). eauto.
  - destruct (st_derivedOps st !! g) as [v|] eqn:Hg; [|done]. simpl. intros Hi.
    destruct (B _ _ Hg) as (v' & -> & F). simpl.
    destruct (Forall2_lookup_l _ _ _ _ _ F Hi) as (o' & ? & ?). eauto.
Qed.

Lemma deref_input st i : deref st (InputOps, i) = st_ops st !! i.
Proof. done. Qed.

Lemma deref_derived st g j :
  deref st (DerivedOps g, j) = st_derivedOps st !! g ≫= (.!! j).
Proof. done. Qed.

Lemma deref_update f p q st :
  deref (update f p st) q =
    if decide (p = q) then f <$> deref st q else deref st q.
Proof.
  destruct (decide (p = q)) as [<-|Hne].
  - destruct p as [[|g] i]; unfold update, deref; cbn [fst snd vecAt st_ops st_derivedOps].
    + simpl. by rewrite list_lookup_alter_eq.
    + rewrite list_lookup_alter_eq.
      destruct (st_derivedOps st !! g) as [v|]; simpl; [|done].
      by rewrite list_lookup_alter_eq.
  - destruct p as [[|g] i], q as [[|g'] i']; unfold update, deref;
      cbn [fst snd vecAt st_ops st_derivedOps]; simpl; try done.
    + rewrite list_lookup_alter_ne; [done|congruence].
    + destruct (decide (g = g')) as [->|].
      * rewrite list_lookup_alter_eq.
        destruct (st_derivedOps st !! g') as [v|]; simpl; [|done].
        rewrite list_lookup_alter_ne; [done|congruence].
      * by rewrite list_lookup_alter_ne.
Qed.

Lemma ext_update p st : ext st (update (setForCapped true) p st).
Proof.
  destruct p as [[|g] i]; unfold update; simpl; split_and!; simpl;
    eauto using Forall2_evolves_refl, Forall2_evolves_alter.
  intros g' v Hg. destruct (decide (g = g')) as [->|].
  - rewrite list_lookup_alter_eq, Hg. simpl. eauto using Forall2_evolves_alter.
  - rewrite list_lookup_alter_ne by done. eauto using Forall2_evolves_refl.
Qed.

Lemma deref_emplace_back v st p o :
  deref st p = Some o → deref (emplace_back v st) p = Some o.
Proof.
  destruct p as [[|g] i]; [done|]. rewrite !deref_derived. simpl.
  destruct (st_derivedOps st !! g) as [w|] eqn:Hg; [|done].
  by rewrite (lookup_app_l_Some _ _ _ _ Hg).
Qed.

Lemma ext_emplace_back v st : ext st (emplace_back v st).
Proof.
  split_and!; simpl; eauto using Forall2_evolves_refl.
  intros g w Hg. rewrite (lookup_app_l_Some _ _ _ _ Hg). eauto using Forall2_evolves_refl.
Qed.

Lemma deref_back_emplace v st j :
  deref (emplace_back v st) (DerivedOps (back (emplace_back v st)), j) = v !! j.
Proof.
  rewrite deref_derived. unfold back. simpl. rewrite length_app. simpl.
  replace (pred (length (st_derivedOps st) + 1)) with (length (st_derivedOps st) + 0) by lia.
  by rewrite lookup_app_r, Nat.add_0_r, Nat.sub_diag by lia.
Qed.

Lemma ext_fields st st' :
  st_ops st' = st_ops st → st_derivedOps st' = st_derivedOps st →
  length (st_writerVectors st') = length (st_writerVectors st) → ext st st'.
Proof.
  intros H1 H2 H3. split_and!; rewrite ?H1, ?H2; eauto using Forall2_evolves_refl.
Qed.

End StoreFacts.

#[global] Hint Resolve ext_refl ext_update ext_emplace_back : store.

(** ** Routing *)

Section Routing.
Context {T : Type} (E : Externals T).
Implicit Types (st : St T) (p : OperationPtr) (op : OplogEntry).

Lemma evolves_routeHash o o' : evolves o o' → routeHash E o' = routeHash E o.
Proof. intros [Ho|Ho]; by rewrite Ho. Qed.

Lemma evolves_workerOf W o o' : evolves o o' → workerOf E W o' = workerOf E W o.
Proof. unfold workerOf. intros Hev. by rewrite (evolves_routeHash _ _ Hev). Qed.

Lemma evolves_marked o o' : evolves o o' → marked E o → marked E o'.
Proof. intros [Ho|Ho]; rewrite Ho; [done|]. by intros _ _ _. Qed.

Lemma bucket_lt W hash : uint32 (Z.of_nat W) ≠ 0%Z → bucket W hash < W.
Proof.
  unfold bucket, uint32. intros Hne.
  assert (0 ≤ Z.of_nat W mod 2 ^ 32 < 2 ^ 32)%Z by (apply Z.mod_pos_bound; lia).
  assert (Z.of_nat W mod 2 ^ 32 ≤ Z.of_nat W)%Z by (apply Z.mod_le; lia).
  assert (0 ≤ hash mod (Z.of_nat W mod 2 ^ 32) < Z.of_nat W mod 2 ^ 32)%Z
    by (apply Z.mod_pos_bound; lia).
  lia.
Qed.

Lemma addToWriterVector_Some p hash wv wv' :
  addToWriterVector p hash wv = Some wv' ↔
  uint32 (Z.of_nat (length wv)) ≠ 0%Z
  ∧ wv' = alter (λ w, w ++ [p]) (bucket (length wv) hash) wv.
Proof.
  unfold addToWriterVector, bucket.
  destruct (decide _) as [Hz|Hz]; split; [done|by intros [? _]|by intros [= <-]|by intros [_ ->]].
Qed.

Lemma set_cache_id st : set_cache (st_cache st) st = st.
Proof. by destruct st. Qed.

Lemma deref_set_cache c st p : deref (set_cache c st) p = deref st p.
Proof. done. Qed.

Lemma deref_set_writerVectors wv st p : deref (set_writerVectors wv st) p = deref st p.
Proof. done. Qed.

Lemma deref_set_partialTxnOps m st p : deref (set_partialTxnOps m st) p = deref st p.
Proof. done. Qed.

Lemma deref_set_tracker t st p : deref (set_tracker t st) p = deref st p.
Proof. done. Qed.

(** What a call of [processCrudOp] does: one cache fill, at most one
    write of the flag; with a coherent cache the hash is [routeHash]. *)
Lemma processCrudOp_inv p hash ns st hash' st' :
  processCrudOp E p hash ns st = Some (hash', st') →
  ∃ op c (b : bool),
    deref st p = Some op
    ∧ st' = (if b then update (setForCapped true) p (set_cache c st) else set_cache c st)
    ∧ (cache_ok E st →
         cache_ok E (set_cache c st)
         ∧ (ns = getNss op →
              b = bool_decide (getOpType op = kInsert)
                  && isCapped (getCollectionPropertiesImpl E ns))
         ∧ (ns = getNss op → isCrudOpType op = true →
              hash = uint32 (hashed_key E ns) → hash' = routeHash E op)).
Proof.
  unfold processCrudOp, getCollectionProperties. intros H.
  destruct (st_cache st !! ns) as [props|] eqn:Hc.
  - destruct (deref st p) as [op|] eqn:Hp; [|done]. simpl in H.
    exists op, (st_cache st), (bool_decide (getOpType op = kInsert) && isCapped props).
    rewrite set_cache_id. split; [done|]. split.
    + destruct (bool_decide _ && _); by inversion H.
    + intros Hok. rewrite (Hok _ _ Hc) in *. split_and!; [done|done|].
      intros -> Hcrud ->. unfold routeHash. rewrite Hcrud. simpl.
      destruct (bool_decide _ && _); by inversion H.
  - rewrite deref_set_cache in H.
    destruct (deref st p) as [op|] eqn:Hp; [|done]. simpl in H.
    set (props := getCollectionPropertiesImpl E ns) in *.
    exists op, (<[ns:=props]> (st_cache st)),
      (bool_decide (getOpType op = kInsert) && isCapped props).
    split; [done|]. split.
    + destruct (bool_decide _ && _); by inversion H.
    + intros Hok. split_and!; [|done|].
      * intros ns' props'. simpl. rewrite lookup_insert.
        destruct (decide (ns = ns')) as [<-|]; [|intros Hl; exact (Hok _ _ Hl)].
        intros Heq. injection Heq as Heq. by rewrite <- Heq.
      * intros -> Hcrud ->. unfold routeHash. rewrite Hcrud. simpl. fold props.
        destruct (bool_decide _ && _); by inversion H.
Qed.

Lemma routed_ok_ext st st' :
  routed_ok E st → ext st st' → st_writerVectors st' = st_writerVectors st →
  routed_ok E st'.
Proof.
  intros Hr Hext Hwv k w p. rewrite Hwv. intros Hk Hp.
  destruct (Hr _ _ _ Hk Hp) as (op & Hd & -> & Hm).
  destruct (ext_deref _ _ _ _ Hext Hd) as (op' & Hd' & Hev).
  exists op'. split_and!; [done| |by eapply evolves_marked].
  by rewrite (evolves_workerOf _ _ _ Hev).
Qed.

Lemma routed_ok_route st st' p op' :
  routed_ok E st → ext st st' →
  st_writerVectors st' =
    alter (λ w, w ++ [p]) (workerOf E (length (st_writerVectors st)) op') (st_writerVectors st) →
  deref st' p = Some op' → marked E op' →
  routed_ok E st'.
Proof.
  intros Hr Hext Hwv Hp' Hm k w q. rewrite Hwv, length_alter, list_lookup_alter.
  case_decide as Hk.
  - subst k. destruct (st_writerVectors st !! _) as [w0|] eqn:Hw0; [|done].
    intros [= <-] [Hq| ->%list_elem_of_singleton]%elem_of_app; [|by eauto].
    destruct (Hr _ _ _ Hw0 Hq) as (op & Hd & Hk & Hmo).
    destruct (ext_deref _ _ _ _ Hext Hd) as (o' & Hd' & Hev).
    exists o'. split_and!; [done| |by eapply evolves_marked].
    by rewrite (evolves_workerOf _ _ _ Hev).
  - intros Hw Hq. destruct (Hr _ _ _ Hw Hq) as (op & Hd & Hk' & Hmo).
    destruct (ext_deref _ _ _ _ Hext Hd) as (o' & Hd' & Hev).
    exists o'. split_and!; [done| |by eapply evolves_marked].
    by rewrite (evolves_workerOf _ _ _ Hev).
Qed.

Lemma silent_refl st : silent E st st.
Proof. split_and!; eauto using ext_refl. Qed.

Lemma silent_trans st1 st2 st3 : silent E st1 st2 → silent E st2 st3 → silent E st1 st3.
Proof.
  intros (A1 & B1 & C1 & D1) (A2 & B2 & C2 & D2).
  split_and!; eauto using ext_trans. intros k. by rewrite B2, B1.
Qed.

Lemma silent_fields st st' :
  st_ops st' = st_ops st → st_derivedOps st' = st_derivedOps st →
  st_writerVectors st' = st_writerVectors st → st_cache st' = st_cache st →
  silent E st st'.
Proof.
  intros H1 H2 H3 H4.
  assert (ext st st') by (apply ext_fields; congruence).
  split_and!; [done|by rewrite H3| |by eauto using routed_ok_ext].
  unfold cache_ok. by rewrite H4.
Qed.

Lemma inputIdxs_alter_derived g j k k' (wv : list (list OperationPtr)) :
  inputIdxs <$> alter (λ w, w ++ [(DerivedOps g, j)]) k wv !! k' = inputIdxs <$> wv !! k'.
Proof.
  rewrite list_lookup_alter. case_decide; [subst|done].
  destruct (wv !! k') as [w|]; [|done]. simpl. f_equal.
  unfold inputIdxs. rewrite omap_app. simpl. by rewrite app_nil_r.
Qed.

(** What [processCrudOp] leaves in place. *)
Lemma processCrudOp_silent p hash ns st hash' st' :
  processCrudOp E p hash ns st = Some (hash', st') →
  silent E st st'
  ∧ st_writerVectors st' = st_writerVectors st
  ∧ st_partialTxnOps st' = st_partialTxnOps st
  ∧ st_tracker st' = st_tracker st
  ∧ length (st_derivedOps st') = length (st_derivedOps st).
Proof.
  intros (op & c & b & Hp & -> & Hc)%processCrudOp_inv.
  assert (ext st (if b then update (setForCapped true) p (set_cache c st)
                  else set_cache c st)) as Hext.
  { destruct b; [|by apply ext_fields].
    eapply ext_trans; [|apply ext_update]. by apply ext_fields. }
  assert (st_writerVectors (if b then update (setForCapped true) p (set_cache c st)
                  else set_cache c st) = st_writerVectors st) as Hwv.
  { destruct b; [|done]. by destruct p as [[|g] i]. }
  split_and!; [split_and!| | | |]; try done.
  - by rewrite Hwv.
  - intros Hok. destruct (Hc Hok) as (Hok' & _). destruct b; [|done].
    by destruct p as [[|g] i].
  - eauto using routed_ok_ext.
  - destruct b; [|done]. by destruct p as [[|g] i].
  - destruct b; [|done]. by destruct p as [[|g] i].
  - destruct b; [|done]. destruct p as [[|g] i]; simpl; by rewrite ?length_alter.
Qed.

(** The hashing phase shared by the loop body and [addDerivedOps]:
    the namespace hash, refined by [processCrudOp] for CRUD entries. *)
Lemma hash_phase p op st hash st1 :
  deref st p = Some op →
  (if isCrudOpType op
   then processCrudOp E p (uint32 (hashed_key E (getNss op))) (getNss op) st
   else Some (uint32 (hashed_key E (getNss op)), st)) = Some (hash, st1) →
  silent E st st1
  ∧ st_writerVectors st1 = st_writerVectors st
  ∧ st_partialTxnOps st1 = st_partialTxnOps st
  ∧ st_tracker st1 = st_tracker st
  ∧ length (st_derivedOps st1) = length (st_derivedOps st)
  ∧ ∃ op1, deref st1 p = Some op1 ∧ evolves op op1
           ∧ (cache_ok E st → hash = routeHash E op1 ∧ marked E op1).
Proof.
  intros Hp. destruct (isCrudOpType op) eqn:Hcrud.
  - intros H. destruct (processCrudOp_silent _ _ _ _ _ _ H) as (? & ? & ? & ? & ?).
    split_and!; try done.
    apply processCrudOp_inv in H as (op0 & c & b & Hp0 & -> & Hc).
    assert (op0 = op) as -> by congruence.
    exists (if b then setForCapped true op else op). split_and!.
    + destruct b; [|by rewrite deref_set_cache].
      by rewrite deref_update, decide_True, deref_set_cache, Hp.
    + destruct b; eauto with store.
    + intros Hok. destruct (Hc Hok) as (_ & Hb & Hh).
      specialize (Hb eq_refl). specialize (Hh eq_refl Hcrud eq_refl). split.
      * rewrite Hh. symmetry. apply evolves_routeHash. destruct b; eauto with store.
      * intros Hi Hcap. destruct b; [done|]. simpl in *.
        rewrite Hcap, bool_decide_eq_true_2 in Hb; done.
  - intros [= <- <-]. split_and!; eauto using silent_refl.
    exists op. split_and!; eauto with store. intros _. split.
    + unfold routeHash. by rewrite Hcrud.
    + intros Hi. unfold isCrudOpType in Hcrud. by rewrite Hi in Hcrud.
Qed.

(** Appending a pointer to the vector its entry hashes to. *)
Lemma route_phase p op1 hash st1 wv :
  deref st1 p = Some op1 →
  addToWriterVector p hash (st_writerVectors st1) = Some wv →
  ext st1 (set_writerVectors wv st1)
  ∧ uint32 (Z.of_nat (length (st_writerVectors st1))) ≠ 0%Z
  ∧ wv = alter (λ w, w ++ [p]) (bucket (length (st_writerVectors st1)) hash)
           (st_writerVectors st1)
  ∧ (hash = routeHash E op1 → marked E op1 → routed_ok E st1 →
     routed_ok E (set_writerVectors wv st1)).
Proof.
  intros Hp (Hne & ->)%addToWriterVector_Some.
  assert (ext st1 (set_writerVectors
            (alter (λ w, w ++ [p]) (bucket (length (st_writerVectors st1)) hash)
               (st_writerVectors st1)) st1)) as Hext.
  { apply ext_fields; simpl; by rewrite ?length_alter. }
  split_and!; try done.
  intros -> Hm Hr. eapply routed_ok_route; eauto.
Qed.

Lemma hash_phase_frame p op st hash st1 :
  (if isCrudOpType op
   then processCrudOp E p (uint32 (hashed_key E (getNss op))) (getNss op) st
   else Some (uint32 (hashed_key E (getNss op)), st)) = Some (hash, st1) →
  match p.1 with
  | InputOps => st_derivedOps st1 = st_derivedOps st
  | DerivedOps g =>
      st_ops st1 = st_ops st
      ∧ ∀ g', g' ≠ g → st_derivedOps st1 !! g' = st_derivedOps st !! g'
  end.
Proof.
  destruct (isCrudOpType op).
  - intros (op0 & c & b & Hp0 & -> & Hc)%processCrudOp_inv.
    destruct p as [[|g] i], b; simpl; try done.
    split; [done|]. intros g' Hg. by rewrite list_lookup_alter_ne.
  - intros [= <- <-]. by destruct p as [[|g] i].
Qed.

(** ** [addDerivedOps] *)

Lemma derivedStep_refl g st : derivedStep E g st st.
Proof. split_and!; eauto using silent_refl. Qed.

Lemma derivedStep_trans g st1 st2 st3 :
  derivedStep E g st1 st2 → derivedStep E g st2 st3 → derivedStep E g st1 st3.
Proof.
  intros (A1 & B1 & C1 & D1 & E1 & F1) (A2 & B2 & C2 & D2 & E2 & F2).
  split_and!; eauto using silent_trans; try congruence.
  intros g' Hg. by rewrite F2, F1.
Qed.

Lemma addDerivedOp_spec g st j st' :
  addDerivedOp E g st j = Some st' →
  ∃ op, deref st (DerivedOps g, j) = Some op
        ∧ derivedStep E g st st'
        ∧ (cache_ok E st →
           st_writerVectors st' =
             alter (λ w, w ++ [(DerivedOps g, j)])
               (workerOf E (length (st_writerVectors st)) op) (st_writerVectors st)).
Proof.
  unfold addDerivedOp. intros H.
  destruct (deref st (DerivedOps g, j)) as [op|] eqn:Hp; [|done]. simpl in H.
  exists op. split; [done|].
  match type of H with (?m ≫= _) = _ => destruct m as [[hash st1]|] eqn:Hh; [|done] end.
  simpl in H.
  destruct (addToWriterVector _ _ _) as [wv|] eqn:Hr; [|done]. simpl in H.
  injection H as <-.
  pose proof (hash_phase_frame _ _ _ _ _ Hh) as [Hops Hoth].
  destruct (hash_phase _ _ _ _ _ Hp Hh)
    as ((Hext & Hidx & Hck & Hrk) & Hwv & Hpt & Htr & Hlen & op1 & Hp1 & Hev & Hc).
  destruct (route_phase _ _ _ _ _ Hp1 Hr) as (Hext2 & Hne & Hwv2 & Hr2).
  split.
  - split_and!; try done.
    split_and!.
    + eauto using ext_trans.
    + intros k. simpl. rewrite Hwv2, inputIdxs_alter_derived. apply Hidx.
    + done.
    + intros Hok Hro. destruct (Hc Hok) as [-> Hm]. eauto.
  - intros Hok. destruct (Hc Hok) as [-> Hm]. simpl. rewrite Hwv2, Hwv.
    unfold workerOf. by rewrite (evolves_routeHash _ _ Hev).
Qed.

Lemma addDerivedOps_loop W g v idxs : ∀ st st',
  forEach (addDerivedOp E g) st idxs = Some st' →
  length (st_writerVectors st) = W →
  (∀ j o, v !! j = Some o →
     ∃ o', deref st (DerivedOps g, j) = Some o' ∧ evolves o o') →
  Forall (λ j, is_Some (v !! j)) idxs →
  derivedStep E g st st'
  ∧ (cache_ok E st →
     st_writerVectors st' = routeDerived E W g v (st_writerVectors st) idxs).
Proof.
  induction idxs as [|j idxs IH]; intros st st' H HW Hv Hin.
  - injection H as <-. split; [apply derivedStep_refl|done].
  - simpl in H. destruct (addDerivedOp E g st j) as [st1|] eqn:H1; [|done]. simpl in H.
    apply Forall_cons in Hin as [[o Ho] Hin].
    destruct (addDerivedOp_spec _ _ _ _ H1) as (op & Hp & Hstep & Hwv).
    destruct (Hv _ _ Ho) as (o' & Hp' & Hev). assert (o' = op) as -> by congruence.
    pose proof Hstep as ((Hext & _ & Hck & _) & _).
    destruct (IH _ _ H) as (Hstep' & Hwv'); [destruct Hext as (_ & _ & ?); lia| |done|].
    { intros j' o1 Ho1. destruct (Hv _ _ Ho1) as (o1' & Hd & Hev1).
      destruct (ext_deref _ _ _ _ Hext Hd) as (o1'' & ? & ?).
      eauto using evolves_trans. }
    split; [eauto using derivedStep_trans|].
    intros Hok. rewrite (Hwv' (Hck Hok)), (Hwv Hok). simpl. rewrite Ho, HW.
    by rewrite (evolves_workerOf _ _ _ Hev).
Qed.

Lemma addDerivedOps_spec g st st' :
  addDerivedOps E g st = Some st' →
  ∃ v, st_derivedOps st !! g = Some v
       ∧ derivedStep E g st st'
       ∧ (cache_ok E st →
          st_writerVectors st' =
            routeDerived E (length (st_writerVectors st)) g v (st_writerVectors st)
              (seq 0 (length v))).
Proof.
  unfold addDerivedOps. intros H.
  destruct (st_derivedOps st !! g) as [v|] eqn:Hg; [|done]. simpl in H.
  exists v. split; [done|].
  eapply addDerivedOps_loop; eauto.
  - intros j o Hj. exists o. rewrite deref_derived, Hg. eauto with store.
  - apply Forall_forall. intros j Hj%elem_of_seq. apply lookup_lt_is_Some. lia.
Qed.

Lemma silent_emplace_back v st : silent E st (emplace_back v st).
Proof.
  split_and!; [apply ext_emplace_back|done|done|].
  intros _ Hr. eapply routed_ok_ext; eauto using ext_emplace_back.
Qed.

Lemma emplaceAndAdd_spec v st st' :
  emplaceAndAdd E v st = Some st' →
  silent E st st'
  ∧ st_ops st' = st_ops st
  ∧ st_partialTxnOps st' = st_partialTxnOps st
  ∧ st_tracker st' = st_tracker st
  ∧ (∃ v', st_derivedOps st' = st_derivedOps st ++ [v'] ∧ Forall2 evolves v v')
  ∧ (cache_ok E st →
     st_writerVectors st' =
       routeDerived E (length (st_writerVectors st)) (length (st_derivedOps st)) v
         (st_writerVectors st) (seq 0 (length v))).
Proof.
  unfold emplaceAndAdd. intros H.
  assert (back (emplace_back v st) = length (st_derivedOps st)) as Hb.
  { unfold back. simpl. rewrite length_app. simpl. lia. }
  rewrite Hb in H.
  destruct (addDerivedOps_spec _ _ _ H) as (v0 & Hv0 & (Hs & Ho & Hpt & Htr & Hl & Hoth) & Hwv).
  simpl in Hv0. rewrite lookup_app_r, Nat.sub_diag in Hv0 by lia. injection Hv0 as <-.
  split_and!; try done.
  - eapply silent_trans; [apply silent_emplace_back|done].
  - destruct Hs as ((_ & Hg & _) & _).
    destruct (Hg (length (st_derivedOps st)) v) as (v' & Hv' & Hev).
    { simpl. by rewrite lookup_app_r, Nat.sub_diag by lia. }
    exists v'. split; [|done].
    apply list_eq. intros g'. simpl in *.
    destruct (decide (g' = length (st_derivedOps st))) as [->|Hne].
    + by rewrite Hv', lookup_app_r, Nat.sub_diag by lia.
    + rewrite (Hoth _ Hne).
      destruct (decide (g' < length (st_derivedOps st))).
      * by rewrite !lookup_app_l by lia.
      * rewrite !lookup_ge_None_2; [done| |]; rewrite length_app; simpl; lia.
Qed.

Lemma deref_grow st st1 more p o :
  st_ops st1 = st_ops st → st_derivedOps st1 = st_derivedOps st ++ more →
  deref st p = Some o → deref st1 p = Some o.
Proof.
  intros Ho Hd. destruct p as [[|g] i]; unfold deref; simpl; rewrite ?Ho; [done|].
  rewrite Hd. destruct (st_derivedOps st !! g) as [w|] eqn:Hg; [|done].
  by rewrite (lookup_app_l_Some _ _ _ _ Hg).
Qed.

Lemma trackSession_spec op st st1 :
  trackSession E op st = Some st1 →
  silent E st st1
  ∧ st_ops st1 = st_ops st
  ∧ st_partialTxnOps st1 = st_partialTxnOps st
  ∧ ∃ more, st_derivedOps st1 = st_derivedOps st ++ more.
Proof.
  unfold trackSession. destruct (st_tracker st) as [tr|].
  - destruct (updateSession E tr op) as [[ws|] tr'].
    + intros (Hs & Ho & Hp & _ & (v' & Hd & _) & _)%emplaceAndAdd_spec.
      split_and!; [|done|done|by eexists].
      eapply silent_trans; [|done]. by apply silent_fields.
    + intros [= <-]. split_and!; [by apply silent_fields|done|done|].
      exists []. by rewrite app_nil_r.
  - intros [= <-]. split_and!; [apply silent_refl|done|done|].
    exists []. by rewrite app_nil_r.
Qed.

Lemma materialize_spec op sid st st' :
  materialize E op sid st = Some st' →
  ∃ cached,
    mapM (deref st) (partialTxnList sid st) = Some cached
    ∧ silent E st st'
    ∧ st_ops st' = st_ops st
    ∧ st_partialTxnOps st' = <[sid := []]> (st_partialTxnOps st)
    ∧ st_tracker st' = st_tracker st
    ∧ (∃ v', st_derivedOps st' = st_derivedOps st ++ [v']
             ∧ Forall2 evolves (readTransactionOperationsFromOplogChain E op cached) v')
    ∧ (cache_ok E st →
       st_writerVectors st' =
         routeDerived E (length (st_writerVectors st)) (length (st_derivedOps st))
           (readTransactionOperationsFromOplogChain E op cached)
           (st_writerVectors st)
           (seq 0 (length (readTransactionOperationsFromOplogChain E op cached)))).
Proof.
  unfold materialize. intros H.
  destruct (mapM _ _) as [cached|]; [|done]. simpl in H. exists cached.
  change (emplaceAndAdd E (readTransactionOperationsFromOplogChain E op cached)
            (set_partialTxnOps (<[sid := []]> (st_partialTxnOps st)) st) = Some st') in H.
  apply emplaceAndAdd_spec in H as (Hs & Ho & Hp & Ht & Hd & Hwv).
  split_and!; try done.
Qed.

End Routing.

(** ** The loop body and the passes *)

Section PassFacts.
Context {T : Type} (E : Externals T) (opts : Options).
Implicit Types (st : St T) (p : OperationPtr) (op : OplogEntry).

Lemma evolves_isRouted o o' : evolves o o' → isRouted opts o' = isRouted opts o.
Proof. intros [Ho|Ho]; by rewrite Ho. Qed.

Lemma evolves_routedTo W k o o' : evolves o o' → routedTo E opts W k o' = routedTo E opts W k o.
Proof.
  intros Hev. unfold routedTo.
  by rewrite (evolves_isRouted _ _ Hev), (evolves_workerOf _ _ _ _ Hev).
Qed.

Lemma silent_iteration loc i op st st' :
  silent E st st' → isRouted opts op = false → iteration E opts loc i op st st'.
Proof.
  intros (Hext & Hidx & Hc & Hr) Hnr. split_and!; try done.
  intros _ k. rewrite Hidx. unfold added, routedTo. rewrite Hnr. simpl.
  destruct loc; destruct (st_writerVectors st !! k); simpl; by rewrite ?app_nil_r.
Qed.

Lemma abort_phase op st st2 :
  (if bool_decide (getCommandType op = kAbortTransaction)
   then sid ← getSessionId op;
        Some (set_partialTxnOps (<[sid := []]> (st_partialTxnOps st)) st)
   else Some st) = Some st2 →
  st_ops st2 = st_ops st ∧ st_derivedOps st2 = st_derivedOps st
  ∧ st_writerVectors st2 = st_writerVectors st ∧ st_cache st2 = st_cache st
  ∧ st_tracker st2 = st_tracker st.
Proof.
  case_bool_decide; [|by intros [= <-]].
  destruct (getSessionId op); [|done]. by intros [= <-].
Qed.

Lemma deriveOp_spec loc st i st' :
  deriveOp E opts loc st i = Some st' →
  ∃ op, deref st (loc, i) = Some op ∧ iteration E opts loc i op st st'.
Proof.
  unfold deriveOp. intros H.
  destruct (deref st (loc, i)) as [op|] eqn:Hp; [|done]. simpl in H.
  exists op. split; [done|].
  destruct (OpTime_le _ _) eqn:Hfloor.
  { injection H as <-. apply silent_iteration; [apply silent_refl|].
    unfold isRouted. by rewrite Hfloor. }
  destruct (trackSession E op st) as [st1|] eqn:Htr; [|done]. simpl in H.
  destruct (trackSession_spec _ _ _ _ Htr) as (Hs1 & Ho1 & Hpt1 & more & Hd1).
  pose proof (deref_grow _ _ _ _ _ Ho1 Hd1 Hp) as Hp1.
  destruct (isPartialTransaction op || _) eqn:Hpart.
  { destruct (getSessionId op) as [sid|]; [|done]. simpl in H.
    match type of H with (?m ≫= _) = _ => destruct m as [[|]|]; try done end.
    simpl in H. injection H as <-.
    apply silent_iteration.
    - eapply silent_trans; [done|]. by apply silent_fields.
    - unfold isRouted. rewrite Hpart. simpl. by rewrite andb_false_r. }
  match type of H with (?m ≫= _) = _ => destruct m as [st2|] eqn:Hab; [|done] end.
  simpl in H. apply abort_phase in Hab as (Ho2 & Hd2 & Hwv2 & Hc2 & Ht2).
  assert (silent E st1 st2) as Hs2 by by apply silent_fields.
  assert (deref st2 (loc, i) = Some op) as Hp2.
  { eapply (deref_grow st1 st2 []); rewrite ?app_nil_r; eauto. }
  match type of H with (?m ≫= _) = _ => destruct m as [[hash st3]|] eqn:Hh; [|done] end.
  simpl in H.
  destruct (hash_phase _ _ _ _ _ _ Hp2 Hh)
    as (Hs3 & Hwv3 & Hpt3 & Ht3 & Hl3 & op1 & Hp3 & Hev & Hc3).
  rewrite Hp3 in H. simpl in H.
  assert (silent E st st3) as Hs by eauto using silent_trans.
  assert (isTerminalApplyOps op1 = isTerminalApplyOps op
          ∧ isPreparedCommit op1 = isPreparedCommit op) as [Ht Hpc].
  { destruct Hev as [->| ->]; done. }
  rewrite Ht, Hpc in H.
  destruct (isTerminalApplyOps op) eqn:Hterm.
  { apply silent_iteration; [|unfold isRouted; by rewrite Hterm, andb_false_r].
    eapply silent_trans; [done|].
    destruct (getSessionId op1) as [sid|], (getTxnNumber op1) as [tn|];
      try (destruct (getPrevWriteOpTimeInTransaction op1); [done|];
           by apply emplaceAndAdd_spec in H as (? & _)).
    by apply materialize_spec in H as (? & _ & ? & _). }
  destruct (isPreparedCommit op && _) eqn:Hprep.
  { apply silent_iteration; [|unfold isRouted; by rewrite Hprep, andb_false_r].
    eapply silent_trans; [done|].
    destruct (getSessionId op1) as [sid|]; [|done]. simpl in H.
    by apply materialize_spec in H as (? & _ & ? & _). }
  destruct (addToWriterVector _ _ _) as [wv|] eqn:Hr; [|done]. simpl in H.
  injection H as <-.
  destruct (route_phase E _ _ _ _ _ Hp3 Hr) as (Hext4 & Hne & -> & Hr4).
  destruct Hs as (Hext & Hidx & Hck & Hrk).
  assert (length (st_writerVectors st3) = length (st_writerVectors st)) as HW
    by by destruct Hext as (_ & _ & ?).
  assert (cache_ok E st → hash = routeHash E op1 ∧ marked E op1) as Hc.
  { intros Hok. apply Hc3. destruct Hs2 as (_ & _ & Hck2 & _).
    destruct Hs1 as (_ & _ & Hck1 & _). eauto. }
  split_and!.
  - eauto using ext_trans.
  - done.
  - intros Hok Hro. destruct (Hc Hok) as [Hh' Hm]. eauto.
  - intros Hok k. destruct (Hc Hok) as [-> Hm]. simpl.
    rewrite list_lookup_alter, HW. specialize (Hidx k).
    assert (isRouted opts op = true) as Hrt.
    { unfold isRouted. by rewrite Hfloor, Hpart, Hterm, Hprep. }
    fold (workerOf E (length (st_writerVectors st)) op1).
    rewrite (evolves_workerOf _ _ _ _ Hev).
    unfold added, routedTo. rewrite Hrt. simpl.
    destruct (decide (workerOf E (length (st_writerVectors st)) op = k)) as [<-|Hk].
    + rewrite bool_decide_eq_true_2 by done.
      destruct (st_writerVectors st3 !! _) as [w3|], (st_writerVectors st !! _) as [w|];
        simpl in *; try done.
      injection Hidx as Hidx. f_equal. unfold inputIdxs in *.
      rewrite omap_app, Hidx. by destruct loc.
    + rewrite bool_decide_eq_false_2 by done.
      destruct (st_writerVectors st3 !! _) as [w3|], (st_writerVectors st !! _) as [w|];
        simpl in *; try done.
      injection Hidx as Hidx. f_equal. rewrite Hidx. by destruct loc; rewrite app_nil_r.
Qed.

Lemma pass_loop loc W v idxs : ∀ st st',
  forEach (deriveOp E opts loc) st idxs = Some st' →
  cache_ok E st →
  length (st_writerVectors st) = W →
  (∀ i o, v !! i = Some o → ∃ o', deref st (loc, i) = Some o' ∧ evolves o o') →
  Forall (λ i, is_Some (v !! i)) idxs →
  ext st st'
  ∧ cache_ok E st'
  ∧ (routed_ok E st → routed_ok E st')
  ∧ ∀ k, inputIdxs <$> st_writerVectors st' !! k =
         (λ l, l ++ addedBy E opts loc W k v idxs) <$> (inputIdxs <$> st_writerVectors st !! k).
Proof.
  induction idxs as [|i idxs IH]; intros st st' H Hok HW Hv Hin.
  - injection H as <-. split_and!; eauto using ext_refl.
    intros k. destruct (st_writerVectors st !! k); simpl; [|done].
    by destruct loc; simpl; rewrite app_nil_r.
  - simpl in H. destruct (deriveOp E opts loc st i) as [st1|] eqn:H1; [|done]. simpl in H.
    apply Forall_cons in Hin as [[o Ho] Hin].
    destruct (deriveOp_spec _ _ _ _ H1) as (op & Hp & Hext & Hck & Hrk & Hidx).
    destruct (Hv _ _ Ho) as (o' & Hp' & Hev). assert (o' = op) as -> by congruence.
    assert (length (st_writerVectors st1) = W) as HW1
      by (destruct Hext as (_ & _ & ?); lia).
    destruct (IH _ _ H (Hck Hok) HW1) as (Hext' & Hck' & Hrk' & Hidx'); [|done|].
    { intros j o1 Ho1. destruct (Hv _ _ Ho1) as (o1' & Hd & Hev1).
      destruct (ext_deref _ _ _ _ Hext Hd) as (o1'' & ? & ?).
      eauto using evolves_trans. }
    split_and!; eauto using ext_trans.
    intros k. rewrite Hidx', (Hidx Hok), HW.
    destruct (st_writerVectors st !! k) as [w|]; simpl; [|done]. f_equal.
    rewrite <- app_assoc. f_equal.
    destruct loc; simpl; [|done].
    unfold routedIdxs. rewrite filter_cons, Ho. simpl.
    rewrite (evolves_routedTo _ _ _ _ Hev).
    destruct (routedTo E opts W k o); by case_decide.
Qed.

Lemma _deriveOpsAndFillWriterVectors_spec loc tracker st st' :
  _deriveOpsAndFillWriterVectors E opts loc tracker st = Some st' →
  ∃ v, vecAt st loc = Some v
    ∧ ext st st'
    ∧ (routed_ok E st → routed_ok E st')
    ∧ ∀ k, inputIdxs <$> st_writerVectors st' !! k =
           (λ l, l ++ addedBy E opts loc (length (st_writerVectors st)) k v (seq 0 (length v)))
             <$> (inputIdxs <$> st_writerVectors st !! k).
Proof.
  unfold _deriveOpsAndFillWriterVectors. intros H.
  match type of H with (?m ≫= _) = _ => destruct m as [v|] eqn:Hv; [|done] end.
  simpl in H. change (vecAt st loc = Some v) in Hv. exists v. split; [done|].
  eapply (pass_loop loc _ v) in H as (Hext & _ & Hr & Hidx); [|done|done| |].
  - split_and!; done.
  - intros i o Hi. exists o. split; [|apply evolves_refl].
    unfold deref. simpl. change (vecAt st loc ≫= (.!! i) = Some o). by rewrite Hv.
  - apply Forall_forall. intros j Hj%elem_of_seq. apply lookup_lt_is_Some. lia.
Qed.

Lemma fillWriterVectors_spec ops wv ds st' :
  fillWriterVectors E opts ops wv ds = Some st' →
  ext (mkSt ops ds wv ∅ ∅ None) st'
  ∧ (routed_ok E (mkSt ops ds wv ∅ ∅ None) → routed_ok E st')
  ∧ ∀ k, inputIdxs <$> st_writerVectors st' !! k =
         (λ l, l ++ routedIdxs E opts (length wv) k ops (seq 0 (length ops)))
           <$> (inputIdxs <$> wv !! k).
Proof.
  unfold fillWriterVectors. intros H.
  match type of H with (?m ≫= _) = _ => destruct m as [st1|] eqn:H1; [|done] end.
  simpl in H.
  apply _deriveOpsAndFillWriterVectors_spec in H1 as (v & Hv & Hext1 & Hr1 & Hidx1).
  simpl in Hv. injection Hv as <-. simpl in Hidx1.
  destruct (st_tracker st1) as [tr|]; [|done]. simpl in H.
  destruct (flushAll E tr) as [|w ws]; [by injection H as <-|].
  apply _deriveOpsAndFillWriterVectors_spec in H as (v & Hv & Hext2 & Hr2 & Hidx2).
  assert (ext st1 st') as Hext by (eapply ext_trans; [apply ext_emplace_back|done]).
  split_and!.
  - exact (ext_trans _ _ _ Hext1 Hext).
  - intros Hr. apply Hr2. eapply routed_ok_ext; [exact (Hr1 Hr)|apply ext_emplace_back|done].
  - intros k. rewrite Hidx2. simpl. rewrite Hidx1.
    destruct (wv !! k); simpl; [|done]. by rewrite app_nil_r.
Qed.

Lemma fillWriterVectors_fresh ops W ds st' :
  fillWriterVectors E opts ops (replicate W []) ds = Some st' →
  Forall2 evolves ops (st_ops st')
  ∧ routed_ok E st'
  ∧ length (st_writerVectors st') = W
  ∧ ∀ k w, st_writerVectors st' !! k = Some w →
           inputIdxs w = routedIdxs E opts W k ops (seq 0 (length ops)).
Proof.
  intros (Hext & Hr & Hidx)%fillWriterVectors_spec.
  pose proof Hext as (Hops & _ & Hlen). simpl in Hops, Hlen.
  rewrite length_replicate in *.
  split_and!; [done| |done|].
  - apply Hr. intros k w p [-> _]%lookup_replicate. by intros ?%elem_of_nil.
  - intros k w Hw. specialize (Hidx k). rewrite Hw in Hidx. simpl in Hidx.
    assert (k < W) as Hk by (apply lookup_lt_Some in Hw; lia).
    rewrite lookup_replicate_2 in Hidx by done. simpl in Hidx. by injection Hidx.
Qed.

End PassFacts.

(** ** Where the pointers into the input batch end up *)

Lemma elem_of_inputIdxs w i : i ∈ inputIdxs w ↔ (InputOps, i) ∈ w.
Proof.
unfold inputIdxs. rewrite list_elem_of_omap. split.
- intros ([[|g] j] & Hin & Heq); simpl in Heq; [|done]. by injection Heq as ->.
- intros Hin. by exists (InputOps, i).
Qed.

Lemma StronglySorted_filter_seq (P : nat → Prop) `{!∀ i, Decision (P i)} n : ∀ s,
StronglySorted lt (filter P (seq s n)).
Proof.
induction n as [|n IH]; intros s; simpl; [constructor|].
rewrite filter_cons. case_decide; [|apply IH].
apply StronglySorted_cons. split; [|apply IH].
apply Forall_forall. intros j [_ Hj%elem_of_seq]%list_elem_of_filter. lia.
Qed.

Lemma before_of_sorted w i j :
StronglySorted lt (inputIdxs w) → i < j →
(InputOps, i) ∈ w → (InputOps, j) ∈ w → before w (InputOps, i) (InputOps, j).
Proof.
intros Hs Hij Hi Hj.
apply list_elem_of_split in Hj as (w1 & w2 & ->).
apply elem_of_app in Hi as [Hi|Hi].
- apply list_elem_of_split in Hi as (l1 & l2 & ->).
  exists l1, l2, w2. by rewrite <- app_assoc.
- exfalso. apply elem_of_cons in Hi as [Hi|Hi]; [injection Hi; lia|].
  unfold inputIdxs in Hs. rewrite omap_app in Hs. simpl in Hs.
  apply StronglySorted_app_1_r, StronglySorted_cons in Hs as [Hall _].
  rewrite Forall_forall in Hall.
  assert (j < i); [|lia]. apply Hall. by apply elem_of_inputIdxs.
Qed.

Section BatchPointers.
Context {T : Type} (E : Externals T) (opts : Options).

(** After [fillWriterVectors] on fresh writer vectors, writer [k] holds a
    pointer to position [i] of the batch exactly when that entry is routed
    to [k]. *)
Lemma input_pointer_iff ops W ds st' i op k w :
fillWriterVectors E opts ops (replicate W []) ds = Some st' →
ops !! i = Some op →
st_writerVectors st' !! k = Some w →
(InputOps, i) ∈ w ↔ routedTo E opts W k op = true.
Proof.
intros (_ & _ & _ & Hidx)%fillWriterVectors_fresh Hi Hw.
rewrite <- elem_of_inputIdxs, (Hidx _ _ Hw). unfold routedIdxs.
rewrite list_elem_of_filter, Hi, elem_of_seq. simpl.
apply lookup_lt_Some in Hi. intuition lia.
Qed.

Lemma input_pointers_sorted ops W ds st' k w :
fillWriterVectors E opts ops (replicate W []) ds = Some st' →
st_writerVectors st' !! k = Some w →
StronglySorted lt (inputIdxs w).
Proof.
intros (_ & _ & _ & Hidx)%fillWriterVectors_fresh Hw.
rewrite (Hidx _ _ Hw). apply StronglySorted_filter_seq.
Qed.

Lemma sameDocument_routeHash a b : sameDocument E a b → routeHash E a = routeHash E b.
Proof.
intros (Ha & Hb & Hns & Hid). unfold routeHash. rewrite Ha, Hb, <- Hns. simpl.
destruct Hid as [->|[->| ->]]; simpl; [done|by rewrite andb_false_r|done].
Qed.

End BatchPointers.

Section FloorFacts.
Context {T : Type} (E : Externals T) (opts : Options).

Lemma deriveOp_floor loc (st : St T) i op :
deref st (loc, i) = Some op →
OpTime_le (getOpTime op) (beginApplyingOpTime opts) = true →
deriveOp E opts loc st i = Some st.
Proof. unfold deriveOp. intros -> Hle. simpl. by rewrite Hle. Qed.

Lemma floor_skip loc v idxs : ∀ st : St T,
(∀ i o, v !! i = Some o → ∃ o', deref st (loc, i) = Some o' ∧ evolves o o') →
Forall (λ i, is_Some (v !! i)) idxs →
forEach (deriveOp E opts loc) st idxs
= forEach (deriveOp E opts loc) st (filter (aboveFloor opts v) idxs).
Proof.
induction idxs as [|i idxs IH]; intros st Hv Hin; [done|].
apply Forall_cons in Hin as [[o Ho] Hin].
destruct (Hv _ _ Ho) as (o' & Hp & Hev).
assert (getOpTime o' = getOpTime o) as Ht by (by destruct Hev as [->| ->]).
rewrite filter_cons.
destruct (decide (aboveFloor opts v i)) as [Hab|Hab];
  unfold aboveFloor in Hab; rewrite Ho in Hab; simpl in Hab.
- simpl. destruct (deriveOp E opts loc st i) as [st1|] eqn:H1; [|done]. simpl.
  apply IH; [|done].
  destruct (deriveOp_spec _ _ _ _ _ _ H1) as (? & _ & Hext & _).
  intros j o1 Ho1. destruct (Hv _ _ Ho1) as (o1' & Hd & Hev1).
  destruct (ext_deref _ _ _ _ Hext Hd) as (o1'' & ? & ?).
  eauto using evolves_trans.
- apply not_false_iff_true in Hab. simpl.
  rewrite (deriveOp_floor _ _ _ _ Hp) by (by rewrite Ht). simpl. by apply IH.
Qed.

End FloorFacts.

(** ** The partitioning claims *)

Section PartitionClaims.
Context {T : Type} (E : Externals T) (opts : Options).

(** C10 (frame property of partitioning).  When [fillWriterVectors]
    returns, the input vector has the entries it had, position by position:
    each is unchanged or differs only in [isForCappedCollection], which was
    set to true; in particular no entry was removed and no other field
    (opTime, namespace, payload, session fields, op type) was touched. *)
Theorem fillWriterVectors_frame ops wv ds st' :
fillWriterVectors E opts ops wv ds = Some st' →
Forall2 (λ op op', op' = op ∨ op' = setForCapped true op) ops (st_ops st').
Proof.
intros (Hext & _)%fillWriterVectors_spec. by destruct Hext as (Hops & _).
Qed.

(** C8 (capped-insert marking).  Every pointer that [fillWriterVectors]
    leaves in writer vector [k] points to an entry such that, when the
    entry's collection is capped: an insert carries
    [isForCappedCollection = true], and a CRUD entry sits in the vector
    chosen by the namespace hash alone (the [_id] was not mixed in). *)
Theorem capped_insert_marking ops W ds st' k w p :
fillWriterVectors E opts ops (replicate W []) ds = Some st' →
st_writerVectors st' !! k = Some w → p ∈ w →
∃ op, deref st' p = Some op
      ∧ (isCapped (getCollectionPropertiesImpl E (getNss op)) = true →
         (getOpType op = kInsert → isForCappedCollection op = true)
         ∧ (isCrudOpType op = true →
            k = bucket W (uint32 (hashed_key E (getNss op))))).
Proof.
intros (_ & Hr & HW & _)%fillWriterVectors_fresh Hw Hp.
destruct (Hr _ _ _ Hw Hp) as (op & Hd & Hk & Hm).
exists op. split; [done|]. intros Hcap. split; [by auto|].
intros Hcrud. rewrite Hk, HW. unfold workerOf, routeHash.
by rewrite Hcap, Hcrud, andb_false_r.
Qed.

(** C1 (same-document serialization), amended: the earlier entry must
    itself have been routed.  For two CRUD entries of a batch with the same
    namespace and the same [_id] (or the same namespace on a capped
    collection or an engine without document locking), the earlier at [i],
    the later at [j]: if [i] is in some writer vector, then both are in one
    vector with [i] before [j], or [j] is in none. *)
Theorem same_document_serialization ops W ds st' i j a b :
fillWriterVectors E opts ops (replicate W []) ds = Some st' →
i < j → ops !! i = Some a → ops !! j = Some b → sameDocument E a b →
present (st_writerVectors st') (InputOps, i) →
sameVectorBefore (st_writerVectors st') (InputOps, i) (InputOps, j)
∨ absent (st_writerVectors st') (InputOps, j).
Proof.
intros Hfill Hij Ha Hb Hsame (k & w & Hw & Hin).
pose proof (proj1 (input_pointer_iff _ _ _ _ _ _ _ _ _ _ Hfill Ha Hw) Hin) as Hra.
unfold routedTo in Hra. apply andb_prop in Hra as [_ Hka%bool_decide_eq_true_1].
destruct (isRouted opts b) eqn:Hrb.
- left. exists k, w. split; [done|].
  apply before_of_sorted; [by eapply input_pointers_sorted|done|done|].
  apply (input_pointer_iff _ _ _ _ _ _ _ _ _ _ Hfill Hb Hw).
  unfold routedTo. rewrite Hrb. simpl. apply bool_decide_eq_true_2.
  unfold workerOf in *. by rewrite <- (sameDocument_routeHash _ _ _ Hsame).
- right. intros k' w' Hw' Hin'.
  apply (input_pointer_iff _ _ _ _ _ _ _ _ _ _ Hfill Hb Hw') in Hin'.
  unfold routedTo in Hin'. by rewrite Hrb in Hin'.
Qed.

End PartitionClaims.

(** ** Transactions: materialization and abort *)

Section TransactionFacts.
Context {T : Type} (E : Externals T) (opts : Options).
Implicit Types (st : St T) (op : OplogEntry).

Lemma routeDerived_lookup W g v idxs : ∀ wv k,
routeDerived E W g v wv idxs !! k =
(λ w, w ++ (pair (DerivedOps g) <$> derivedIdxs E W k v idxs)) <$> wv !! k.
Proof.
induction idxs as [|j idxs IH]; intros wv k; simpl.
- destruct (wv !! k); simpl; [|done]. by rewrite app_nil_r.
- unfold routeDerived in *. rewrite IH. unfold derivedIdxs. rewrite filter_cons.
  destruct (v !! j) as [o|] eqn:Hj; simpl.
  + rewrite list_lookup_alter.
    destruct (decide (workerOf E W o = k)) as [->|Hne].
    * rewrite bool_decide_eq_true_2 by done. case_decide; [|done].
      destruct (wv !! k); simpl; [|done]. by rewrite <- app_assoc.
    * rewrite bool_decide_eq_false_2 by done.
      by destruct (decide (false = true)).
  + by destruct (decide (false = true)).
Qed.


Lemma valid_loc_fresh st st1 more loc i op :
st_derivedOps st1 = st_derivedOps st ++ more →
deref st (loc, i) = Some op → loc ≠ DerivedOps (length (st_derivedOps st1)).
Proof.
intros Hd Hp ->. rewrite deref_derived in Hp.
destruct (st_derivedOps st !! _) eqn:Hg; [|done].
apply lookup_lt_Some in Hg. rewrite Hd, length_app in Hg. lia.
Qed.

End TransactionFacts.

Section TransactionClaims.
Context {T : Type} (E : Externals T) (opts : Options).
Implicit Types (st : St T) (op : OplogEntry).

(** C4 (abort), amended.  On an [abortTransaction] entry of session [sid]
    the loop body empties the buffer of [sid] and adds nothing to the pool;
    the entry itself is appended to the writer vector of its namespace
    hash.  After [fillWriterVectors], no partial-transaction entry of the
    batch is in any writer vector, while the abort entry is in exactly the
    vector of its namespace hash. *)
Theorem abort_discards_partial_ops :
(∀ loc st i op sid st1 st',
   deref st (loc, i) = Some op → isAbortEntry opts op sid →
   trackSession E op st = Some st1 →
   deriveOp E opts loc st i = Some st' →
   partialTxnList sid st' = []
   ∧ st_ops st' = st_ops st ∧ st_derivedOps st' = st_derivedOps st1
   ∧ st_writerVectors st' =
       alter (λ w, w ++ [(loc, i)])
         (bucket (length (st_writerVectors st)) (uint32 (hashed_key E (getNss op))))
         (st_writerVectors st1))
∧ (∀ ops W ds st',
     fillWriterVectors E opts ops (replicate W []) ds = Some st' →
     (∀ i p, ops !! i = Some p → isPartialTransaction p = true →
        absent (st_writerVectors st') (InputOps, i))
     ∧ (∀ j op sid k w, ops !! j = Some op → isAbortEntry opts op sid →
          st_writerVectors st' !! k = Some w →
          (InputOps, j) ∈ w ↔ k = bucket W (uint32 (hashed_key E (getNss op))))).
Proof.
split.
- intros loc st i op sid st1 st' Hp
    (Hfloor & Htype & Hcmd & Hsid & Hpart & Hprep & Hterm & Hpc) Htr H.
  destruct (trackSession_spec _ _ _ _ Htr) as (Hs1 & Ho1 & Hpt1 & more & Hd1).
  pose proof (deref_grow _ _ _ _ _ Ho1 Hd1 Hp) as Hp1.
  assert (length (st_writerVectors st1) = length (st_writerVectors st)) as HW
    by (by destruct Hs1 as ((_ & _ & ?) & _)).
  assert (isCrudOpType op = false) as Hcrud by (unfold isCrudOpType; by rewrite Htype).
  unfold deriveOp in H. rewrite Hp in H. simpl in H.
  rewrite Hfloor, Htr in H. simpl in H. rewrite Hpart, Hprep in H. simpl in H.
  rewrite Hcmd, Hsid, Hcrud in H. simpl in H.
  change (deref (set_partialTxnOps (<[sid:=[]]> (st_partialTxnOps st1)) st1) (loc, i))
    with (deref st1 (loc, i)) in H.
  rewrite Hp1 in H. simpl in H. rewrite Hterm, Hpc in H.
  destruct (addToWriterVector _ _ _) as [wv|] eqn:Hr; [|done]. simpl in H.
  injection H as <-. apply addToWriterVector_Some in Hr as [_ ->]. simpl.
  split_and!; [|done|done|by rewrite HW].
  unfold partialTxnList. simpl. by rewrite lookup_insert_eq.
- intros ops W ds st' Hfill. split.
  + intros i p Hi Hpart k w Hw Hin.
    apply (input_pointer_iff E opts _ _ _ _ _ _ _ _ Hfill Hi Hw) in Hin.
    unfold routedTo, isRouted in Hin. rewrite Hpart in Hin. simpl in Hin.
    by rewrite andb_false_r in Hin.
  + intros j op sid k w Hj (Hfloor & Htype & Hcmd & Hsid & Hpart & Hprep & Hterm & Hpc) Hw.
    rewrite (input_pointer_iff E opts _ _ _ _ _ _ _ _ Hfill Hj Hw).
    unfold routedTo, isRouted. rewrite Hfloor, Hpart, Hprep, Hterm, Hpc. simpl.
    rewrite bool_decide_eq_true. unfold workerOf, routeHash, isCrudOpType.
    rewrite Htype. simpl. split; congruence.
Qed.

End TransactionClaims.

(** ** Buffering of partial transactions *)

Section Buffering.
Context {T : Type} (E : Externals T) (opts : Options).
Implicit Types (st : St T) (op : OplogEntry).

Lemma deriveOp_partial loc st i op sid st' :
deref st (loc, i) = Some op →
OpTime_le (getOpTime op) (beginApplyingOpTime opts) = false →
isBuffered opts op = true → getSessionId op = Some sid →
deriveOp E opts loc st i = Some st' →
∃ st1, trackSession E op st = Some st1
       ∧ st' = set_partialTxnOps
                 (<[sid := partialTxnList sid st1 ++ [(loc, i)]]> (st_partialTxnOps st1)) st1.
Proof.
unfold deriveOp, isBuffered. intros -> Hfloor Hbuf Hsid. simpl.
rewrite Hfloor. destruct (trackSession E op st) as [st1|]; simpl; [|done].
rewrite Hbuf, Hsid. simpl.
match goal with |- (?m ≫= _) = _ → _ => destruct m as [[|]|]; simpl; try done end.
intros [= <-]. by exists st1.
Qed.

(** A run of buffered entries of one session, at the positions
    [i, i+1, ..., i+k-1], is appended to the buffer of that session, in
    order. *)
Lemma partial_ops_buffered loc sid k : ∀ i st st',
forEach (deriveOp E opts loc) st (seq i k) = Some st' →
(∀ j, i ≤ j < i + k →
   ∃ op, deref st (loc, j) = Some op
         ∧ OpTime_le (getOpTime op) (beginApplyingOpTime opts) = false
         ∧ isBuffered opts op = true ∧ getSessionId op = Some sid) →
partialTxnList sid st' = partialTxnList sid st ++ (pair loc <$> seq i k).
Proof.
induction k as [|k IH]; intros i st st' H Hall; simpl in *.
- injection H as <-. by rewrite app_nil_r.
- destruct (deriveOp E opts loc st i) as [st1|] eqn:H1; [|done]. simpl in H.
  destruct (Hall i) as (op & Hp & Hfloor & Hbuf & Hsid); [lia|].
  destruct (deriveOp_partial _ _ _ _ _ _ Hp Hfloor Hbuf Hsid H1) as (st0 & Htr & ->).
  destruct (trackSession_spec _ _ _ _ Htr) as (_ & Ho & Hpt & more & Hd).
  rewrite (IH (S i) _ _ H).
  + unfold partialTxnList at 1. simpl. rewrite lookup_insert_eq. simpl.
    unfold partialTxnList. rewrite Hpt. by rewrite <- app_assoc.
  + intros j Hj. destruct (Hall j) as (op' & Hp' & ?); [lia|].
    exists op'. split; [|done].
    change (deref st0 (loc, j) = Some op'). by eapply deref_grow.
Qed.

End Buffering.

(** ** The pass returns on well-formed batches *)

Section Totality.
Context {T : Type} (E : Externals T) (opts : Options).
Implicit Types (st : St T) (op : OplogEntry).

Lemma writers_ok_ext st st' : ext st st' → writers_ok st → writers_ok st'.
Proof. intros (_ & _ & Hl). unfold writers_ok. by rewrite Hl. Qed.

Lemma scanned_ext loc v st st' : ext st st' → scanned loc v st → scanned loc v st'.
Proof.
intros Hext Hsc j a Hj. destruct (Hsc _ _ Hj) as (a' & Hd & Hev).
destruct (ext_deref _ _ _ _ Hext Hd) as (a'' & ? & ?). eauto using evolves_trans.
Qed.

Lemma hash_phase_total p op st :
deref st p = Some op →
is_Some (if isCrudOpType op
         then processCrudOp E p (uint32 (hashed_key E (getNss op))) (getNss op) st
         else Some (uint32 (hashed_key E (getNss op)), st)).
Proof.
intros Hp. destruct (isCrudOpType op); [|by eexists].
unfold processCrudOp, getCollectionProperties.
destruct (st_cache st !! getNss op); rewrite ?deref_set_cache, Hp; simpl;
  destruct (_ && isCapped _); by eexists.
Qed.

Lemma addDerivedOp_total g st j :
writers_ok st → is_Some (deref st (DerivedOps g, j)) →
is_Some (addDerivedOp E g st j).
Proof.
intros HW [op Hp]. unfold addDerivedOp. rewrite Hp. simpl.
destruct (hash_phase_total _ _ _ Hp) as [[hash st1] Hh]. rewrite Hh. simpl.
destruct (hash_phase _ _ _ _ _ _ Hp Hh) as (_ & Hwv & _).
unfold addToWriterVector. rewrite Hwv, decide_False by done. by eexists.
Qed.

Lemma addDerivedOps_loop_total g idxs : ∀ st,
writers_ok st →
Forall (λ j, is_Some (deref st (DerivedOps g, j))) idxs →
is_Some (forEach (addDerivedOp E g) st idxs).
Proof.
induction idxs as [|j idxs IH]; intros st HW Hall; simpl; [by eexists|].
apply Forall_cons in Hall as [Hj Hall].
destruct (addDerivedOp_total _ _ _ HW Hj) as [st1 H1]. rewrite H1. simpl.
destruct (addDerivedOp_spec _ _ _ _ _ H1) as (_ & _ & ((Hext & _) & _) & _).
apply IH; [by eapply writers_ok_ext|].
eapply Forall_impl; [exact Hall|]. intros j' [o Ho].
destruct (ext_deref _ _ _ _ Hext Ho) as (o' & ? & _). by eexists.
Qed.

Lemma emplaceAndAdd_total v st : writers_ok st → is_Some (emplaceAndAdd E v st).
Proof.
intros HW. unfold emplaceAndAdd, addDerivedOps.
assert (back (emplace_back v st) = length (st_derivedOps st)) as ->.
{ unfold back. simpl. rewrite length_app. simpl. lia. }
simpl. rewrite lookup_app_r, Nat.sub_diag by lia. simpl.
apply addDerivedOps_loop_total; [done|].
apply Forall_forall. intros j Hj%elem_of_seq.
rewrite deref_derived. simpl. rewrite lookup_app_r, Nat.sub_diag by lia. simpl.
apply lookup_lt_is_Some. lia.
Qed.

Lemma trackSession_total op st : writers_ok st → is_Some (trackSession E op st).
Proof.
intros HW. unfold trackSession. destruct (st_tracker st); [|by eexists].
destruct (updateSession E t op) as [[ws|] tr]; [|by eexists].
by apply emplaceAndAdd_total.
Qed.

Lemma materialize_total op sid st :
writers_ok st →
(∀ q, q ∈ partialTxnList sid st → is_Some (deref st q)) →
is_Some (materialize E op sid st).
Proof.
intros HW Hbuf. unfold materialize.
destruct (mapM (deref st) (partialTxnList sid st)) as [cached|] eqn:Hm.
- simpl. by apply (emplaceAndAdd_total _ (set_partialTxnOps _ st)).
- apply mapM_None in Hm. apply Exists_exists in Hm as (q & Hq & Hnone).
  destruct (Hbuf _ Hq) as [? ?]. congruence.
Qed.

Lemma buffer_ok_deref loc v st sid q :
scanned loc v st → buffer_ok opts loc v st →
q ∈ partialTxnList sid st → is_Some (deref st q).
Proof.
intros Hsc Hb. unfold partialTxnList.
destruct (st_partialTxnOps st !! sid) as [l|] eqn:Hl; simpl; [|by intros ?%elem_of_nil].
intros Hq. destruct (Hb _ _ _ Hl Hq) as (j & a & -> & Hj & _).
destruct (Hsc _ _ Hj) as (a' & ? & _). by eexists.
Qed.

Lemma buffer_ok_insert loc v st st' sid l :
buffer_ok opts loc v st →
st_partialTxnOps st' = <[sid := l]> (st_partialTxnOps st) →
(∀ q, q ∈ l → ∃ j a, q = (loc, j) ∧ v !! j = Some a
                     ∧ isBuffered opts a = true ∧ getSessionId a = Some sid) →
buffer_ok opts loc v st'.
Proof.
intros Hb Heq Hl sid' l' q. rewrite Heq, lookup_insert.
case_decide as Hs; [|by apply Hb]. subst sid'. intros [= <-]. apply Hl.
Qed.

Lemma deriveOp_tracker loc st i st' :
is_Some (st_tracker st) → deriveOp E opts loc st i = Some st' →
is_Some (st_tracker st').
Proof.
intros Hs. unfold deriveOp.
destruct (deref st (loc, i)) as [op|] eqn:Hp; simpl; [|done].
destruct (OpTime_le _ _); [by intros [= <-]|].
destruct (trackSession E op st) as [st1|] eqn:Htr; simpl; [|done].
assert (is_Some (st_tracker st1)) as Hs1.
{ revert Htr. unfold trackSession. destruct Hs as [tr ->].
  destruct (updateSession E tr op) as [[ws|] tr']; [|by intros [= <-]].
  intros (_ & _ & _ & -> & _)%emplaceAndAdd_spec. by eexists. }
destruct (_ || _).
{ destruct (getSessionId op); simpl; [|done].
  match goal with |- (?m ≫= _) = _ → _ => destruct m as [[|]|]; simpl; try done end.
  by intros [= <-]. }
match goal with |- (?m ≫= _) = _ → _ => destruct m as [st2|] eqn:Hab; simpl; [|done] end.
apply abort_phase in Hab as (_ & _ & _ & _ & Ht2).
match goal with |- (?m ≫= _) = _ → _ =>
  destruct m as [[hash st3]|] eqn:Hh; simpl; [|done] end.
assert (st_tracker st3 = st_tracker st1) as Ht3.
{ rewrite <- Ht2. revert Hh. destruct (isCrudOpType op); [|by intros [= _ <-]].
  by intros (_ & _ & _ & ? & _)%processCrudOp_silent. }
destruct (deref st3 (loc, i)) as [op1|]; simpl; [|done].
destruct (isTerminalApplyOps op1).
{ destruct (getSessionId op1), (getTxnNumber op1);
    try (destruct (getPrevWriteOpTimeInTransaction op1); [done|];
         intros (_ & _ & _ & -> & _)%emplaceAndAdd_spec; by rewrite Ht3).
  intros (_ & _ & _ & _ & _ & -> & _)%materialize_spec. by rewrite Ht3. }
destruct (_ && _).
{ destruct (getSessionId op1); simpl; [|done].
  intros (_ & _ & _ & _ & _ & -> & _)%materialize_spec. by rewrite Ht3. }
destruct (addToWriterVector _ _ _); simpl; [|done].
intros [= <-]. simpl. by rewrite Ht3.
Qed.

Lemma pass_tracker loc idxs : ∀ st st',
is_Some (st_tracker st) → forEach (deriveOp E opts loc) st idxs = Some st' →
is_Some (st_tracker st').
Proof.
induction idxs as [|i idxs IH]; intros st st' Hs; simpl; [by intros [= <-]|].
destruct (deriveOp E opts loc st i) as [st1|] eqn:H1; [|done]. simpl.
apply IH. by eapply deriveOp_tracker.
Qed.

(** One iteration on a well-formed entry returns, and keeps what the next
    iteration relies on. *)
Lemma deriveOp_total loc v st i a :
wellFormed opts a → txnConsistent opts v → v !! i = Some a →
writers_ok st → scanned loc v st → buffer_ok opts loc v st →
∃ st', deriveOp E opts loc st i = Some st'
       ∧ writers_ok st' ∧ scanned loc v st' ∧ buffer_ok opts loc v st'.
Proof.
intros (Hwb & Hwa & Hwt & Hwp) Htxn Hi HW Hsc Hb.
destruct (Hsc _ _ Hi) as (op & Hp & Hev).
assert (isBuffered opts op = isBuffered opts a ∧ getSessionId op = getSessionId a
        ∧ getTxnNumber op = getTxnNumber a ∧ getCommandType op = getCommandType a)
  as (Hbo & Hso & Hto & Hco) by (by destruct Hev as [->| ->]).
unfold deriveOp. rewrite Hp. simpl.
destruct (OpTime_le _ _); [by eauto|].
destruct (trackSession_total op st HW) as [st1 Htr]. rewrite Htr. simpl.
destruct (trackSession_spec _ _ _ _ Htr) as ((Hext1 & _) & Ho1 & Hpt1 & more & Hd1).
pose proof (writers_ok_ext _ _ Hext1 HW) as HW1.
pose proof (scanned_ext _ _ _ _ Hext1 Hsc) as Hsc1.
assert (buffer_ok opts loc v st1) as Hb1 by (unfold buffer_ok; by rewrite Hpt1).
pose proof (deref_grow _ _ _ _ _ Ho1 Hd1 Hp) as Hp1.
fold (isBuffered opts op). destruct (isBuffered opts op) eqn:Hbuf.
{ destruct (Hwb ltac:(congruence)) as [sid Hsid]. rewrite Hso, Hsid. simpl.
  assert (match partialTxnList sid st1 with
          | [] => Some true
          | f :: _ => fop ← deref st1 f;
                      Some (bool_decide (getTxnNumber fop = getTxnNumber op))
          end = Some true) as ->.
  { destruct (partialTxnList sid st1) as [|f l] eqn:Hl; [done|].
    unfold partialTxnList in Hl.
    destruct (st_partialTxnOps st1 !! sid) as [l0|] eqn:Hl0; simpl in Hl; [|done].
    subst l0. destruct (Hb1 _ _ _ Hl0 ltac:(by left)) as (j & b & -> & Hj & Hbb & Hsb).
    destruct (Hsc1 _ _ Hj) as (b' & -> & Hevb). simpl.
    rewrite bool_decide_eq_true_2; [done|].
    assert (getTxnNumber b' = getTxnNumber b) as -> by (by destruct Hevb as [->| ->]).
    rewrite Hto. apply (Htxn j i); [done|done|done|congruence|congruence]. }
  simpl. eexists. split; [done|]. split_and!; [done|done|].
  eapply buffer_ok_insert; [exact Hb1|done|].
  intros q [Hq| ->%list_elem_of_singleton]%elem_of_app.
  - unfold partialTxnList in Hq.
    destruct (st_partialTxnOps st1 !! sid) as [l0|] eqn:Hl0; simpl in Hq;
      [by eapply Hb1|by apply elem_of_nil in Hq].
  - exists i, a. split_and!; congruence. }
assert (∃ st2, (if bool_decide (getCommandType op = kAbortTransaction)
                then sid ← getSessionId op;
                     Some (set_partialTxnOps (<[sid := []]> (st_partialTxnOps st1)) st1)
                else Some st1) = Some st2
               ∧ writers_ok st2 ∧ scanned loc v st2 ∧ buffer_ok opts loc v st2
               ∧ deref st2 (loc, i) = Some op) as (st2 & -> & HW2 & Hsc2 & Hb2 & Hp2).
{ destruct (bool_decide (getCommandType op = kAbortTransaction)) eqn:Hab;
    [|exists st1; by split_and!].
  apply bool_decide_eq_true_1 in Hab.
  destruct (Hwa ltac:(congruence)) as [sid Hsid]. rewrite Hso, Hsid. simpl.
  eexists. split; [done|]. split_and!; try done.
  eapply buffer_ok_insert; [exact Hb1|done|]. by intros q ?%elem_of_nil. }
simpl.
destruct (hash_phase_total _ _ _ Hp2) as [[hash st3] Hh]. rewrite Hh. simpl.
destruct (hash_phase _ _ _ _ _ _ Hp2 Hh)
  as ((Hext3 & _) & Hwv3 & Hpt3 & _ & _ & op1 & Hp3 & Hev3 & _).
pose proof (writers_ok_ext _ _ Hext3 HW2) as HW3.
pose proof (scanned_ext _ _ _ _ Hext3 Hsc2) as Hsc3.
assert (buffer_ok opts loc v st3) as Hb3 by (unfold buffer_ok; by rewrite Hpt3).
rewrite Hp3. simpl.
assert (evolves a op1) as Hev1 by eauto using evolves_trans.
assert (isTerminalApplyOps op1 = isTerminalApplyOps a
        ∧ isPreparedCommit op1 = isPreparedCommit a
        ∧ getSessionId op1 = getSessionId a ∧ getTxnNumber op1 = getTxnNumber a
        ∧ getPrevWriteOpTimeInTransaction op1 = getPrevWriteOpTimeInTransaction a)
  as (Ht1 & Hc1 & Hs1 & Hn1 & Hw1) by (by destruct Hev1 as [->| ->]).
assert (∀ sid, materialize E op1 sid st3 = None → False) as Hmat.
{ intros sid Hnone.
  destruct (materialize_total op1 sid st3 HW3) as [? ?]; [|congruence].
  intros q. by apply (buffer_ok_deref loc v). }
assert (∀ sid st', materialize E op1 sid st3 = Some st' →
          writers_ok st' ∧ scanned loc v st' ∧ buffer_ok opts loc v st') as Hmat'.
{ intros sid st' Hm.
  destruct (materialize_spec _ _ _ _ _ Hm) as (_ & _ & (Hext & _) & _ & Hpt & _).
  split_and!; [by eapply writers_ok_ext|by eapply scanned_ext|].
  eapply buffer_ok_insert; [exact Hb3|done|]. by intros q ?%elem_of_nil. }
assert (∀ ws st', emplaceAndAdd E ws st3 = Some st' →
          writers_ok st' ∧ scanned loc v st' ∧ buffer_ok opts loc v st') as Hemp'.
{ intros ws st' Hm.
  destruct (emplaceAndAdd_spec _ _ _ _ Hm) as ((Hext & _) & _ & Hpt & _).
  split_and!; [by eapply writers_ok_ext|by eapply scanned_ext|].
  unfold buffer_ok. by rewrite Hpt. }
destruct (isTerminalApplyOps op1) eqn:Hterm.
{ destruct (getSessionId op1) as [sid|] eqn:Hsid1, (getTxnNumber op1) as [tn|] eqn:Htn1.
  - destruct (materialize E op1 sid st3) as [st'|] eqn:Hm; [by eauto|].
    by destruct (Hmat _ Hm).
  - destruct (Hwt ltac:(congruence)) as [[_ [? ?]]|Hnone]; [congruence|].
    rewrite Hw1, Hnone.
    destruct (emplaceAndAdd_total (extractOperations E op1) st3 HW3) as [st' Hm].
    rewrite Hm. by eauto.
  - destruct (Hwt ltac:(congruence)) as [[[? ?] _]|Hnone]; [congruence|].
    rewrite Hw1, Hnone.
    destruct (emplaceAndAdd_total (extractOperations E op1) st3 HW3) as [st' Hm].
    rewrite Hm. by eauto.
  - destruct (Hwt ltac:(congruence)) as [[[? ?] _]|Hnone]; [congruence|].
    rewrite Hw1, Hnone.
    destruct (emplaceAndAdd_total (extractOperations E op1) st3 HW3) as [st' Hm].
    rewrite Hm. by eauto. }
destruct (isPreparedCommit op1 && _) eqn:Hprep.
{ destruct (Hwp ltac:(congruence)) as [sid Hsid]. rewrite Hs1, Hsid. simpl.
  destruct (materialize E op1 sid st3) as [st'|] eqn:Hm; [by eauto|].
  by destruct (Hmat _ Hm). }
unfold addToWriterVector. rewrite decide_False by done. simpl.
eexists. split; [done|]. split_and!.
- unfold writers_ok. simpl. by rewrite length_alter.
- eapply scanned_ext; [|exact Hsc3]. apply ext_fields; simpl; by rewrite ?length_alter.
- done.
Qed.

Lemma pass_total loc v idxs : ∀ st,
Forall (wellFormed opts) v → txnConsistent opts v →
Forall (λ i, is_Some (v !! i)) idxs →
writers_ok st → scanned loc v st → buffer_ok opts loc v st →
∃ st', forEach (deriveOp E opts loc) st idxs = Some st' ∧ writers_ok st'.
Proof.
induction idxs as [|i idxs IH]; intros st Hwf Htxn Hin HW Hsc Hb; simpl; [by eauto|].
apply Forall_cons in Hin as [[a Ha] Hin].
assert (wellFormed opts a) as Hwa.
{ rewrite Forall_forall in Hwf. apply Hwf. by eapply list_elem_of_lookup_2. }
destruct (deriveOp_total loc v st i a Hwa Htxn Ha HW Hsc Hb)
  as (st1 & -> & HW1 & Hsc1 & Hb1).
simpl. by apply IH.
Qed.

Lemma _deriveOpsAndFillWriterVectors_total loc tracker st v :
vecAt st loc = Some v →
Forall (wellFormed opts) v → txnConsistent opts v → writers_ok st →
∃ st', _deriveOpsAndFillWriterVectors E opts loc tracker st = Some st' ∧ writers_ok st'.
Proof.
intros Hv Hwf Htxn HW. unfold _deriveOpsAndFillWriterVectors.
change (vecAt (mkSt (st_ops st) (st_derivedOps st) (st_writerVectors st) ∅ ∅ tracker) loc)
  with (vecAt st loc).
rewrite Hv. simpl. apply (pass_total loc v); try done.
- apply Forall_forall. intros j Hj%elem_of_seq. apply lookup_lt_is_Some. lia.
- intros j a Hj. exists a. split; [|apply evolves_refl].
  change (vecAt st loc ≫= (.!! j) = Some a). by rewrite Hv.
Qed.

(** X14.  [fillWriterVectors] returns, tripping no invariant, on every
    batch whose entries have the session ids and chain fields their kind
    calls for and whose buffered entries of one session carry one
    transaction number, for a number of writers between 1 and 2^32 - 1,
    when what the session tracker flushes is of that sort too. *)
Theorem fillWriterVectors_total ops W ds :
(0 < Z.of_nat W < 2 ^ 32)%Z →
Forall (wellFormed opts) ops → txnConsistent opts ops →
(∀ tr, Forall (wellFormed opts) (flushAll E tr) ∧ txnConsistent opts (flushAll E tr)) →
is_Some (fillWriterVectors E opts ops (replicate W []) ds).
Proof.
intros HWr Hwf Htxn Hflush. unfold fillWriterVectors.
assert (uint32 (Z.of_nat W) ≠ 0%Z) as HW.
{ unfold uint32. rewrite Z.mod_small; lia. }
destruct (_deriveOpsAndFillWriterVectors_total InputOps
            (Some (newSessionUpdateTracker E)) (mkSt ops ds (replicate W []) ∅ ∅ None) ops)
  as (st1 & H1 & HW1); [done|done|done| |].
{ unfold writers_ok. simpl. by rewrite length_replicate. }
rewrite H1. simpl.
assert (is_Some (st_tracker st1)) as [tr Htr].
{ unfold _deriveOpsAndFillWriterVectors in H1. simpl in H1.
  eapply pass_tracker; [|exact H1]. by eexists. }
rewrite Htr. simpl. destruct (flushAll E tr) as [|w ws] eqn:Hfl; [by eexists|].
destruct (Hflush tr) as [Hwf2 Htxn2]. rewrite Hfl in Hwf2, Htxn2.
destruct (_deriveOpsAndFillWriterVectors_total
            (DerivedOps (back (emplace_back (w :: ws) st1))) None
            (emplace_back (w :: ws) st1) (w :: ws)) as (st2 & H2 & _);
  [|done|done|done|by eexists].
unfold back. simpl. rewrite length_app. simpl.
replace (pred (length (st_derivedOps st1) + 1)) with (length (st_derivedOps st1) + 0) by lia.
by rewrite lookup_app_r, Nat.add_0_r, Nat.sub_diag by lia.
Qed.

End Totality.

(** ** The claims on concrete batches *)

(** C10 on the capped batch: the run returns, and the input vector keeps
    its entries up to the capped flag. *)
Lemma fillWriterVectors_frame_witness :
∃ st', fillWriterVectors Demo.env Demo.options Demo.cappedBatch (Demo.fresh 4) [] = Some st'
       ∧ Forall2 (λ op op', op' = op ∨ op' = setForCapped true op)
           Demo.cappedBatch (st_ops st').
Proof.
eexists. split; [vm_compute; reflexivity|].
apply (fillWriterVectors_frame Demo.env Demo.options Demo.cappedBatch (Demo.fresh 4) []).
vm_compute; reflexivity.
Defined.

(** C8 on the capped batch: position 0, an insert into [db.log], is in
    writer vector 3 and is marked. *)
Lemma capped_insert_marking_witness :
∃ st' w, fillWriterVectors Demo.env Demo.options Demo.cappedBatch (replicate 4 []) [] = Some st'
  ∧ st_writerVectors st' !! 3 = Some w ∧ (InputOps, 0) ∈ w
  ∧ ∃ op, deref st' (InputOps, 0) = Some op
      ∧ (isCapped (getCollectionPropertiesImpl Demo.env (getNss op)) = true →
         (getOpType op = kInsert → isForCappedCollection op = true)
         ∧ (isCrudOpType op = true →
            3 = bucket 4 (uint32 (hashed_key Demo.env (getNss op))))).
Proof.
eexists _, _. split_and!; [vm_compute; reflexivity|vm_compute; reflexivity|compute_done|].
eapply (capped_insert_marking Demo.env Demo.options Demo.cappedBatch 4 [] _ 3 _ (InputOps, 0));
  [vm_compute; reflexivity|vm_compute; reflexivity|compute_done].
Defined.

(** C1 as stated fails on the floor batch: positions 0 and 2 are inserts of
    the same document; position 0 is at or below the floor and is dropped,
    position 2 is routed. *)
Lemma serialization_as_stated_fails :
¬ serialization_as_stated Demo.env Demo.options Demo.floorBatch 4.
Proof.
intros H.
assert (∃ st', fillWriterVectors Demo.env Demo.options Demo.floorBatch (replicate 4 []) []
               = Some st'
               ∧ st_writerVectors st' = [[(InputOps, 2); (InputOps, 3)]; []; []; []])
  as (st' & Hfill & Hwv) by (eexists; split; vm_compute; reflexivity).
destruct (H st' 0 2 (Demo.insert "db.c" 99 1) (Demo.insert "db.c" 101 1) Hfill) as [(k & w & Hw & (l1 & l2 & l3 & Heq))|Habs];
  [lia|reflexivity|reflexivity| | |].
- split_and!; [done|done|done|by left].
- assert ((InputOps, 0) ∈ w) as Hin.
  { rewrite Heq. apply elem_of_app. right. apply elem_of_cons. by left. }
  rewrite Hwv in Hw. destruct k as [|[|[|[|k]]]]; simpl in Hw; try done;
    injection Hw as Hw; revert Hin; rewrite <- Hw; compute_done.
- apply (Habs 0 [(InputOps, 2); (InputOps, 3)]); [by rewrite Hwv|compute_done].
Qed.

(** C1 (amended) on the floor batch: positions 2 and 3, both routed. *)
Lemma same_document_serialization_witness :
∃ st', fillWriterVectors Demo.env Demo.options Demo.floorBatch (replicate 4 []) [] = Some st'
  ∧ sameDocument Demo.env (Demo.insert "db.c" 101 1) (Demo.delete "db.c" 102 1)
  ∧ present (st_writerVectors st') (InputOps, 2)
  ∧ (sameVectorBefore (st_writerVectors st') (InputOps, 2) (InputOps, 3)
     ∨ absent (st_writerVectors st') (InputOps, 3)).
Proof.
assert (sameDocument Demo.env (Demo.insert "db.c" 101 1) (Demo.delete "db.c" 102 1)) as Hsame.
{ split_and!; [reflexivity|reflexivity|reflexivity|left; reflexivity]. }
eexists. split_and!; [vm_compute; reflexivity|exact Hsame| |].
- exists 0, [(InputOps, 2); (InputOps, 3)]. split; [reflexivity|compute_done].
- eapply (same_document_serialization Demo.env Demo.options Demo.floorBatch 4 [] _ 2 3);
    [vm_compute; reflexivity|lia|reflexivity|reflexivity|exact Hsame|].
  exists 0, [(InputOps, 2); (InputOps, 3)]. split; [reflexivity|compute_done].
Defined.

(** C4 as stated fails on the abort batch: the [abortTransaction] entry of
    session 5 (position 2) is itself in writer vector 0. *)
Lemma abort_routes_nothing_as_stated_fails :
¬ abort_routes_nothing_as_stated Demo.env Demo.options Demo.abortBatch 4.
Proof.
intros H.
assert (∃ st', fillWriterVectors Demo.env Demo.options Demo.abortBatch (replicate 4 []) []
               = Some st'
               ∧ st_writerVectors st' !! 0
                 = Some [(DerivedOps 0, 0); (InputOps, 2); (InputOps, 3)]
               ∧ deref st' (InputOps, 2) = Some (Demo.abortTransaction 5 7 103))
  as (st' & Hfill & Hwv & Hd) by (eexists; split_and!; vm_compute; reflexivity).
apply (H st' 5%Z 0 2 _ _ Hfill ltac:(lia) eq_refl eq_refl eq_refl eq_refl eq_refl eq_refl
         0 _ (InputOps, 2) _ Hwv ltac:(compute_done) Hd).
reflexivity.
Qed.

(** C4 (amended) on the abort batch: the partial entry at position 0 is in
    no writer vector. *)
Lemma abort_discards_partial_ops_witness :
∃ st', fillWriterVectors Demo.env Demo.options Demo.abortBatch (replicate 4 []) [] = Some st'
       ∧ absent (st_writerVectors st') (InputOps, 0)
       ∧ ∀ k w, st_writerVectors st' !! k = Some w →
           (InputOps, 2) ∈ w ↔ k = bucket 4 (uint32 (hashed_key Demo.env "admin.$cmd")).
Proof.
eexists. split; [vm_compute; reflexivity|].
pose proof (proj2 (abort_discards_partial_ops Demo.env Demo.options)
              Demo.abortBatch 4 [] _ ltac:(vm_compute; reflexivity)) as [Hpart Hab].
split.
- exact (Hpart 0 _ eq_refl eq_refl).
- intros k w Hw. apply (Hab 2 (Demo.abortTransaction 5 7 103) 5%Z k w eq_refl); [|exact Hw].
  by split_and!.
Defined.

(** ** The order of namespaces *)

Lemma NamespaceString_lt_iff a b : NamespaceString_lt a b = true ↔ String_as_OT.lt a b.
Proof.
unfold NamespaceString_lt, String_as_OT.lt.
destruct (String_as_OT.compare a b); split; congruence.
Qed.

Lemma NamespaceString_lt_irrefl a : NamespaceString_lt a a = false.
Proof.
apply not_true_iff_false. rewrite NamespaceString_lt_iff.
apply (StrictOrder_Irreflexive (R := String_as_OT.lt)).
Qed.

Lemma NamespaceString_lt_asym a b :
NamespaceString_lt a b = true → NamespaceString_lt b a = false.
Proof.
rewrite NamespaceString_lt_iff. intros Hab. apply not_true_iff_false.
rewrite NamespaceString_lt_iff. intros Hba.
apply (StrictOrder_Irreflexive (R := String_as_OT.lt) a).
by apply (StrictOrder_Transitive (R := String_as_OT.lt) a b a).
Qed.

Lemma NamespaceString_lt_trans a b c :
NamespaceString_lt a b = true → NamespaceString_lt b c = true →
NamespaceString_lt a c = true.
Proof.
rewrite !NamespaceString_lt_iff. apply (StrictOrder_Transitive (R := String_as_OT.lt)).
Qed.

Lemma NamespaceString_lt_total a b :
NamespaceString_lt a b = true ∨ a = b ∨ NamespaceString_lt b a = true.
Proof.
rewrite !NamespaceString_lt_iff.
destruct (String_as_OT.compare_spec a b); auto.
Qed.

Lemma NamespaceString_le_trans a b c :
NamespaceString_le a b → NamespaceString_le b c → NamespaceString_le a c.
Proof.
unfold NamespaceString_le. intros Hab Hbc. apply not_true_iff_false. intros Hca.
destruct (NamespaceString_lt_total a b) as [Hlt|[->|Hlt]]; [|congruence|congruence].
rewrite (NamespaceString_lt_trans _ _ _ Hca Hlt) in Hbc. done.
Qed.

Lemma NamespaceString_lt_le_trans a b c :
NamespaceString_lt a b = true → NamespaceString_le b c → NamespaceString_lt a c = true.
Proof.
unfold NamespaceString_le. intros Hab Hbc.
destruct (NamespaceString_lt_total b c) as [Hlt|[->|Hlt]]; [|done|congruence].
eauto using NamespaceString_lt_trans.
Qed.

(** ** The stable sort *)

Lemma filter_none {A : Type} (P : A → Prop) `{!∀ x, Decision (P x)} (l : list A) :
Forall (λ x, ¬ P x) l → filter P l = [].
Proof.
induction 1 as [|x l Hx _ IH]; [done|]. by rewrite filter_cons_False.
Qed.

Section StableSort.
Context {P : Type} (key : P → string).

Let comp (l r : P) : bool := NamespaceString_lt (key l) (key r).
Let le (a b : P) : Prop := NamespaceString_le (key a) (key b).

Lemma stable_insert_perm x l : stable_insert comp x l ≡ₚ x :: l.
Proof.
induction l as [|y l IH]; simpl; [done|].
destruct (comp x y); [done|]. rewrite IH. apply Permutation_swap.
Qed.

Lemma stable_insert_sorted x l :
StronglySorted le l → StronglySorted le (stable_insert comp x l).
Proof.
induction l as [|y l IH]; simpl; intros Hs.
- repeat constructor.
- apply StronglySorted_inv in Hs as [Hs Hy].
  destruct (comp x y) eqn:Hxy.
  + constructor; [by constructor|]. constructor.
    * by apply NamespaceString_lt_asym.
    * eapply Forall_impl; [exact Hy|]. intros z Hz. unfold le in *.
      eapply NamespaceString_le_trans; [|exact Hz]. by apply NamespaceString_lt_asym.
  + constructor; [by apply IH|].
    rewrite stable_insert_perm. by constructor.
Qed.

Lemma stable_insert_filter ns x l :
StronglySorted le l →
filter (λ p, key p = ns) (stable_insert comp x l)
= filter (λ p, key p = ns) l ++ filter (λ p, key p = ns) [x].
Proof.
induction l as [|y l IH]; simpl; intros Hs; [done|].
apply StronglySorted_inv in Hs as [Hs Hy].
destruct (comp x y) eqn:Hxy.
- rewrite (filter_cons _ x). destruct (decide (key x = ns)) as [Hx|Hx].
  + assert (filter (λ p, key p = ns) (y :: l) = []) as ->.
    2:{ simpl. rewrite (filter_cons _ x []). by destruct (decide (key x = ns)). }
    apply filter_none. apply Forall_cons. split.
    * intros Hyn. unfold comp in Hxy. rewrite Hx, Hyn in Hxy.
      by rewrite NamespaceString_lt_irrefl in Hxy.
    * eapply Forall_impl; [exact Hy|]. intros z Hz Hzn. unfold le in Hz.
      pose proof (NamespaceString_lt_le_trans _ _ _ Hxy Hz) as Hlt.
      rewrite Hx, Hzn in Hlt. by rewrite NamespaceString_lt_irrefl in Hlt.
  + rewrite (filter_cons _ x []). destruct (decide (key x = ns)); [done|].
    by rewrite app_nil_r.
- rewrite !(filter_cons _ y). rewrite (IH Hs). by destruct (decide (key y = ns)).
Qed.

Lemma stable_sort_acc l : ∀ acc,
StronglySorted le acc →
let sorted := foldl (λ sorted x, stable_insert comp x sorted) acc l in
StronglySorted le sorted
∧ sorted ≡ₚ acc ++ l
∧ ∀ ns, filter (λ p, key p = ns) sorted
        = filter (λ p, key p = ns) acc ++ filter (λ p, key p = ns) l.
Proof.
induction l as [|x l IH]; intros acc Hacc; simpl.
- split_and!; [done|by rewrite app_nil_r|]. intros ns. by rewrite filter_nil, app_nil_r.
- destruct (IH (stable_insert comp x acc)) as (Hs & Hp & Hf);
    [by apply stable_insert_sorted|].
  split_and!; [done| |].
  + rewrite Hp, stable_insert_perm. simpl. apply Permutation_middle.
  + intros ns. rewrite Hf, stable_insert_filter by done.
    by rewrite (filter_cons _ x l), <- app_assoc, filter_cons, filter_nil;
      destruct (decide (key x = ns)).
Qed.

End StableSort.


(** ** Error dispositions of [syncApply] and of the worker loop *)

Section ApplyClaims.
Context {World Database Paths : Type} (A : ApplyEnv World Database Paths).

Lemma writeConflictRetry_conflicts {R : Type} (f : World → World * Result R) k :
∀ w wk n, conflictsFor k f w = Some wk →
  writeConflictRetry (k + n) f w = writeConflictRetry n f wk.
Proof.
induction k as [|k IH]; intros w wk n; simpl; [by intros [= ->]|].
destruct (f w) as [w1 [s|e]]; [done|].
destruct (bool_decide (ex_code e = WriteConflict)); [apply IH|done].
Qed.

Lemma finishAndLogApply_status finalStatus applyStartTime op w :
(finishAndLogApply A finalStatus applyStartTime op w).2 = finalStatus.
Proof.
unfold finishAndLogApply. destruct (isOK finalStatus); [|done].
by destruct (_ <? _)%Z.
Qed.

(** What the [catch] block of the CRUD branch yields for an exception
    coming out of the [try] block. *)
Lemma crudAttempt_NamespaceNotFound op oplogApplicationMode w w' ex :
crudTry A op oplogApplicationMode w = (w', Thrown ex) →
ex_code ex = NamespaceNotFound →
crudAttempt A op oplogApplicationMode w =
  (w', if bool_decide (getOpType op = kDelete)
          || bool_decide (oplogApplicationMode = kRecovering)
       then Returned Status_OK
       else Thrown (addContext ("Failed to apply operation: " +:+ redact A op) ex)).
Proof.
unfold crudAttempt. intros -> Hc. rewrite bool_decide_eq_true_2 by done.
by destruct (_ || _).
Qed.

(** C6 ([syncApply] on [NamespaceNotFound]).  For a CRUD op whose
    application, possibly after [k] write-conflict retries, raises
    [NamespaceNotFound] (thrown by [AutoGetCollection], for a missing
    database, or by [applyOperation_inlock]): with retries left, [syncApply]
    returns OK when the op is a Delete or the mode is Recovering, and
    otherwise throws that exception with the redacted op added as context;
    so it returns OK if and only if the op is a Delete or the mode is
    Recovering. *)
Theorem syncApply_NamespaceNotFound fuel k opCtx op oplogApplicationMode w wk w' ex :
writesAreReplicated opCtx = false →
documentValidationDisabled opCtx = true →
isCrudOpType op = true →
conflictsFor k (crudAttempt A op oplogApplicationMode) w = Some wk →
crudTry A op oplogApplicationMode wk = (w', Thrown ex) →
ex_code ex = NamespaceNotFound →
k < fuel →
syncApply A fuel opCtx op oplogApplicationMode w =
  (if bool_decide (getOpType op = kDelete)
      || bool_decide (oplogApplicationMode = kRecovering)
   then Finished ((finishAndLogApply A Status_OK (now A w) op w').1, Returned Status_OK)
   else Finished (w', Thrown (addContext ("Failed to apply operation: " +:+ redact A op) ex)))
∧ ((∃ w'', syncApply A fuel opCtx op oplogApplicationMode w
           = Finished (w'', Returned Status_OK))
   ↔ getOpType op = kDelete ∨ oplogApplicationMode = kRecovering).
Proof.
intros Hrep Hval Hcrud Hk Htry Hcode Hfuel.
assert (syncApply A fuel opCtx op oplogApplicationMode w =
  (if bool_decide (getOpType op = kDelete)
      || bool_decide (oplogApplicationMode = kRecovering)
   then Finished ((finishAndLogApply A Status_OK (now A w) op w').1, Returned Status_OK)
   else Finished (w', Thrown (addContext ("Failed to apply operation: " +:+ redact A op) ex))))
  as Heq.
{ assert (writeConflictRetry fuel (crudAttempt A op oplogApplicationMode) w =
          Finished (crudAttempt A op oplogApplicationMode wk)) as Hretry.
  { replace fuel with (k + S (fuel - S k)) by lia.
    rewrite (writeConflictRetry_conflicts _ _ _ _ _ Hk). simpl.
    rewrite (crudAttempt_NamespaceNotFound _ _ _ _ _ Htry Hcode).
    destruct (_ || _); [done|]. simpl. by rewrite Hcode. }
  rewrite (crudAttempt_NamespaceNotFound _ _ _ _ _ Htry Hcode) in Hretry.
  remember (bool_decide (getOpType op = kDelete)
            || bool_decide (oplogApplicationMode = kRecovering)) as b eqn:Hb.
  assert (finishApply A (now A w) op
            (writeConflictRetry fuel (crudAttempt A op oplogApplicationMode) w)
          = (if b
             then Finished ((finishAndLogApply A Status_OK (now A w) op w').1,
                            Returned Status_OK)
             else Finished (w', Thrown (addContext
                     ("Failed to apply operation: " +:+ redact A op) ex)))) as Hfin.
  { rewrite Hretry. destruct b; simpl; [|done].
    pose proof (finishAndLogApply_status Status_OK (now A w) op w') as Hst.
    destruct (finishAndLogApply A Status_OK (now A w) op w') as [w0 s0].
    simpl in Hst. by subst s0. }
  unfold syncApply. rewrite Hrep, Hval. simpl.
  unfold isCrudOpType in Hcrud. by destruct (getOpType op). }
split; [exact Heq|]. rewrite Heq.
destruct (bool_decide (getOpType op = kDelete)) eqn:Hd;
  destruct (bool_decide (oplogApplicationMode = kRecovering)) eqn:Hr; simpl.
- apply bool_decide_eq_true_1 in Hd. split; eauto.
- apply bool_decide_eq_true_1 in Hd. split; eauto.
- apply bool_decide_eq_true_1 in Hr. split; eauto.
- apply bool_decide_eq_false_1 in Hd, Hr. split; [by intros (? & ?)|by intros [?|?]].
Qed.

Lemma applyLoop_step fuel opCtx opts entry rest w w1 w2 r :
groupAndApplyInserts A (entry :: rest) (mode opts) w = (w1, None) →
syncApply A fuel opCtx entry (mode opts) w1 = Finished (w2, r) →
applyLoop A fuel opCtx opts 0 (entry :: rest) w =
  (if decide (nonOK r) then
     if suppressed opts entry r then applyLoop A fuel opCtx opts 0 rest w2
     else Finished (w2, Some (statusOf r))
   else applyLoop A fuel opCtx opts 0 rest w2).
Proof.
intros Hgroup Hsync.
destruct (decide (nonOK r)) as [Hn|Hn]; simpl; rewrite Hgroup, Hsync;
  destruct r as [status|e]; simpl in *.
- by rewrite Hn.
- done.
- destruct (isOK status); [done|by destruct Hn].
- by destruct Hn.
Qed.

Lemma applyLoop_drop fuel opCtx opts ops : ∀ skip w,
applyLoop A fuel opCtx opts skip ops w = applyLoop A fuel opCtx opts 0 (drop skip ops) w.
Proof.
induction ops as [|entry rest IH]; intros skip w; [by destruct skip|].
destruct skip as [|skip]; [done|]. simpl. apply IH.
Qed.

Lemma getsOn_trans fuel opts l1 w1 l2 w2 l3 w3 :
getsOn A fuel opts l1 w1 l2 w2 → getsOn A fuel opts l2 w2 l3 w3 →
getsOn A fuel opts l1 w1 l3 w3.
Proof.
induction 1 as [l w|entry rest w w1 last l' w' Hg _ IH|entry rest w w0 w1 r l' w' Hg Hs Hr _ IH];
  intros H23; [done| |].
- eapply getsOn_group; [done|]. by apply IH.
- eapply getsOn_apply; [done|done|done|]. by apply IH.
Qed.

(** While the worker gets on, the loop has not returned. *)
Lemma applyLoop_getsOn fuel opts l w l' w' :
getsOn A fuel opts l w l' w' →
applyLoop A fuel (mkOperationContext false true) opts 0 l w
= applyLoop A fuel (mkOperationContext false true) opts 0 l' w'.
Proof.
induction 1 as [l w|entry rest w w1 last l' w' Hg _ IH|entry rest w w0 w1 r l' w' Hg Hs Hr _ IH];
  [done| |].
- rewrite <- IH. simpl. rewrite Hg. apply applyLoop_drop.
- rewrite <- IH, (applyLoop_step _ _ _ _ _ _ _ _ _ Hg Hs).
  destruct (decide (nonOK r)) as [Hn|Hn]; [by rewrite (Hr Hn)|done].
Qed.

(** A run of the loop that ends has got on to the end of the vector, or
    to an entry whose outcome is neither OK nor skipped, and then returns
    the status of that outcome. *)
Lemma applyLoop_ends fuel opts l : ∀ skip w w' res,
applyLoop A fuel (mkOperationContext false true) opts skip l w = Finished (w', res) →
match res with
| None => getsOn A fuel opts (drop skip l) w [] w'
| Some s =>
    ∃ entry rest w1 w0 r,
      getsOn A fuel opts (drop skip l) w (entry :: rest) w1
      ∧ groupAndApplyInserts A (entry :: rest) (mode opts) w1 = (w0, None)
      ∧ syncApply A fuel (mkOperationContext false true) entry (mode opts) w0
        = Finished (w', r)
      ∧ nonOK r ∧ suppressed opts entry r = false ∧ s = statusOf r
end.
Proof.
induction l as [|entry rest IH]; intros skip w w' res H.
- destruct skip; simpl in H; injection H as <- <-; apply getsOn_here.
- destruct skip as [|skip]; [|by apply (IH skip)].
  simpl in H. rewrite drop_0.
  destruct (groupAndApplyInserts A (entry :: rest) (mode opts) w) as [w0 [last|]] eqn:Hg.
  { apply IH in H. destruct res as [s|].
    - destruct H as (e & rs & w1 & w2 & r & Hon & ?). exists e, rs, w1, w2, r.
      split; [|done]. by eapply getsOn_group.
    - by eapply getsOn_group. }
  destruct (syncApply A fuel _ entry (mode opts) w0) as [[w1 r]| |] eqn:Hs; [|done|done].
  assert (∀ res', (nonOK r → suppressed opts entry r = true) →
            match res' with
            | None => getsOn A fuel opts (drop 0 rest) w1 [] w'
            | Some s =>
                ∃ entry' rest' w1' w0' r',
                  getsOn A fuel opts (drop 0 rest) w1 (entry' :: rest') w1'
                  ∧ groupAndApplyInserts A (entry' :: rest') (mode opts) w1' = (w0', None)
                  ∧ syncApply A fuel (mkOperationContext false true) entry' (mode opts) w0'
                    = Finished (w', r')
                  ∧ nonOK r' ∧ suppressed opts entry' r' = false ∧ s = statusOf r'
            end →
            match res' with
            | None => getsOn A fuel opts (entry :: rest) w [] w'
            | Some s =>
                ∃ entry' rest' w1' w0' r',
                  getsOn A fuel opts (entry :: rest) w (entry' :: rest') w1'
                  ∧ groupAndApplyInserts A (entry' :: rest') (mode opts) w1' = (w0', None)
                  ∧ syncApply A fuel (mkOperationContext false true) entry' (mode opts) w0'
                    = Finished (w', r')
                  ∧ nonOK r' ∧ suppressed opts entry' r' = false ∧ s = statusOf r'
            end) as Hgo.
  { intros [s|] Hr; rewrite drop_0.
    - intros (e & rs & w1' & w2 & r' & Hon & ?). exists e, rs, w1', w2, r'.
      split; [|done]. by eapply getsOn_apply.
    - intros Hon. by eapply getsOn_apply. }
  destruct r as [status|e]; simpl in H.
  + destruct (isOK status) eqn:Hok.
    { apply IH in H. apply Hgo; [|done]. unfold nonOK. by rewrite Hok. }
    destruct (bool_decide (code status = UpdateOperationFailed)
              && bool_decide (mode opts = kInitialSync)) eqn:Hsup.
    { apply IH in H. apply Hgo; [|done]. by intros _. }
    injection H as <- <-. exists entry, rest, w, w0, (Returned status).
    split_and!; [apply getsOn_here|done|done|done|done|done].
  + destruct (bool_decide (ex_code e = NamespaceNotFound) && isCrudOpType entry
              && allowNamespaceNotFoundErrorsOnCrudOps opts) eqn:Hsup.
    { apply IH in H. apply Hgo; [|done]. by intros _. }
    injection H as <- <-. exists entry, rest, w, w0, (Thrown e).
    split_and!; [apply getsOn_here|done|done|done|done|done].
Qed.

(** C7 (worker error suppression).  Let the worker, on its vector sorted
    by namespace, have got on to [entry], form no insert group there, and
    [syncApply] end with a non-OK outcome [r].  If [r] is an
    [UpdateOperationFailed] status in initial sync, or a
    [NamespaceNotFound] exception on a CRUD entry with
    [allowNamespaceNotFoundErrorsOnCrudOps], the worker gets on to the
    next entry (its loop goes on from there, in the world the entry
    left); otherwise [multiSyncApply] stops there and returns the
    status of [r] (for an exception, its code and its reason with the
    contexts added to it).  A worker that gets on to the end of its vector
    returns OK.  And [multiSyncApply] returns in no other way: with OK at
    the end of the vector, or with the status of the first outcome that is
    neither OK nor skipped. *)
Theorem worker_error_suppression {P : Type} (entryAt : P → OplogEntry) fuel opts
    (ops : list P) (workerMultikeyPathInfo : list Paths) w :
let sorted := stableSortByNamespace entryAt ops in
let opCtx := mkOperationContext false true in
(∀ entry rest w1 w0 w2 r,
   getsOn A fuel opts (entryAt <$> sorted) w (entry :: rest) w1 →
   groupAndApplyInserts A (entry :: rest) (mode opts) w1 = (w0, None) →
   syncApply A fuel opCtx entry (mode opts) w0 = Finished (w2, r) →
   nonOK r →
   if suppressed opts entry r
   then getsOn A fuel opts (entryAt <$> sorted) w rest w2
        ∧ applyLoop A fuel opCtx opts 0 (entryAt <$> sorted) w
          = applyLoop A fuel opCtx opts 0 rest w2
   else multiSyncApply A entryAt fuel opts ops workerMultikeyPathInfo w
        = Finished (w2, sorted, workerMultikeyPathInfo, statusOf r))
∧ (∀ wEnd, getsOn A fuel opts (entryAt <$> sorted) w [] wEnd →
     multiSyncApply A entryAt fuel opts ops [] w
     = Finished (wEnd, sorted, getMultikeyPathInfo A wEnd, Status_OK))
∧ (∀ w' l paths status,
     multiSyncApply A entryAt fuel opts ops workerMultikeyPathInfo w
     = Finished (w', l, paths, status) →
     l = sorted
     ∧ ((getsOn A fuel opts (entryAt <$> sorted) w [] w' ∧ status = Status_OK
         ∧ workerMultikeyPathInfo = [] ∧ paths = getMultikeyPathInfo A w')
        ∨ ∃ entry rest w1 w0 r,
            getsOn A fuel opts (entryAt <$> sorted) w (entry :: rest) w1
            ∧ groupAndApplyInserts A (entry :: rest) (mode opts) w1 = (w0, None)
            ∧ syncApply A fuel opCtx entry (mode opts) w0 = Finished (w', r)
            ∧ nonOK r ∧ suppressed opts entry r = false
            ∧ status = statusOf r ∧ paths = workerMultikeyPathInfo)).
Proof.
intros sorted opCtx. subst opCtx. split_and!.
- intros entry rest w1 w0 w2 r Hon Hg Hs Hn.
  destruct (suppressed opts entry r) eqn:Hsup.
  + split.
    * eapply getsOn_trans; [exact Hon|].
      eapply getsOn_apply; [done|done|done|apply getsOn_here].
    * rewrite (applyLoop_getsOn _ _ _ _ _ _ Hon), (applyLoop_step _ _ _ _ _ _ _ _ _ Hg Hs).
      by rewrite decide_True, Hsup.
  + unfold multiSyncApply. fold sorted.
    rewrite (applyLoop_getsOn _ _ _ _ _ _ Hon), (applyLoop_step _ _ _ _ _ _ _ _ _ Hg Hs).
    by rewrite decide_True, Hsup.
- intros wEnd Hon. unfold multiSyncApply. fold sorted.
  by rewrite (applyLoop_getsOn _ _ _ _ _ _ Hon).
- intros w' l paths status. unfold multiSyncApply. fold sorted.
  destruct (applyLoop A fuel _ opts 0 (entryAt <$> sorted) w) as [[w1 [s|]]| |] eqn:Hloop;
    [| |done|done].
  + intros [= <- <- <- <-]. split; [done|]. right.
    apply applyLoop_ends in Hloop as (entry & rest & w0 & w2 & r & ? & ? & ? & ? & ? & ?).
    rewrite drop_0 in *. by exists entry, rest, w0, w2, r.
  + destruct workerMultikeyPathInfo as [|x xs]; [|done].
    intros [= <- <- <- <-]. split; [done|]. left.
    apply applyLoop_ends in Hloop. rewrite drop_0 in Hloop. done.
Qed.

(** When every outcome is OK or suppressed, whatever the world, the loop
    reaches the end of the vector. *)
Lemma applyLoop_completes fuel opCtx opts ops : ∀ skip w,
(∀ entry w0, entry ∈ ops →
   ∃ w1 r, syncApply A fuel opCtx entry (mode opts) w0 = Finished (w1, r)
           ∧ (nonOK r → suppressed opts entry r = true)) →
∃ w', applyLoop A fuel opCtx opts skip ops w = Finished (w', None).
Proof.
induction ops as [|entry rest IH]; intros skip w Hall; simpl; [by eauto|].
assert (∀ entry0 w0, entry0 ∈ rest →
          ∃ w1 r, syncApply A fuel opCtx entry0 (mode opts) w0 = Finished (w1, r)
                  ∧ (nonOK r → suppressed opts entry0 r = true)) as Hrest.
{ intros entry0 w0 Hin. apply Hall. by right. }
destruct skip as [|skip]; [|by apply IH].
destruct (groupAndApplyInserts A (entry :: rest) (mode opts) w) as [w0 [last|]];
  [by apply IH|].
destruct (Hall entry w0 ltac:(by left)) as (w1 & r & -> & Hsup).
destruct r as [status|e]; simpl in *.
- destruct (isOK status) eqn:Hok; [by apply IH|]. rewrite (Hsup eq_refl). by apply IH.
- rewrite (Hsup I). by apply IH.
Qed.

End ApplyClaims.

(** ** The apply claims on a concrete world *)

(** The worker on [update; delete] of a missing document, initial sync:
    the update is passed over and the worker returns OK. *)
Lemma multiSyncApply_update_then_delete :
multiSyncApply ApplyDemo.env id 3 ApplyDemo.initialSync
  [ApplyDemo.update "db.c" 101 1; Demo.delete "db.c" 102 1] [] 0
= Finished (2, [ApplyDemo.update "db.c" 101 1; Demo.delete "db.c" 102 1], [], Status_OK).
Proof. reflexivity. Qed.

(** C6 on the demo world: the insert meets a write conflict, is retried,
    finds its database gone, and [syncApply] (mode Secondary) throws the
    annotated exception. *)
Lemma syncApply_NamespaceNotFound_witness :
conflictsFor 1 (crudAttempt ApplyDemo.env ApplyDemo.insertDropping kSecondary) 0 = Some 1
∧ crudTry ApplyDemo.env ApplyDemo.insertDropping kSecondary 1
  = (1, Thrown ApplyDemo.missingDatabase)
∧ syncApply ApplyDemo.env 3 ApplyDemo.opCtx ApplyDemo.insertDropping kSecondary 0
  = Finished (1, Thrown (addContext "Failed to apply operation: dropping.c"
                           ApplyDemo.missingDatabase)).
Proof.
split_and!; [reflexivity|reflexivity|].
exact (proj1 (syncApply_NamespaceNotFound ApplyDemo.env 3 1 ApplyDemo.opCtx
                ApplyDemo.insertDropping kSecondary 0 1 1 ApplyDemo.missingDatabase
                eq_refl eq_refl eq_refl eq_refl eq_refl eq_refl ltac:(lia))).
Defined.

(** C7 on the demo world.  In initial sync the update of a missing
    document fails with [UpdateOperationFailed], which is skipped: the
    worker gets on to the delete and returns OK.  In secondary mode the
    insert into the database that is being dropped throws
    [NamespaceNotFound], which is not skipped: the worker stops and returns
    that status, the context [syncApply] added in its reason. *)
Lemma worker_error_suppression_witness :
multiSyncApply ApplyDemo.env id 3 ApplyDemo.initialSync
  [ApplyDemo.update "db.c" 101 1; Demo.delete "db.c" 102 1] [] 0
= Finished (2, [ApplyDemo.update "db.c" 101 1; Demo.delete "db.c" 102 1], [], Status_OK)
∧ multiSyncApply ApplyDemo.env id 3 Demo.options [ApplyDemo.insertDropping] [] 0
  = Finished (1, [ApplyDemo.insertDropping], [],
              mkStatus NamespaceNotFound
                "Failed to apply operation: dropping.c :: caused by :: missing database (dropping)").
Proof.
split.
- apply (proj1 (proj2 (worker_error_suppression ApplyDemo.env id 3 ApplyDemo.initialSync
                         [ApplyDemo.update "db.c" 101 1; Demo.delete "db.c" 102 1] [] 0)) 2).
  eapply getsOn_apply; [reflexivity|reflexivity|by intros _|].
  eapply getsOn_apply; [reflexivity|reflexivity|by intros [=]|].
  apply getsOn_here.
- exact (proj1 (worker_error_suppression ApplyDemo.env id 3 Demo.options
                  [ApplyDemo.insertDropping] [] 0)
           ApplyDemo.insertDropping [] 0 0 1
           (Thrown (addContext "Failed to apply operation: dropping.c"
                      ApplyDemo.missingDatabase))
           (getsOn_here ApplyDemo.env 3 Demo.options _ _) eq_refl eq_refl I).
Defined.

(** * Further properties of the partitioning pass *)

(** ** Writer vectors only grow *)

Lemma grows_refl wv : grows wv wv.
Proof. apply Forall_Forall2_diag, Forall_forall. done. Qed.

Lemma grows_trans wv1 wv2 wv3 : grows wv1 wv2 → grows wv2 wv3 → grows wv1 wv3.
Proof.
unfold grows. intros H1 H2. revert wv3 H2.
induction H1 as [|w1 w2 l1 l2 Hw H1 IH]; intros wv3 H2; inversion H2; subst; constructor.
- by etrans.
- by apply IH.
Qed.

Lemma grows_lookup wv wv' :
(∀ k, ∃ more, wv' !! k = (λ w, w ++ more) <$> wv !! k) → grows wv wv'.
Proof.
intros H. apply Forall2_lookup. intros k. destruct (H k) as [more ->].
destruct (wv !! k) as [w|]; simpl; constructor. by exists more.
Qed.

Lemma grows_alter p k wv : grows wv (alter (λ w, w ++ [p]) k wv).
Proof.
apply grows_lookup. intros k'. rewrite list_lookup_alter.
case_decide; [subst|].
- exists [p]. by destruct (wv !! k').
- exists []. destruct (wv !! k'); simpl; by rewrite ?app_nil_r.
Qed.

Lemma grows_length wv wv' : grows wv wv' → length wv' = length wv.
Proof. intros H. symmetry. by eapply Forall2_length. Qed.

(** ** The loop body, exactly *)

Section PassExact.
Context {T : Type} (E : Externals T) (opts : Options).
Implicit Types (st : St T) (p q : OperationPtr) (op : OplogEntry).

Lemma grows_routeDerived W g v wv idxs : grows wv (routeDerived E W g v wv idxs).
Proof.
apply grows_lookup. intros k. rewrite routeDerived_lookup. by eexists.
Qed.

Lemma emplaceAndAdd_grows v st st' :
emplaceAndAdd E v st = Some st' → cache_ok E st →
grows (st_writerVectors st) (st_writerVectors st').
Proof.
intros (_ & _ & _ & _ & _ & Hwv)%emplaceAndAdd_spec Hok.
rewrite (Hwv Hok). apply grows_routeDerived.
Qed.

Lemma emplaceAndAdd_deref v st st' q o :
emplaceAndAdd E v st = Some st' → deref st q = Some o → deref st' q = Some o.
Proof.
intros (_ & Ho & _ & _ & (v' & Hd & _) & _)%emplaceAndAdd_spec.
by apply (deref_grow _ _ [v']).
Qed.

Lemma emplaceAndAdd_exact v st st' :
emplaceAndAdd E v st = Some st' → cache_ok E st →
(∀ q o, deref st q = Some o → deref st' q = Some o)
∧ st_tracker st' = st_tracker st
∧ grows (st_writerVectors st) (st_writerVectors st').
Proof.
intros H Hok. split_and!.
- intros q o. by apply (emplaceAndAdd_deref v).
- by apply emplaceAndAdd_spec in H as (_ & _ & _ & -> & _).
- by apply (emplaceAndAdd_grows v).
Qed.

Lemma materialize_exact op sid st st' :
materialize E op sid st = Some st' → cache_ok E st →
(∀ q o, deref st q = Some o → deref st' q = Some o)
∧ st_tracker st' = st_tracker st
∧ grows (st_writerVectors st) (st_writerVectors st').
Proof.
intros (cached & _ & _ & Ho & _ & Ht & (v' & Hd & _) & Hwv)%materialize_spec Hok.
split_and!; [|done|].
- intros q o. by apply (deref_grow _ _ [v']).
- rewrite (Hwv Hok). apply grows_routeDerived.
Qed.

Lemma trackSession_exact op st st1 :
trackSession E op st = Some st1 → cache_ok E st →
st_tracker st1 = (λ tr, (updateSession E tr op).2) <$> st_tracker st
∧ grows (st_writerVectors st) (st_writerVectors st1).
Proof.
unfold trackSession. destruct (st_tracker st) as [tr|] eqn:Ht; simpl.
- destruct (updateSession E tr op) as [[ws|] tr']; simpl.
  + intros H Hok. split.
    * by apply emplaceAndAdd_spec in H as (_ & _ & _ & -> & _).
    * exact (emplaceAndAdd_grows _ _ _ H Hok).
  + intros [= <-] _. split; [done|apply grows_refl].
- intros [= <-] _. split; [by rewrite Ht|apply grows_refl].
Qed.

(** The hashing phase, exactly: the entry is marked when it is an insert
    into a capped collection, and no other entry is touched. *)
Lemma hash_phase_exact p op st hash st1 :
deref st p = Some op →
(if isCrudOpType op
 then processCrudOp E p (uint32 (hashed_key E (getNss op))) (getNss op) st
 else Some (uint32 (hashed_key E (getNss op)), st)) = Some (hash, st1) →
cache_ok E st →
deref st1 p
= Some (if bool_decide (getOpType op = kInsert)
           && isCapped (getCollectionPropertiesImpl E (getNss op))
        then setForCapped true op else op)
∧ ∀ q o, q ≠ p → deref st q = Some o → deref st1 q = Some o.
Proof.
intros Hp. destruct (isCrudOpType op) eqn:Hcrud.
- intros (op0 & c & b & Hp0 & -> & Hc)%processCrudOp_inv Hok.
  assert (op0 = op) as -> by congruence.
  destruct (Hc Hok) as (_ & Hb & _). rewrite <- (Hb eq_refl).
  destruct b.
  + split.
    * by rewrite deref_update, decide_True, deref_set_cache, Hp.
    * intros q o Hq. by rewrite deref_update, decide_False, deref_set_cache.
  + by rewrite deref_set_cache.
- intros [= <- <-] _. split; [|done]. rewrite Hp.
  unfold isCrudOpType in Hcrud.
  rewrite bool_decide_eq_false_2; [done|]. intros Hi. by rewrite Hi in Hcrud.
Qed.

Lemma afterPass_floor op :
OpTime_le (getOpTime op) (beginApplyingOpTime opts) = true → afterPass E opts op = op.
Proof. unfold afterPass, isMarkedByPass. by intros ->. Qed.

Lemma afterPass_buffered op :
isBuffered opts op = true → afterPass E opts op = op.
Proof. unfold afterPass, isMarkedByPass. intros ->. by rewrite andb_false_r. Qed.

Lemma afterPass_evolves op : evolves op (afterPass E opts op).
Proof. unfold afterPass. destruct (isMarkedByPass E opts op); eauto with store. Qed.

(** One iteration of the loop, exactly. *)
Lemma deriveOp_exact loc st i st' op :
deriveOp E opts loc st i = Some st' →
deref st (loc, i) = Some op →
cache_ok E st →
deref st' (loc, i) = Some (afterPass E opts op)
∧ (∀ q o, q ≠ (loc, i) → deref st q = Some o → deref st' q = Some o)
∧ st_tracker st'
  = (if OpTime_le (getOpTime op) (beginApplyingOpTime opts) then st_tracker st
     else (λ tr, (updateSession E tr op).2) <$> st_tracker st)
∧ required opts op
∧ (isRouted opts op = true → writers_ok st)
∧ grows (st_writerVectors st) (st_writerVectors st').
Proof.
unfold deriveOp. intros H Hp Hok. rewrite Hp in H. simpl in H.
destruct (OpTime_le _ _) eqn:Hfloor.
{ injection H as <-. split_and!.
  - by rewrite afterPass_floor.
  - done.
  - done.
  - intros Hf. congruence.
  - unfold isRouted. by rewrite Hfloor.
  - apply grows_refl. }
destruct (trackSession E op st) as [st1|] eqn:Htr; [|done]. simpl in H.
destruct (trackSession_spec _ _ _ _ Htr) as (Hs1 & Ho1 & Hpt1 & more & Hd1).
destruct (trackSession_exact _ _ _ Htr Hok) as (Ht1 & Hg1).
pose proof (deref_grow _ _ _ _ _ Ho1 Hd1 Hp) as Hp1.
assert (cache_ok E st1) as Hok1 by (by destruct Hs1 as (_ & _ & Hck & _); apply Hck).
destruct (isPartialTransaction op || _) eqn:Hpart.
{ destruct (getSessionId op) as [sid|] eqn:Hsid; [|done]. simpl in H.
  match type of H with (?m ≫= _) = _ => destruct m as [[|]|]; try done end.
  simpl in H. injection H as <-. split_and!.
  - rewrite afterPass_buffered by done. exact Hp1.
  - intros q o _ Hq. exact (deref_grow _ _ _ _ _ Ho1 Hd1 Hq).
  - done.
  - intros _. unfold isBuffered. rewrite Hpart. by eexists.
  - unfold isRouted. rewrite Hpart. simpl. by rewrite andb_false_r.
  - done. }
match type of H with (?m ≫= _) = _ => destruct m as [st2|] eqn:Hab; [|done] end.
simpl in H.
assert (getCommandType op = kAbortTransaction → is_Some (getSessionId op)) as Hreq_ab.
{ intros Hc. rewrite Hc in Hab. simpl in Hab. by destruct (getSessionId op). }
apply abort_phase in Hab as (Ho2 & Hd2 & Hwv2 & Hc2 & Ht2).
assert (cache_ok E st2) as Hok2 by (unfold cache_ok; by rewrite Hc2).
assert (∀ q o, deref st q = Some o → deref st2 q = Some o) as Hkeep2.
{ intros q o Hq. eapply (deref_grow st1 st2 []); rewrite ?app_nil_r; eauto.
  by eapply deref_grow. }
pose proof (Hkeep2 _ _ Hp) as Hp2.
match type of H with (?m ≫= _) = _ => destruct m as [[hash st3]|] eqn:Hh; [|done] end.
simpl in H.
destruct (hash_phase _ _ _ _ _ _ Hp2 Hh)
  as (Hs3 & Hwv3 & Hpt3 & Ht3 & Hl3 & _).
destruct (hash_phase_exact _ _ _ _ _ Hp2 Hh Hok2) as (Hp3 & Hkeep3).
assert (cache_ok E st3) as Hok3 by (by destruct Hs3 as (_ & _ & Hck & _); apply Hck).
assert ((if bool_decide (getOpType op = kInsert)
            && isCapped (getCollectionPropertiesImpl E (getNss op))
         then setForCapped true op else op) = afterPass E opts op) as Hafter.
{ unfold afterPass, isMarkedByPass, isBuffered. by rewrite Hfloor, Hpart. }
rewrite Hafter in Hp3. rewrite Hp3 in H. simpl in H.
pose proof (afterPass_evolves op) as Hev.
assert (isTerminalApplyOps (afterPass E opts op) = isTerminalApplyOps op
        ∧ isPreparedCommit (afterPass E opts op) = isPreparedCommit op
        ∧ getSessionId (afterPass E opts op) = getSessionId op
        ∧ getTxnNumber (afterPass E opts op) = getTxnNumber op
        ∧ getPrevWriteOpTimeInTransaction (afterPass E opts op)
          = getPrevWriteOpTimeInTransaction op) as (Hterm' & Hpc' & Hsid' & Htxn' & Hprev').
{ destruct Hev as [->| ->]; done. }
rewrite Hterm', Hpc', Hsid', Htxn', Hprev' in H.
assert (st_tracker st3 = (λ tr, (updateSession E tr op).2) <$> st_tracker st) as Htr3
  by congruence.
assert (grows (st_writerVectors st) (st_writerVectors st3)) as Hg3
  by (by rewrite Hwv3, Hwv2).
assert (∀ q o, q ≠ (loc, i) → deref st q = Some o → deref st3 q = Some o) as Hkeep.
{ intros q o Hq Hd. apply Hkeep3; [done|]. by apply Hkeep2. }
destruct (isTerminalApplyOps op) eqn:Hterm.
{ assert (isRouted opts op = false) as Hnr
    by (unfold isRouted; by rewrite Hterm, andb_false_r).
  assert ((∀ q o, deref st3 q = Some o → deref st' q = Some o)
          ∧ st_tracker st' = st_tracker st3
          ∧ grows (st_writerVectors st3) (st_writerVectors st')
          ∧ ((is_Some (getSessionId op) ∧ is_Some (getTxnNumber op))
             ∨ getPrevWriteOpTimeInTransaction op = None)) as (Hk4 & Ht4 & Hg4 & Hreq).
  { destruct (getSessionId op) as [sid|], (getTxnNumber op) as [tn|].
    - destruct (materialize_exact _ _ _ _ H Hok3) as (? & ? & ?).
      split_and!; try done. left. split; by eexists.
    - destruct (getPrevWriteOpTimeInTransaction op); [done|].
      destruct (emplaceAndAdd_exact _ _ _ H Hok3) as (? & ? & ?).
      split_and!; try done. by right.
    - destruct (getPrevWriteOpTimeInTransaction op); [done|].
      destruct (emplaceAndAdd_exact _ _ _ H Hok3) as (? & ? & ?).
      split_and!; try done. by right.
    - destruct (getPrevWriteOpTimeInTransaction op); [done|].
      destruct (emplaceAndAdd_exact _ _ _ H Hok3) as (? & ? & ?).
      split_and!; try done. by right. }
  split_and!.
  - by apply Hk4.
  - intros q o Hq Hd. apply Hk4. by apply Hkeep.
  - congruence.
  - intros _. unfold isBuffered. by rewrite Hpart, Hterm.
  - by rewrite Hnr.
  - by eapply grows_trans. }
destruct (isPreparedCommit op && _) eqn:Hprep.
{ assert (isRouted opts op = false) as Hnr
    by (unfold isRouted; by rewrite Hprep, andb_false_r).
  destruct (getSessionId op) as [sid|] eqn:Hsid; [|done]. simpl in H.
  destruct (materialize_exact _ _ _ _ H Hok3) as (Hk4 & Ht4 & Hg4).
  split_and!.
  - by apply Hk4.
  - intros q o Hq Hd. apply Hk4. by apply Hkeep.
  - congruence.
  - intros _. unfold isBuffered. rewrite Hpart, Hterm. split; [done|].
    intros _. by eexists.
  - by rewrite Hnr.
  - by eapply grows_trans. }
destruct (addToWriterVector _ _ _) as [wv|] eqn:Hr; [|done]. simpl in H.
injection H as <-.
apply addToWriterVector_Some in Hr as [Hne ->].
split_and!.
- done.
- done.
- done.
- intros _. unfold isBuffered. rewrite Hpart, Hterm. split; [done|]. intros Hx. congruence.
- intros _. unfold writers_ok. by rewrite <- (grows_length _ _ Hg3).
- eapply grows_trans; [exact Hg3|apply grows_alter].
Qed.

(** A pass over the vector [v] at [loc], from position [s] on, exactly. *)
Lemma pass_exact loc v : ∀ s st st',
forEach (deriveOp E opts loc) st (seq s (length v)) = Some st' →
cache_ok E st →
(∀ j o, v !! j = Some o → deref st (loc, s + j) = Some o) →
(∀ j o, v !! j = Some o → deref st' (loc, s + j) = Some (afterPass E opts o))
∧ (∀ q o, (∀ j, j < length v → q ≠ (loc, s + j)) →
     deref st q = Some o → deref st' q = Some o)
∧ st_tracker st' = (λ tr, trackAll E opts tr v) <$> st_tracker st
∧ Forall (required opts) v
∧ (Exists (λ o, isRouted opts o = true) v → writers_ok st)
∧ grows (st_writerVectors st) (st_writerVectors st')
∧ cache_ok E st'.
Proof.
induction v as [|o v IH]; intros s st st' H Hok Hv.
- injection H as <-. split_and!; try done.
  + by destruct (st_tracker st).
  + by intros ?%Exists_nil.
  + apply grows_refl.
- simpl in H. destruct (deriveOp E opts loc st s) as [st1|] eqn:H1; [|done]. simpl in H.
  assert (deref st (loc, s) = Some o) as Hp.
  { rewrite <- (Nat.add_0_r s) at 1. by apply Hv. }
  destruct (deriveOp_exact _ _ _ _ _ H1 Hp Hok) as (Hb & Ha & Ht & Hreq & Hrt & Hg).
  destruct (deriveOp_spec _ _ _ _ _ _ H1) as (? & _ & _ & Hck & _).
  destruct (IH (S s) st1 st' H (Hck Hok)) as (Hb' & Ha' & Ht' & Hreq' & Hrt' & Hg' & Hok').
  { intros j o' Hj. replace (S s + j) with (s + S j) by lia.
    apply Ha; [intros [= ?]; lia|]. by apply Hv. }
  split_and!.
  + intros [|j] o' Hj; simpl in Hj.
    * injection Hj as <-. rewrite Nat.add_0_r. apply Ha'; [|done].
      intros j _ [= ?]. lia.
    * replace (s + S j) with (S s + j) by lia. by apply Hb'.
  + intros q o' Hq Hd. apply Ha'.
    * intros j Hj. replace (S s + j) with (s + S j) by lia. apply Hq. simpl. lia.
    * apply Ha; [|done]. rewrite <- (Nat.add_0_r s). apply Hq. simpl. lia.
  + rewrite Ht', Ht. unfold trackAll. simpl.
    destruct (OpTime_le _ _); [done|]. by destruct (st_tracker st).
  + by constructor.
  + intros [Hr|Hr]%Exists_cons; [by apply Hrt|].
    unfold writers_ok. rewrite <- (grows_length _ _ Hg). by apply Hrt'.
  + by eapply grows_trans.
  + done.
Qed.

Lemma _deriveOpsAndFillWriterVectors_exact loc tracker st st' v :
vecAt st loc = Some v →
_deriveOpsAndFillWriterVectors E opts loc tracker st = Some st' →
(∀ j o, v !! j = Some o → deref st' (loc, j) = Some (afterPass E opts o))
∧ (∀ q o, q.1 ≠ loc → deref st q = Some o → deref st' q = Some o)
∧ st_tracker st' = (λ tr, trackAll E opts tr v) <$> tracker
∧ Forall (required opts) v
∧ (Exists (λ o, isRouted opts o = true) v → writers_ok st)
∧ grows (st_writerVectors st) (st_writerVectors st').
Proof.
intros Hv. unfold _deriveOpsAndFillWriterVectors.
change (vecAt (mkSt (st_ops st) (st_derivedOps st) (st_writerVectors st) ∅ ∅ tracker) loc)
  with (vecAt st loc).
rewrite Hv. simpl. intros H.
apply (pass_exact loc v 0) in H as (Hb & Ha & Ht & Hreq & Hrt & Hg & _).
- split_and!; try done.
  intros q o Hq. apply Ha. intros j _ ->. by apply Hq.
- intros ns props. simpl. by rewrite lookup_empty.
- intros j o Hj. simpl. change (vecAt st loc ≫= (.!! j) = Some o). by rewrite Hv.
Qed.

(** The two passes of [fillWriterVectors]. *)
Lemma fillWriterVectors_exact ops wv ds st' :
fillWriterVectors E opts ops wv ds = Some st' →
(∀ j o, ops !! j = Some o → deref st' (InputOps, j) = Some (afterPass E opts o))
∧ (∀ g j o, ds !! g ≫= (.!! j) = Some o → deref st' (DerivedOps g, j) = Some o)
∧ grows wv (st_writerVectors st')
∧ Forall (required opts) ops
∧ (Exists (λ o, isRouted opts o = true) ops → uint32 (Z.of_nat (length wv)) ≠ 0%Z)
∧ ∃ st1,
    _deriveOpsAndFillWriterVectors E opts InputOps (Some (newSessionUpdateTracker E))
      (mkSt ops ds wv ∅ ∅ None) = Some st1
    ∧ st_tracker st1 = Some (trackAll E opts (newSessionUpdateTracker E) ops)
    ∧ match flushAll E (trackAll E opts (newSessionUpdateTracker E) ops) with
      | [] => st' = st1
      | newOplogWrites =>
          _deriveOpsAndFillWriterVectors E opts (DerivedOps (length (st_derivedOps st1)))
            None (emplace_back newOplogWrites st1) = Some st'
      end.
Proof.
unfold fillWriterVectors. intros H.
match type of H with (?m ≫= _) = _ => destruct m as [st1|] eqn:H1; [|done] end.
simpl in H.
destruct (_deriveOpsAndFillWriterVectors_exact InputOps _ (mkSt ops ds wv ∅ ∅ None) _ ops
            eq_refl H1)
  as (Hb1 & Ha1 & Ht1 & Hreq1 & Hrt1 & Hg1).
destruct (_deriveOpsAndFillWriterVectors_spec _ _ _ _ _ _ H1) as (_ & _ & Hext1 & _).
simpl in Ht1. rewrite Ht1 in H. simpl in H.
assert (∀ g j o, ds !! g ≫= (.!! j) = Some o → deref st1 (DerivedOps g, j) = Some o) as Hd1.
{ intros g j o Hd. by apply Ha1. }
destruct (flushAll E _) as [|w ws] eqn:Hfl.
- injection H as <-. split_and!; try done. by exists st1.
- assert (back (emplace_back (w :: ws) st1) = length (st_derivedOps st1)) as Hback.
  { unfold back. simpl. rewrite length_app. simpl. lia. }
  rewrite Hback in H.
  assert (vecAt (emplace_back (w :: ws) st1) (DerivedOps (length (st_derivedOps st1)))
          = Some (w :: ws)) as Hvec.
  { unfold vecAt, emplace_back. cbn [st_derivedOps].
    by rewrite lookup_app_r, Nat.sub_diag by lia. }
  destruct (_deriveOpsAndFillWriterVectors_exact _ _ _ _ (w :: ws) Hvec H)
    as (_ & Ha2 & _ & _ & _ & Hg2).
  split_and!; try done.
  + intros j o Hj. apply Ha2; [done|]. apply deref_emplace_back. by apply Hb1.
  + intros g j o Hd. apply Ha2.
    * simpl. intros [= ->]. specialize (Hd1 _ _ _ Hd).
      rewrite deref_derived in Hd1. by rewrite lookup_ge_None_2 in Hd1.
    * apply deref_emplace_back. by apply Hd1.
  + by eapply grows_trans.
  + by exists st1.
Qed.

End PassExact.

(** ** What [fillWriterVectors] does to its three arguments *)

Section PartitionFacts.
Context {T : Type} (E : Externals T) (opts : Options).
Implicit Types (st : St T) (op : OplogEntry).

(** X1.  The input vector after the run, exactly: the inserts into capped
    collections that are above the floor and not buffered carry the flag,
    every other entry is as it was. *)
Theorem fillWriterVectors_flags ops wv ds st' :
fillWriterVectors E opts ops wv ds = Some st' →
st_ops st'
= (λ op, if isMarkedByPass E opts op then setForCapped true op else op) <$> ops.
Proof.
intros H. destruct (fillWriterVectors_exact _ _ _ _ _ _ H) as (Hops & _).
destruct (fillWriterVectors_spec _ _ _ _ _ _ H) as ((Hlen%Forall2_length & _) & _).
simpl in Hlen. apply list_eq. intros j. rewrite list_lookup_fmap.
destruct (ops !! j) as [o|] eqn:Hj; simpl.
- exact (Hops _ _ Hj).
- apply lookup_ge_None. apply lookup_ge_None in Hj. lia.
Qed.

(** X2.  The pool only gains groups; the groups the caller passed in are
    still there, at their positions, untouched. *)
Theorem fillWriterVectors_pool ops wv ds st' :
fillWriterVectors E opts ops wv ds = Some st' →
ds `prefix_of` st_derivedOps st'.
Proof.
intros H. destruct (fillWriterVectors_exact _ _ _ _ _ _ H) as (_ & Hds & _).
destruct (fillWriterVectors_spec _ _ _ _ _ _ H) as ((_ & Hpool & _) & _).
simpl in Hpool.
exists (drop (length ds) (st_derivedOps st')).
rewrite <- (take_drop (length ds) (st_derivedOps st')) at 1. f_equal.
apply list_eq. intros g.
destruct (ds !! g) as [v|] eqn:Hg.
- destruct (Hpool _ _ Hg) as (v' & Hg' & Hev).
  rewrite lookup_take_lt by (by eapply lookup_lt_Some). rewrite Hg'. f_equal.
  apply list_eq. intros j. destruct (v !! j) as [o|] eqn:Hj.
  + specialize (Hds g j o). rewrite Hg in Hds. specialize (Hds Hj).
    rewrite deref_derived, Hg' in Hds. exact Hds.
  + apply lookup_ge_None. apply lookup_ge_None in Hj.
    apply Forall2_length in Hev. lia.
- apply lookup_ge_None in Hg. apply lookup_ge_None. rewrite length_take. lia.
Qed.

(** X3.  The writer vectors only gain pointers: there are as many vectors
    as before, and each starts with what it held. *)
Theorem fillWriterVectors_appends ops wv ds st' :
fillWriterVectors E opts ops wv ds = Some st' →
length (st_writerVectors st') = length wv
∧ ∀ k w, wv !! k = Some w →
    ∃ w', st_writerVectors st' !! k = Some w' ∧ w `prefix_of` w'.
Proof.
intros H. destruct (fillWriterVectors_exact _ _ _ _ _ _ H) as (_ & _ & Hg & _).
split; [by apply grows_length|].
intros k w Hw. destruct (Forall2_lookup_l _ _ _ _ _ Hg Hw) as (w' & ? & ?). eauto.
Qed.

(** X4.  The session tracker is shown the entries above the floor, all of
    them, in the order of the batch, and nothing else; what it flushes then
    goes through a second pass, as the last group of the pool. *)
Theorem fillWriterVectors_tracking ops wv ds :
fillWriterVectors E opts ops wv ds
= st1 ← _deriveOpsAndFillWriterVectors E opts InputOps
          (Some (newSessionUpdateTracker E)) (mkSt ops ds wv ∅ ∅ None);
  match flushAll E (trackAll E opts (newSessionUpdateTracker E) ops) with
  | [] => Some st1
  | newOplogWrites =>
      _deriveOpsAndFillWriterVectors E opts (DerivedOps (length (st_derivedOps st1))) None
        (emplace_back newOplogWrites st1)
  end.
Proof.
unfold fillWriterVectors.
destruct (_deriveOpsAndFillWriterVectors E opts InputOps _ _) as [st1|] eqn:H1; [|done].
simpl.
destruct (_deriveOpsAndFillWriterVectors_exact E opts InputOps _
            (mkSt ops ds wv ∅ ∅ None) _ ops eq_refl H1) as (_ & _ & Ht1 & _).
simpl in Ht1. rewrite Ht1. simpl.
destruct (flushAll E _) as [|w ws]; [done|].
f_equal. unfold back. simpl. rewrite length_app. simpl. f_equal. lia.
Qed.

(** X5.  What a run that returns has checked: every entry above the floor
    has the session id, transaction number and chain fields its branch of
    the loop body reads, and if any entry was routed there is a writer
    (the number of writers is not 0 modulo 2^32). *)
Theorem fillWriterVectors_requires ops wv ds st' :
fillWriterVectors E opts ops wv ds = Some st' →
Forall (required opts) ops
∧ (Exists (λ op, isRouted opts op = true) ops → uint32 (Z.of_nat (length wv)) ≠ 0%Z).
Proof.
intros H. by destruct (fillWriterVectors_exact _ _ _ _ _ _ H) as (_ & _ & _ & ? & ? & _).
Qed.

(** X6.  No entry is lost and none is misplaced: an entry of the batch is
    in a writer vector exactly when it is above the floor and is neither
    buffered, nor a terminal [applyOps], nor a prepared commit in initial
    sync; and then it is in the vector its hash selects, and in no other. *)
Theorem routing_complete ops W ds st' i op :
fillWriterVectors E opts ops (replicate W []) ds = Some st' →
ops !! i = Some op →
(isRouted opts op = true →
   ∃ w, st_writerVectors st' !! workerOf E W op = Some w ∧ (InputOps, i) ∈ w)
∧ (∀ k w, st_writerVectors st' !! k = Some w → (InputOps, i) ∈ w →
     isRouted opts op = true ∧ k = workerOf E W op).
Proof.
intros H Hi. split.
- intros Hr.
  destruct (fillWriterVectors_exact _ _ _ _ _ _ H) as (_ & _ & Hg & _ & HW & _).
  rewrite length_replicate in HW.
  assert (workerOf E W op < length (st_writerVectors st')) as Hlt.
  { rewrite (grows_length _ _ Hg), length_replicate. apply bucket_lt, HW.
    apply Exists_exists. exists op. split; [by eapply list_elem_of_lookup_2|done]. }
  destruct (lookup_lt_is_Some_2 _ _ Hlt) as [w Hw]. exists w. split; [done|].
  apply (input_pointer_iff _ _ _ _ _ _ _ _ _ _ H Hi Hw).
  unfold routedTo. rewrite Hr. simpl. by apply bool_decide_eq_true_2.
- intros k w Hw Hin.
  apply (input_pointer_iff _ _ _ _ _ _ _ _ _ _ H Hi Hw) in Hin.
  unfold routedTo in Hin. apply andb_prop in Hin as [? ?%bool_decide_eq_true_1]. done.
Qed.

(** X7.  A writer vector points to entries of the batch in the order of
    the batch, to each at most once, and no entry of the batch is in two
    vectors. *)
Theorem input_pointers_in_order ops W ds st' k w :
fillWriterVectors E opts ops (replicate W []) ds = Some st' →
st_writerVectors st' !! k = Some w →
StronglySorted lt (inputIdxs w)
∧ (∀ i j, i < j → (InputOps, i) ∈ w → (InputOps, j) ∈ w →
     before w (InputOps, i) (InputOps, j))
∧ (∀ i k' w', st_writerVectors st' !! k' = Some w' →
     (InputOps, i) ∈ w → (InputOps, i) ∈ w' → k' = k).
Proof.
intros H Hw.
pose proof (input_pointers_sorted _ _ _ _ _ _ _ _ H Hw) as Hs.
split_and!; [done| |].
- intros i j Hij Hi Hj. by apply before_of_sorted.
- intros i k' w' Hw' Hi Hi'.
  destruct (fillWriterVectors_spec _ _ _ _ _ _ H) as ((Hlen%Forall2_length & _) & _).
  simpl in Hlen.
  assert (is_Some (ops !! i)) as [op Hop].
  { destruct (fillWriterVectors_fresh _ _ _ _ _ _ H) as (_ & _ & _ & Hidx).
    apply elem_of_inputIdxs in Hi. rewrite (Hidx _ _ Hw) in Hi.
    apply list_elem_of_filter in Hi as [_ Hi%elem_of_seq].
    apply lookup_lt_is_Some. lia. }
  apply (input_pointer_iff _ _ _ _ _ _ _ _ _ _ H Hop Hw) in Hi.
  apply (input_pointer_iff _ _ _ _ _ _ _ _ _ _ H Hop Hw') in Hi'.
  unfold routedTo in *.
  apply andb_prop in Hi as [_ Hi%bool_decide_eq_true_1].
  apply andb_prop in Hi' as [_ Hi'%bool_decide_eq_true_1]. congruence.
Qed.

(** X8.  A batch that lies at or below the floor is a no-op, even with no
    writer vector at all: nothing is routed, marked, buffered or tracked. *)
Theorem fillWriterVectors_below_floor ops wv ds :
Forall (λ op, OpTime_le (getOpTime op) (beginApplyingOpTime opts) = true) ops →
flushAll E (newSessionUpdateTracker E) = [] →
fillWriterVectors E opts ops wv ds
= Some (mkSt ops ds wv ∅ ∅ (Some (newSessionUpdateTracker E))).
Proof.
intros Hall Hfl. unfold fillWriterVectors, _deriveOpsAndFillWriterVectors. simpl.
rewrite (floor_skip E opts InputOps ops).
- rewrite (filter_none (aboveFloor opts ops) (seq 0 (length ops))).
  + simpl. by rewrite Hfl.
  + apply Forall_forall. intros j Hj%elem_of_seq. unfold aboveFloor.
    destruct (ops !! j) as [o|] eqn:Ho; simpl; [|done].
    rewrite Forall_forall in Hall. rewrite Hall; [done|]. by eapply list_elem_of_lookup_2.
- intros i o Hi. exists o. split; [done|apply evolves_refl].
- apply Forall_forall. intros j Hj%elem_of_seq. apply lookup_lt_is_Some. lia.
Qed.

(** X9.  A plain [applyOps] entry is replaced by what
    [ApplyOps::extractOperations] reads from it: the pool gains that list
    as one group (entry by entry equal, up to the capped flag), each writer
    vector gains the pointers to the positions of the group that hash to
    it, in order, whatever their opTime; the transaction buffer is left
    alone and the [applyOps] entry itself is not routed. *)
Theorem applyOps_expansion loc st i op st1 st' :
deref st (loc, i) = Some op →
isPlainApplyOps opts op →
trackSession E op st = Some st1 →
cache_ok E st →
deriveOp E opts loc st i = Some st' →
let v := extractOperations E op in
let g := length (st_derivedOps st1) in
(∃ v', st_derivedOps st' = st_derivedOps st1 ++ [v'] ∧ Forall2 evolves v v')
∧ st_ops st' = st_ops st
∧ st_partialTxnOps st' = st_partialTxnOps st
∧ (∀ k, st_writerVectors st' !! k =
        (λ w, w ++ (pair (DerivedOps g) <$>
                      derivedIdxs E (length (st_writerVectors st)) k v (seq 0 (length v))))
          <$> st_writerVectors st1 !! k).
Proof.
intros Hp (Hfloor & Htype & Hcmd & Hbuf & Hterm & Hnone & Hprev) Htr Hok H.
destruct (trackSession_spec _ _ _ _ Htr) as (Hs1 & Ho1 & Hpt1 & more & Hd1).
pose proof (deref_grow _ _ _ _ _ Ho1 Hd1 Hp) as Hp1.
assert (cache_ok E st1) as Hok1 by (by destruct Hs1 as (_ & _ & Hck & _); apply Hck).
assert (length (st_writerVectors st1) = length (st_writerVectors st)) as HW
  by (by destruct Hs1 as ((_ & _ & ?) & _)).
assert (isCrudOpType op = false) as Hcrud by (unfold isCrudOpType; by rewrite Htype).
assert (emplaceAndAdd E (extractOperations E op) st1 = Some st') as Hm.
{ unfold deriveOp in H. rewrite Hp in H. simpl in H.
  rewrite Hfloor, Htr in H. simpl in H. unfold isBuffered in Hbuf. rewrite Hbuf in H.
  rewrite Hcmd, Hcrud in H. simpl in H. rewrite Hp1 in H. simpl in H.
  rewrite Hterm, Hprev in H.
  destruct Hnone as [Hn|Hn]; rewrite Hn in H; [done|].
  by destruct (getSessionId op). }
apply emplaceAndAdd_spec in Hm as (_ & Ho' & Hpt' & _ & Hd' & Hwv').
simpl. split_and!; [done|congruence|congruence|].
intros k. by rewrite (Hwv' Hok1), routeDerived_lookup, HW.
Qed.

End PartitionFacts.

(** ** The cache of collection properties, and the catalog behind it *)

Section CacheFacts.
Context {T : Type} (E : Externals T).
Implicit Types (st : St T).

(** X10.  A lookup leaves the answer in the cache, so that the next lookup
    of that namespace gives the same answer and changes nothing; other
    namespaces, the entries and the writer vectors are not touched; and on
    a cache that agrees with the catalog the answer is the catalog's. *)
Theorem getCollectionProperties_memo ns st :
let r := getCollectionProperties E ns st in
st_cache r.2 !! ns = Some r.1
∧ getCollectionProperties E ns r.2 = r
∧ (∀ ns', ns' ≠ ns → st_cache r.2 !! ns' = st_cache st !! ns')
∧ r.2 = set_cache (st_cache r.2) st
∧ (cache_ok E st → r.1 = getCollectionPropertiesImpl E ns ∧ cache_ok E r.2).
Proof.
unfold getCollectionProperties.
destruct (st_cache st !! ns) as [props|] eqn:Hc; simpl.
- split_and!; [done|by rewrite Hc|done|by rewrite set_cache_id|].
  intros Hok. split; [exact (Hok _ _ Hc)|done].
- split_and!.
  + by rewrite lookup_insert_eq.
  + by rewrite lookup_insert_eq.
  + intros ns' Hne. by rewrite lookup_insert_ne.
  + done.
  + intros Hok. split; [done|]. intros ns' props'. simpl. rewrite lookup_insert.
    destruct (decide (ns = ns')) as [<-|]; [|intros Hl; exact (Hok _ _ Hl)].
    intros Heq. injection Heq as Heq. by rewrite <- Heq.
Qed.

End CacheFacts.

Section CatalogFacts.
Context {T : Type} (E : Externals T) (opts : Options).

(** X11.  With [getCollectionPropertiesImpl] reading the catalog, an entry
    whose database or collection does not exist is never marked, and, when
    it is a CRUD entry routed on a document-locking engine, it sits in the
    vector chosen by the namespace hash mixed with the hash of its [_id]
    under no collator. *)
Theorem missing_collection_unmarked (databaseHolder : DatabaseHolder) ops W ds st' i op :
fillWriterVectors (overCatalog databaseHolder E) opts ops (replicate W []) ds = Some st' →
ops !! i = Some op →
(databaseHolder !! nss_db (getNss op) = None
 ∨ ∃ db, databaseHolder !! nss_db (getNss op) = Some db ∧ db !! getNss op = None) →
st_ops st' !! i = Some op
∧ (isCrudOpType op = true → supportsDocLocking E = true →
   ∀ k w, st_writerVectors st' !! k = Some w → (InputOps, i) ∈ w →
     k = bucket W (uint32 (MurmurHash3_x86_32 E
                             (uint64 (elementHasher_hash E None (getIdElement op)))
                             (uint32 (hashed_key E (getNss op)))))).
Proof.
intros H Hi Hmiss.
assert (getCollectionPropertiesImpl (overCatalog databaseHolder E) (getNss op)
        = mkCollectionProperties false None) as Hprops.
{ simpl. unfold CachedCollectionProperties.getCollectionPropertiesImpl.
  destruct Hmiss as [->|(db & -> & ->)]; done. }
split.
- destruct (fillWriterVectors_exact _ _ _ _ _ _ H) as (Hops & _).
  specialize (Hops _ _ Hi). rewrite deref_input in Hops. rewrite Hops. f_equal.
  unfold afterPass, isMarkedByPass. rewrite Hprops. simpl. by rewrite andb_false_r.
- intros Hcrud Hdl k w Hw Hin.
  apply (input_pointer_iff _ _ _ _ _ _ _ _ _ _ H Hi Hw) in Hin.
  unfold routedTo in Hin. apply andb_prop in Hin as [_ Hk%bool_decide_eq_true_1].
  rewrite <- Hk. unfold workerOf, routeHash. rewrite Hprops, Hcrud. simpl.
  by rewrite Hdl.
Qed.

End CatalogFacts.

(** ** The transaction numbers of buffered entries *)

Lemma forEach_app {S : Type} (body : S → nat → option S) l1 : ∀ l2 st,
forEach body st (l1 ++ l2) = st1 ← forEach body st l1; forEach body st1 l2.
Proof.
induction l1 as [|i l1 IH]; intros l2 st; simpl; [done|].
destruct (body st i) as [st1|]; simpl; [apply IH|done].
Qed.

Lemma forEach_seq_split {S : Type} (body : S → nat → option S) st s n st' i :
forEach body st (seq s n) = Some st' → s ≤ i < s + n →
∃ sa sb, forEach body st (seq s (i - s)) = Some sa
         ∧ body sa i = Some sb
         ∧ forEach body sb (seq (Datatypes.S i) (s + n - Datatypes.S i)) = Some st'.
Proof.
intros H Hi.
replace n with ((i - s) + Datatypes.S (s + n - Datatypes.S i)) in H by lia.
rewrite seq_app, forEach_app in H.
destruct (forEach body st (seq s (i - s))) as [sa|]; [|done]. simpl in H.
replace (s + (i - s)) with i in H by lia.
destruct (body sa i) as [sb|] eqn:Hb; [|done]. simpl in H.
by exists sa, sb.
Qed.

Section TxnNumbers.
Context {T : Type} (E : Externals T) (opts : Options).
Implicit Types (st : St T) (op : OplogEntry).

(** The loop body on an entry it buffers. *)
Lemma deriveOp_buffered loc st i op st' :
deref st (loc, i) = Some op →
OpTime_le (getOpTime op) (beginApplyingOpTime opts) = false →
isBuffered opts op = true →
deriveOp E opts loc st i = Some st' →
∃ sid, getSessionId op = Some sid
  ∧ (∀ q o, deref st q = Some o → deref st' q = Some o)
  ∧ frontTxn sid (getTxnNumber op) st'
  ∧ (∀ tn, frontTxn sid tn st → tn = getTxnNumber op)
  ∧ (∀ sid' tn, frontTxn sid' tn st → frontTxn sid' tn st').
Proof.
unfold deriveOp, isBuffered. intros Hp Hfloor Hbuf. rewrite Hp. simpl.
rewrite Hfloor. destruct (trackSession E op st) as [st1|] eqn:Htr; simpl; [|done].
destruct (trackSession_spec _ _ _ _ Htr) as (_ & Ho1 & Hpt1 & more & Hd1).
assert (∀ q o, deref st q = Some o → deref st1 q = Some o) as Hkeep
  by (intros q o; by apply (deref_grow _ _ more)).
assert (∀ s, partialTxnList s st1 = partialTxnList s st) as Hl1
  by (intros s; unfold partialTxnList; by rewrite Hpt1).
rewrite Hbuf. destruct (getSessionId op) as [sid|]; simpl; [|done].
intros H. exists sid. split; [done|].
destruct (partialTxnList sid st1) as [|f l] eqn:Hl; simpl in H.
- injection H as <-. split_and!.
  + done.
  + exists (loc, i), [], op. split_and!; [|by apply Hkeep|done].
    unfold partialTxnList. simpl. by rewrite lookup_insert_eq.
  + intros tn (f & l & fop & Hf & _). rewrite <- Hl1, Hl in Hf. done.
  + intros sid' tn (f & l & fop & Hf & Hd & Htn).
    exists f, l, fop. split_and!; [|by apply Hkeep|done].
    unfold partialTxnList. simpl.
    destruct (decide (sid = sid')) as [<-|Hne].
    * rewrite <- Hl1, Hl in Hf. done.
    * rewrite lookup_insert_ne by done. rewrite <- Hl1 in Hf. exact Hf.
- destruct (deref st1 f) as [fop|] eqn:Hf; simpl in H; [|done].
  case_bool_decide as Htxn; [|done]. injection H as <-. split_and!.
  + done.
  + exists f, (l ++ [(loc, i)]), fop. split_and!; [|done|done].
    unfold partialTxnList. simpl. by rewrite lookup_insert_eq.
  + intros tn (f' & l' & fop' & Hf' & Hd' & Htn').
    rewrite <- Hl1, Hl in Hf'. injection Hf' as <- <-.
    apply Hkeep in Hd'. congruence.
  + intros sid' tn (f' & l' & fop' & Hf' & Hd' & Htn').
    destruct (decide (sid = sid')) as [<-|Hne].
    * rewrite <- Hl1, Hl in Hf'. injection Hf' as <- <-.
      exists f, (l ++ [(loc, i)]), fop'. split_and!; [|by apply Hkeep|done].
      unfold partialTxnList. simpl. by rewrite lookup_insert_eq.
    * exists f', l', fop'. split_and!; [|by apply Hkeep|done].
      unfold partialTxnList. simpl. rewrite lookup_insert_ne by done.
      rewrite <- Hl1 in Hf'. exact Hf'.
Qed.

(** A stretch of entries that are skipped or buffered keeps the fronts
    of the buffers. *)
Lemma buffered_stretch loc v : ∀ s st st',
forEach (deriveOp E opts loc) st (seq s (length v)) = Some st' →
(∀ j o, v !! j = Some o → deref st (loc, s + j) = Some o) →
Forall (λ o, OpTime_le (getOpTime o) (beginApplyingOpTime opts) = true
             ∨ isBuffered opts o = true) v →
(∀ q o, deref st q = Some o → deref st' q = Some o)
∧ (∀ sid tn, frontTxn sid tn st → frontTxn sid tn st').
Proof.
induction v as [|o v IH]; intros s st st' H Hv Hall.
- by injection H as <-.
- simpl in H. destruct (deriveOp E opts loc st s) as [st1|] eqn:H1; [|done]. simpl in H.
  apply Forall_cons in Hall as [Ho Hall].
  assert (deref st (loc, s) = Some o) as Hp.
  { rewrite <- (Nat.add_0_r s) at 1. by apply Hv. }
  assert ((∀ q o, deref st q = Some o → deref st1 q = Some o)
          ∧ (∀ sid tn, frontTxn sid tn st → frontTxn sid tn st1)) as [Hk1 Hf1].
  { destruct (OpTime_le (getOpTime o) (beginApplyingOpTime opts)) eqn:Hfloor.
    - rewrite (deriveOp_floor E opts _ _ _ _ Hp Hfloor) in H1. by injection H1 as <-.
    - destruct Ho as [?|Hbuf]; [done|].
      destruct (deriveOp_buffered _ _ _ _ _ Hp Hfloor Hbuf H1) as (sid & _ & ? & _ & _ & ?).
      done. }
  destruct (IH (S s) st1 st' H) as [Hk Hf]; [|done|].
  { intros j o' Hj. replace (S s + j) with (s + S j) by lia. apply Hk1. by apply Hv. }
  split; eauto.
Qed.

(** X12.  Two buffered entries of one session, with nothing but skipped or
    buffered entries between them, carry the same transaction number, or
    the run does not return. *)
Theorem buffered_txn_numbers ops wv ds st' i j a b sid :
fillWriterVectors E opts ops wv ds = Some st' →
i < j → ops !! i = Some a → ops !! j = Some b →
OpTime_le (getOpTime a) (beginApplyingOpTime opts) = false →
OpTime_le (getOpTime b) (beginApplyingOpTime opts) = false →
isBuffered opts a = true → isBuffered opts b = true →
getSessionId a = Some sid → getSessionId b = Some sid →
(∀ m c, i < m < j → ops !! m = Some c →
   OpTime_le (getOpTime c) (beginApplyingOpTime opts) = true ∨ isBuffered opts c = true) →
getTxnNumber a = getTxnNumber b.
Proof.
intros H Hij Ha Hb Hfa Hfb Hba Hbb Hsa Hsb Hmid.
unfold fillWriterVectors in H.
match type of H with (?m ≫= _) = _ => destruct m as [st1|] eqn:H1; [|done] end.
clear H. unfold _deriveOpsAndFillWriterVectors in H1. simpl in H1.
set (st0 := mkSt ops ds wv ∅ ∅ (Some (newSessionUpdateTracker E))) in H1.
assert (j < length ops) as Hj by (by eapply lookup_lt_Some).
apply (forEach_seq_split _ _ _ _ _ i) in H1 as (sa & sb & Hpa & Hpb & H1); [|lia].
apply (forEach_seq_split _ _ _ _ _ j) in H1 as (sc & sd & Hpc & Hpd & _); [|lia].
rewrite Nat.sub_0_r in Hpa.
assert (∀ m o, i ≤ m → ops !! m = Some o → deref sa (InputOps, m) = Some o) as Hsa'.
{ intros m o Hm Ho.
  assert (length (take i ops) = i) as Hlen by (rewrite length_take; lia).
  rewrite <- Hlen in Hpa at 1.
  apply (pass_exact E opts InputOps (take i ops) 0) in Hpa as (_ & Hkeep & _).
  - apply Hkeep; [|done]. intros m' Hm' [= ->]. lia.
  - intros ns props. simpl. by rewrite lookup_empty.
  - intros m' o' Hm'. simpl. apply lookup_take_Some in Hm' as [? _]. done. }
destruct (deriveOp_buffered _ _ _ _ _ (Hsa' i a ltac:(lia) Ha) Hfa Hba Hpb)
  as (sid' & Hsid' & Hkb & Hfront & _).
assert (sid' = sid) as -> by congruence.
assert (length (take (j - S i) (drop (S i) ops)) = j - S i) as Hlen.
{ rewrite length_take, length_drop. lia. }
rewrite <- Hlen in Hpc.
apply (buffered_stretch InputOps _ (S i)) in Hpc as [Hkc Hfc].
- destruct (deriveOp_buffered _ _ _ _ _ (Hkc _ _ (Hkb _ _ (Hsa' j b ltac:(lia) Hb)))
              Hfb Hbb Hpd) as (sid2 & Hsid2 & _ & _ & Heq & _).
  assert (sid2 = sid) as -> by congruence.
  apply Heq. by apply Hfc.
- intros m o Hm. apply lookup_take_Some in Hm as [Hm ?]. rewrite lookup_drop in Hm.
  apply Hkb, Hsa'; [lia|done].
- apply Forall_forall. intros c Hc.
  apply list_elem_of_lookup in Hc as [m Hm].
  apply lookup_take_Some in Hm as [Hm ?]. rewrite lookup_drop in Hm.
  apply (Hmid (S i + m)); [lia|done].
Qed.

End TxnNumbers.

(** ** No pointer is handed out twice *)

Lemma concat_alter_app (p : OperationPtr) k (wv : list (list OperationPtr)) :
k < length wv → concat (alter (λ w, w ++ [p]) k wv) ≡ₚ p :: concat wv.
Proof.
revert k. induction wv as [|w wv IH]; intros k Hk; simpl in *; [lia|].
destruct k as [|k].
- change (((w ++ [p]) ++ concat wv) ≡ₚ p :: w ++ concat wv).
  rewrite <- app_assoc. simpl. by rewrite <- Permutation_middle.
- change ((w ++ concat (alter (λ w, w ++ [p]) k wv)) ≡ₚ p :: w ++ concat wv).
  rewrite IH by lia. by rewrite <- Permutation_middle.
Qed.

Lemma addToWriterVector_concat p hash wv wv' :
addToWriterVector p hash wv = Some wv' → concat wv' ≡ₚ p :: concat wv.
Proof.
intros [Hne ->]%addToWriterVector_Some. apply concat_alter_app. by apply bucket_lt.
Qed.

Section NoDuplicates.
Context {T : Type} (E : Externals T) (opts : Options).
Implicit Types (st : St T) (p q : OperationPtr) (op : OplogEntry).

Lemma gains_refl st : gains st st [].
Proof. split_and!; [done|done|constructor|]. by intros p ?%elem_of_nil. Qed.

Lemma gains_trans st1 st2 st3 n1 n2 :
gains st1 st2 n1 → gains st2 st3 n2 → gains st1 st3 (n2 ++ n1).
Proof.
intros (L1 & P1 & D1 & G1) (L2 & P2 & D2 & G2). split_and!.
- lia.
- rewrite P2, P1. by rewrite app_assoc.
- apply NoDup_app. split_and!; [done| |done].
  intros p Hp2 Hp1. destruct (G1 _ Hp1) as (g & j & -> & ?).
  destruct (G2 _ Hp2) as (g' & j' & [= <- <-] & ?). lia.
- intros p [Hp|Hp]%elem_of_app.
  + destruct (G2 _ Hp) as (g & j & -> & ?). exists g, j. split; [done|lia].
  + destruct (G1 _ Hp) as (g & j & -> & ?). exists g, j. split; [done|lia].
Qed.

Lemma gains_fields st st' :
st_derivedOps st' = st_derivedOps st → st_writerVectors st' = st_writerVectors st →
gains st st' [].
Proof.
intros Hd Hw. split_and!; [by rewrite Hd|by rewrite Hw|constructor|].
by intros p ?%elem_of_nil.
Qed.

Lemma addDerivedOp_concat g st j st' :
addDerivedOp E g st j = Some st' →
length (st_derivedOps st') = length (st_derivedOps st)
∧ concat (st_writerVectors st') ≡ₚ (DerivedOps g, j) :: concat (st_writerVectors st).
Proof.
unfold addDerivedOp. intros H.
destruct (deref st (DerivedOps g, j)) as [op|] eqn:Hp; [|done]. simpl in H.
match type of H with (?m ≫= _) = _ => destruct m as [[hash st1]|] eqn:Hh; [|done] end.
simpl in H.
destruct (addToWriterVector _ _ _) as [wv|] eqn:Hr; [|done]. simpl in H.
injection H as <-.
destruct (hash_phase _ _ _ _ _ _ Hp Hh) as (_ & Hwv & _ & _ & Hlen & _).
apply addToWriterVector_concat in Hr. simpl. by rewrite Hr, Hwv.
Qed.

Lemma addDerivedOps_concat g idxs : ∀ st st',
forEach (addDerivedOp E g) st idxs = Some st' →
length (st_derivedOps st') = length (st_derivedOps st)
∧ concat (st_writerVectors st')
  ≡ₚ (pair (DerivedOps g) <$> idxs) ++ concat (st_writerVectors st).
Proof.
induction idxs as [|j idxs IH]; intros st st' H; simpl in *.
- by injection H as <-.
- destruct (addDerivedOp E g st j) as [st1|] eqn:H1; [|done]. simpl in H.
  destruct (addDerivedOp_concat _ _ _ _ H1) as [L1 P1].
  destruct (IH _ _ H) as [L2 P2]. split; [lia|].
  rewrite P2, P1. by rewrite <- Permutation_middle.
Qed.

Lemma emplaceAndAdd_gains v st st' :
emplaceAndAdd E v st = Some st' →
gains st st' (pair (DerivedOps (length (st_derivedOps st))) <$> seq 0 (length v)).
Proof.
unfold emplaceAndAdd, addDerivedOps. intros H.
assert (back (emplace_back v st) = length (st_derivedOps st)) as Hb.
{ unfold back. simpl. rewrite length_app. simpl. lia. }
rewrite Hb in H. simpl in H.
rewrite lookup_app_r, Nat.sub_diag in H by lia. simpl in H.
apply addDerivedOps_concat in H as [L P]. simpl in L, P.
rewrite length_app in L. simpl in L.
split_and!; [lia|done| |].
- apply NoDup_fmap_2; [by intros ?? [= ?]|apply NoDup_seq].
- intros p (j & -> & _)%list_elem_of_fmap. exists (length (st_derivedOps st)), j.
  split; [done|lia].
Qed.

Lemma trackSession_gains op st st1 :
trackSession E op st = Some st1 → ∃ news, gains st st1 news.
Proof.
unfold trackSession. destruct (st_tracker st) as [tr|].
- destruct (updateSession E tr op) as [[ws|] tr'].
  + intros H%emplaceAndAdd_gains. by eexists.
  + intros [= <-]. exists []. by apply gains_fields.
- intros [= <-]. exists []. apply gains_refl.
Qed.

Lemma materialize_gains op sid st st' :
materialize E op sid st = Some st' → ∃ news, gains st st' news.
Proof.
unfold materialize. destruct (mapM _ _) as [cached|]; [|done]. simpl.
change (emplaceAndAdd E (readTransactionOperationsFromOplogChain E op cached)
          (set_partialTxnOps (<[sid := []]> (st_partialTxnOps st)) st) = Some st'
        → ∃ news, gains st st' news).
intros H%emplaceAndAdd_gains. by eexists.
Qed.

(** One iteration hands out pointers into groups it has just created,
    and at most one pointer to the entry it is at. *)
Lemma deriveOp_gains loc st i st' :
deriveOp E opts loc st i = Some st' →
∃ news r,
  length (st_derivedOps st) ≤ length (st_derivedOps st')
  ∧ NoDup news
  ∧ (∀ p, p ∈ news →
       ∃ g j, p = (DerivedOps g, j)
              ∧ length (st_derivedOps st) ≤ g < length (st_derivedOps st'))
  ∧ (r = [] ∨ r = [(loc, i)])
  ∧ concat (st_writerVectors st') ≡ₚ r ++ news ++ concat (st_writerVectors st).
Proof.
unfold deriveOp. intros H.
destruct (deref st (loc, i)) as [op|] eqn:Hp; [|done]. simpl in H.
destruct (OpTime_le _ _).
{ injection H as <-. exists [], []. split_and!; [done|constructor| |by left|done].
  by intros p ?%elem_of_nil. }
destruct (trackSession E op st) as [st1|] eqn:Htr; [|done]. simpl in H.
destruct (trackSession_gains _ _ _ Htr) as (n1 & G1).
destruct (trackSession_spec _ _ _ _ Htr) as (_ & Ho1 & _ & more & Hd1).
pose proof (deref_grow _ _ _ _ _ Ho1 Hd1 Hp) as Hp1.
destruct (isPartialTransaction op || _).
{ destruct (getSessionId op) as [sid|]; [|done]. simpl in H.
  match type of H with (?m ≫= _) = _ => destruct m as [[|]|]; try done end.
  simpl in H. injection H as <-. exists n1, []. simpl.
  destruct G1 as (L1 & P1 & D1 & F1). split_and!; [done|done|done|by left|done]. }
match type of H with (?m ≫= _) = _ => destruct m as [st2|] eqn:Hab; [|done] end.
simpl in H. apply abort_phase in Hab as (Ho2 & Hd2 & Hwv2 & _ & _).
assert (deref st2 (loc, i) = Some op) as Hp2.
{ eapply (deref_grow st1 st2 []); rewrite ?app_nil_r; eauto. }
match type of H with (?m ≫= _) = _ => destruct m as [[hash st3]|] eqn:Hh; [|done] end.
simpl in H.
destruct (hash_phase _ _ _ _ _ _ Hp2 Hh) as (_ & Hwv3 & _ & _ & Hl3 & op1 & Hp3 & _).
rewrite Hp3 in H. simpl in H.
assert (gains st st3 n1) as G3.
{ destruct G1 as (L1 & P1 & D1 & F1). split_and!.
  - rewrite Hl3, Hd2. done.
  - by rewrite Hwv3, Hwv2.
  - done.
  - intros p Hin. destruct (F1 _ Hin) as (g & j & -> & ?). exists g, j.
    rewrite Hl3, Hd2. done. }
assert (∀ n4, gains st3 st' n4 →
          ∃ news r,
            length (st_derivedOps st) ≤ length (st_derivedOps st')
            ∧ NoDup news
            ∧ (∀ p, p ∈ news →
                 ∃ g j, p = (DerivedOps g, j)
                        ∧ length (st_derivedOps st) ≤ g < length (st_derivedOps st'))
            ∧ (r = [] ∨ r = [(loc, i)])
            ∧ concat (st_writerVectors st') ≡ₚ r ++ news ++ concat (st_writerVectors st))
  as Hfin.
{ intros n4 G4. pose proof (gains_trans _ _ _ _ _ G3 G4) as (L & P & D & F).
  exists (n4 ++ n1), []. split_and!; [done|done|done|by left|done]. }
destruct (isTerminalApplyOps op1).
{ destruct (getSessionId op1) as [sid|], (getTxnNumber op1) as [tn|];
    try (destruct (getPrevWriteOpTimeInTransaction op1); [done|];
         apply emplaceAndAdd_gains in H; by eapply Hfin).
  apply materialize_gains in H as [n4 G4]. by eapply Hfin. }
destruct (isPreparedCommit op1 && _).
{ destruct (getSessionId op1) as [sid|]; [|done]. simpl in H.
  apply materialize_gains in H as [n4 G4]. by eapply Hfin. }
destruct (addToWriterVector _ _ _) as [wv|] eqn:Hr; [|done]. simpl in H.
injection H as <-. apply addToWriterVector_concat in Hr.
destruct G3 as (L & P & D & F).
exists n1, [(loc, i)]. simpl. split_and!; [done|done|done|by right|].
by rewrite Hr, P.
Qed.

(** The pointers a pass over [seq s n] of the vector at [loc] hands out:
    to positions of that stretch, each at most once, and into groups
    created meanwhile. *)
Lemma pass_gains loc n : ∀ s st st',
forEach (deriveOp E opts loc) st (seq s n) = Some st' →
∃ news,
  length (st_derivedOps st) ≤ length (st_derivedOps st')
  ∧ concat (st_writerVectors st') ≡ₚ news ++ concat (st_writerVectors st)
  ∧ NoDup news
  ∧ ∀ p, p ∈ news →
      (p.1 = loc ∧ s ≤ p.2 < s + n)
      ∨ ∃ g j, p = (DerivedOps g, j) ∧ DerivedOps g ≠ loc
               ∧ length (st_derivedOps st) ≤ g < length (st_derivedOps st').
Proof.
induction n as [|n IH]; intros s st st' H; simpl in H.
- injection H as <-. exists []. split_and!; [done|done|constructor|].
  by intros p ?%elem_of_nil.
- destruct (deriveOp E opts loc st s) as [st1|] eqn:H1; [|done]. simpl in H.
  assert (∀ g, loc = DerivedOps g → g < length (st_derivedOps st)) as Hloc.
  { intros g ->. unfold deriveOp in H1.
    destruct (deref st (DerivedOps g, s)) as [op|] eqn:Hp; [|done].
    rewrite deref_derived in Hp.
    destruct (st_derivedOps st !! g) eqn:Hg; [|done]. by eapply lookup_lt_Some. }
  destruct (deriveOp_gains _ _ _ _ H1) as (n1 & r & L1 & D1 & F1 & Hr & P1).
  destruct (IH _ _ _ H) as (n2 & L2 & P2 & D2 & F2).
  exists (n2 ++ r ++ n1). split_and!.
  + lia.
  + rewrite P2, P1. by rewrite <- !app_assoc.
  + apply NoDup_app. split_and!; [done| |].
    * intros p Hp2 [Hp1|Hp1]%elem_of_app.
      -- assert (p = (loc, s)) as ->.
         { destruct Hr as [->| ->]; [by apply elem_of_nil in Hp1|].
           by apply list_elem_of_singleton in Hp1. }
         destruct (F2 _ Hp2) as [[_ ?]|(g & j & [= -> ->] & Hne & _)]; simpl in *; [lia|done].
      -- destruct (F1 _ Hp1) as (g & j & -> & ?).
         destruct (F2 _ Hp2) as [[Hl _]|(g' & j' & [= <- <-] & _ & ?)]; simpl in *; [|lia].
         specialize (Hloc g (eq_sym Hl)). lia.
    * apply NoDup_app. split_and!; [|intros p Hp Hp1|done].
      -- destruct Hr as [->| ->]; [constructor|apply NoDup_singleton].
      -- assert (p = (loc, s)) as ->.
         { destruct Hr as [->| ->]; [by apply elem_of_nil in Hp|].
           by apply list_elem_of_singleton in Hp. }
         destruct (F1 _ Hp1) as (g & j & [= Hl ->] & ?).
         specialize (Hloc g Hl). lia.
  + intros p [Hp|[Hp|Hp]%elem_of_app]%elem_of_app.
    * destruct (F2 _ Hp) as [[? ?]|(g & j & -> & ? & ?)].
      -- left. split; [done|lia].
      -- right. exists g, j. split_and!; [done|done|lia|lia].
    * left. destruct Hr as [->| ->]; [by apply elem_of_nil in Hp|].
      apply list_elem_of_singleton in Hp as ->. simpl. split; [done|lia].
    * destruct (F1 _ Hp) as (g & j & -> & ?). right. exists g, j.
      split_and!; [done| |lia|lia].
      intros Hl. specialize (Hloc g (eq_sym Hl)). lia.
Qed.

(** X13.  Starting from empty writer vectors, no pointer is handed out
    twice: the writer vectors taken together hold no pointer more than
    once, be it into the batch or into the pool. *)
Theorem fillWriterVectors_NoDup ops W ds st' :
fillWriterVectors E opts ops (replicate W []) ds = Some st' →
NoDup (concat (st_writerVectors st')).
Proof.
unfold fillWriterVectors. intros H.
match type of H with (?m ≫= _) = _ => destruct m as [st1|] eqn:H1; [|done] end.
simpl in H. unfold _deriveOpsAndFillWriterVectors in H1. simpl in H1.
apply pass_gains in H1 as (n1 & L1 & P1 & D1 & F1). simpl in L1, P1, F1.
assert (concat (replicate W ([] : list OperationPtr)) = []) as Hnil.
{ clear. induction W; simpl; done. }
rewrite Hnil, app_nil_r in P1.
destruct (st_tracker st1) as [tr|]; [|done]. simpl in H.
destruct (flushAll E tr) as [|w ws]; [injection H as <-; by rewrite P1|].
unfold _deriveOpsAndFillWriterVectors in H. simpl in H.
assert (back (emplace_back (w :: ws) st1) = length (st_derivedOps st1)) as Hback.
{ unfold back. simpl. rewrite length_app. simpl. lia. }
rewrite Hback in H.
rewrite lookup_app_r, Nat.sub_diag in H by lia. simpl in H.
destruct (deriveOp E opts _ _ 0) as [st2|] eqn:H0; [|done]. simpl in H.
assert (forEach (deriveOp E opts (DerivedOps (length (st_derivedOps st1))))
          (mkSt (st_ops st1) (st_derivedOps st1 ++ [w :: ws]) (st_writerVectors st1) ∅ ∅ None)
          (seq 0 (S (length ws))) = Some st') as H2 by (simpl; by rewrite H0).
clear H H0. apply pass_gains in H2 as (n2 & L2 & P2 & D2 & F2).
simpl in L2, P2, F2. rewrite length_app in L2, F2. simpl in L2, F2.
rewrite P2, P1. apply NoDup_app. split_and!; [done| |done].
intros p Hp2 Hp1.
destruct (F1 _ Hp1) as [[Hl _]|(g & j & -> & _ & ?)];
  destruct (F2 _ Hp2) as [[Hl2 _]|(g2 & j2 & Heq & _ & ?)]; simpl in *.
- congruence.
- rewrite Heq in Hl. done.
- injection Hl2 as ->. lia.
- injection Heq as <- <-. lia.
Qed.

End NoDuplicates.

(** ** The order of the transaction buffer *)

Section BufferOrder.
Context {T : Type} (E : Externals T) (opts : Options).

(** X15.  The loop body buffers in the order of the oplog, session by
    session: over a stretch of entries that are each skipped or buffered,
    the buffer of a session gains the pointers to the entries of the
    stretch that are above the floor and of that session, first to last,
    behind what it held; entries of other sessions in between do not
    disturb it. *)
Theorem buffer_in_oplog_order loc sid v : ∀ s (st st' : St T),
forEach (deriveOp E opts loc) st (seq s (length v)) = Some st' →
(∀ j o, v !! j = Some o → deref st (loc, s + j) = Some o) →
Forall (λ o, OpTime_le (getOpTime o) (beginApplyingOpTime opts) = true
             ∨ isBuffered opts o = true) v →
partialTxnList sid st' = partialTxnList sid st ++ bufferedFor opts loc sid s v.
Proof.
induction v as [|o v IH]; intros s st st' H Hv Hall.
- injection H as <-. simpl. by rewrite app_nil_r.
- simpl in H. destruct (deriveOp E opts loc st s) as [st1|] eqn:H1; [|done]. simpl in H.
  apply Forall_cons in Hall as [Ho Hall].
  assert (deref st (loc, s) = Some o) as Hp.
  { rewrite <- (Nat.add_0_r s) at 1. by apply Hv. }
  assert ((∀ q o', deref st q = Some o' → deref st1 q = Some o')
          ∧ partialTxnList sid st1
            = partialTxnList sid st
              ++ (if negb (OpTime_le (getOpTime o) (beginApplyingOpTime opts))
                     && bool_decide (getSessionId o = Some sid)
                  then [(loc, s)] else [])) as [Hk1 Hl1].
  { destruct (OpTime_le (getOpTime o) (beginApplyingOpTime opts)) eqn:Hfloor.
    - rewrite (deriveOp_floor E opts _ _ _ _ Hp Hfloor) in H1. injection H1 as <-.
      simpl. by rewrite app_nil_r.
    - destruct Ho as [?|Hbuf]; [done|].
      destruct (deriveOp_buffered _ _ _ _ _ _ _ Hp Hfloor Hbuf H1) as (sid' & Hsid & Hk & _).
      split; [done|].
      destruct (deriveOp_partial _ _ _ _ _ _ _ _ Hp Hfloor Hbuf Hsid H1) as (st0 & Htr & ->).
      destruct (trackSession_spec _ _ _ _ Htr) as (_ & _ & Hpt & _).
      unfold partialTxnList. simpl. rewrite Hsid.
      destruct (decide (sid' = sid)) as [->|Hne].
      + rewrite lookup_insert_eq, bool_decide_eq_true_2 by done. simpl. by rewrite Hpt.
      + rewrite lookup_insert_ne, bool_decide_eq_false_2 by congruence.
        simpl. by rewrite app_nil_r, Hpt. }
  simpl. rewrite app_assoc, <- Hl1. apply IH; [done| |done].
  intros j o' Hj. replace (S s + j) with (s + S j) by lia. apply Hk1. by apply Hv.
Qed.

End BufferOrder.

(** * The floor, transactions and routing over the whole batch *)

Section BatchFacts.
Context {T : Type} (E : Externals T) (opts : Options).
Implicit Types (st : St T) (p q : OperationPtr) (op : OplogEntry).

Lemma pass_ext loc idxs : ∀ st st',
forEach (deriveOp E opts loc) st idxs = Some st' → ext st st'.
Proof.
induction idxs as [|i idxs IH]; intros st st' H; simpl in H.
- injection H as <-. apply ext_refl.
- destruct (deriveOp E opts loc st i) as [st1|] eqn:H1; [|done]. simpl in H.
  destruct (deriveOp_spec _ _ _ _ _ _ H1) as (op & _ & Hext & _).
  eapply ext_trans; [exact Hext|]. by apply IH.
Qed.

(** The loop body on an entry above the floor: the tracker, then one of
    the three dispositions. *)
Lemma deriveOp_disposed loc st i op st' :
deref st (loc, i) = Some op →
OpTime_le (getOpTime op) (beginApplyingOpTime opts) = false →
cache_ok E st →
deriveOp E opts loc st i = Some st' →
∃ st1, trackSession E op st = Some st1 ∧ disposed E opts loc i op st1 st'.
Proof.
unfold deriveOp. intros Hp Hfloor Hok H. rewrite Hp in H. simpl in H.
rewrite Hfloor in H.
destruct (trackSession E op st) as [st1|] eqn:Htr; [|done]. simpl in H.
exists st1. split; [done|].
destruct (trackSession_spec _ _ _ _ Htr) as (Hs1 & Ho1 & Hpt1 & more & Hd1).
pose proof (deref_grow _ _ _ _ _ Ho1 Hd1 Hp) as Hp1.
assert (cache_ok E st1) as Hok1 by (by destruct Hs1 as (_ & _ & Hck & _); apply Hck).
unfold disposed, isBuffered.
destruct (isPartialTransaction op || _) eqn:Hpart.
{ destruct (getSessionId op) as [sid|] eqn:Hsid; [|done]. simpl in H.
  match type of H with (?m ≫= _) = _ => destruct m as [[|]|]; try done end.
  simpl in H. injection H as <-. exists sid. split_and!; try done.
  unfold partialTxnList at 1. simpl. by rewrite lookup_insert_eq. }
match type of H with (?m ≫= _) = _ => destruct m as [st2|] eqn:Hab; [|done] end.
simpl in H. apply abort_phase in Hab as (Ho2 & Hd2 & Hwv2 & Hc2 & Ht2).
assert (cache_ok E st2) as Hok2 by (unfold cache_ok; by rewrite Hc2).
assert (deref st2 (loc, i) = Some op) as Hp2.
{ eapply (deref_grow st1 st2 []); rewrite ?app_nil_r; eauto. }
match type of H with (?m ≫= _) = _ => destruct m as [[hash st3]|] eqn:Hh; [|done] end.
simpl in H.
destruct (hash_phase _ _ _ _ _ _ Hp2 Hh)
  as (Hs3 & Hwv3 & Hpt3 & Ht3 & Hl3 & op1 & Hp3 & Hev & Hc3).
destruct (Hc3 Hok2) as [-> _].
assert (cache_ok E st3) as Hok3 by (by destruct Hs3 as (_ & _ & Hck & _); apply Hck).
rewrite Hp3 in H. simpl in H.
assert (isTerminalApplyOps op1 = isTerminalApplyOps op
        ∧ isPreparedCommit op1 = isPreparedCommit op) as [Ht Hpc].
{ destruct Hev as [->| ->]; done. }
rewrite Ht, Hpc in H.
assert (length (st_derivedOps st3) = length (st_derivedOps st1)) as Hl by congruence.
assert (st_writerVectors st3 = st_writerVectors st1) as Hwv by congruence.
assert (∀ v st'',
          (∃ v', st_derivedOps st'' = st_derivedOps st3 ++ [v'] ∧ Forall2 evolves v v') →
          (cache_ok E st3 →
           st_writerVectors st'' =
             routeDerived E (length (st_writerVectors st3)) (length (st_derivedOps st3)) v
               (st_writerVectors st3) (seq 0 (length v))) →
          ∃ v0 v', length (st_derivedOps st'') = S (length (st_derivedOps st1))
            ∧ st_derivedOps st'' !! length (st_derivedOps st1) = Some v'
            ∧ Forall2 evolves v0 v'
            ∧ st_writerVectors st'' =
                routeDerived E (length (st_writerVectors st1)) (length (st_derivedOps st1)) v0
                  (st_writerVectors st1) (seq 0 (length v0))) as Hemit.
{ intros v st'' (v' & Hd & Hv) Hr. exists v, v'. split_and!.
  - rewrite Hd, length_app. simpl. lia.
  - by rewrite Hd, <- Hl, lookup_app_r, Nat.sub_diag.
  - done.
  - rewrite (Hr Hok3). by rewrite Hwv, Hl. }
destruct (isTerminalApplyOps op) eqn:Hterm; simpl.
{ destruct (getSessionId op1) as [sid|], (getTxnNumber op1) as [tn|];
    try (destruct (getPrevWriteOpTimeInTransaction op1); [done|];
         apply emplaceAndAdd_spec in H as (_ & _ & _ & _ & Hd & Hr);
         by eapply Hemit).
  apply materialize_spec in H as (cached & _ & _ & _ & _ & _ & Hd & Hr).
  by eapply Hemit. }
destruct (isPreparedCommit op && _) eqn:Hprep.
{ destruct (getSessionId op1) as [sid|]; [|done]. simpl in H.
  apply materialize_spec in H as (cached & _ & _ & _ & _ & _ & Hd & Hr).
  by eapply Hemit. }
destruct (addToWriterVector _ _ _) as [wv|] eqn:Hr; [|done]. simpl in H.
injection H as <-. apply addToWriterVector_Some in Hr as [Hne ->]. simpl.
split_and!.
- by rewrite <- Hwv.
- rewrite Hwv. unfold workerOf. by rewrite (evolves_routeHash _ _ _ Hev).
- done.
Qed.

(** *** Groups of the pool, exactly *)





(** *** The pointers into a group *)

Lemma intoGroup_app g (l1 l2 : list OperationPtr) :
intoGroup g (l1 ++ l2) = intoGroup g l1 ++ intoGroup g l2.
Proof. apply filter_app. Qed.


Lemma intoGroup_none g (w : list OperationPtr) :
(∀ p, p ∈ w → p.1 ≠ DerivedOps g) → intoGroup g w = [].
Proof.
unfold intoGroup. induction w as [|p w IH]; intros H; [done|].
rewrite filter_cons_False by (apply H; left). apply IH. intros q Hq. apply H. by right.
Qed.

Lemma routeDerived_intoGroup W g g' v wv idxs k :
g' ≠ g →
intoGroup g <$> (routeDerived E W g' v wv idxs !! k) = intoGroup g <$> (wv !! k).
Proof.
intros Hne. rewrite routeDerived_lookup. destruct (wv !! k) as [w|]; simpl; [|done].
f_equal. rewrite intoGroup_app, (intoGroup_none g (pair (DerivedOps g') <$> _));
  [by rewrite app_nil_r|].
intros p (j & -> & _)%list_elem_of_fmap. simpl. congruence.
Qed.

Lemma trackSession_keeps op st st1 g k :
trackSession E op st = Some st1 → cache_ok E st → g < length (st_derivedOps st) →
intoGroup g <$> (st_writerVectors st1 !! k) = intoGroup g <$> (st_writerVectors st !! k).
Proof.
unfold trackSession. destruct (st_tracker st) as [tr|]; [|by intros [= <-]].
destruct (updateSession E tr op) as [[ws|] tr']; simpl; [|by intros [= <-]].
intros H Hok Hg. apply emplaceAndAdd_spec in H as (_ & _ & _ & _ & _ & Hwv).
rewrite (Hwv Hok). simpl. apply routeDerived_intoGroup. lia.
Qed.

(** An iteration adds no pointer into a group that is in the pool
    already, other than the one it scans. *)
Lemma deriveOp_keeps loc st i st' g k :
deriveOp E opts loc st i = Some st' → cache_ok E st →
g < length (st_derivedOps st) → loc ≠ DerivedOps g →
intoGroup g <$> (st_writerVectors st' !! k) = intoGroup g <$> (st_writerVectors st !! k).
Proof.
intros H Hok Hg Hloc.
destruct (deriveOp_spec _ _ _ _ _ _ H) as (op & Hp & _).
destruct (OpTime_le (getOpTime op) (beginApplyingOpTime opts)) eqn:Hfloor.
{ rewrite (deriveOp_floor E opts _ _ _ _ Hp Hfloor) in H. by injection H as <-. }
destruct (deriveOp_disposed _ _ _ _ _ Hp Hfloor Hok H) as (st1 & Htr & Hdis).
rewrite <- (trackSession_keeps _ _ _ g k Htr Hok Hg).
destruct (trackSession_spec _ _ _ _ Htr) as (_ & _ & _ & more & Hd1).
assert (g < length (st_derivedOps st1)) by (rewrite Hd1, length_app; lia).
unfold disposed in Hdis.
destruct (isBuffered opts op).
{ by destruct Hdis as (sid & _ & _ & -> & _). }
destruct (isTerminalApplyOps op || _).
{ destruct Hdis as (v & v' & _ & _ & _ & ->). apply routeDerived_intoGroup. lia. }
destruct Hdis as (_ & -> & _). rewrite list_lookup_alter.
destruct (decide _) as [<-|?]; [|done].
destruct (st_writerVectors st1 !! _) as [w|]; simpl; [|done]. f_equal.
rewrite intoGroup_app, (intoGroup_none g [(loc, i)]); [by rewrite app_nil_r|].
by intros p ->%list_elem_of_singleton.
Qed.

Lemma pass_keeps loc g k idxs : ∀ st st',
forEach (deriveOp E opts loc) st idxs = Some st' → cache_ok E st →
g < length (st_derivedOps st) → loc ≠ DerivedOps g →
intoGroup g <$> (st_writerVectors st' !! k) = intoGroup g <$> (st_writerVectors st !! k).
Proof.
induction idxs as [|i idxs IH]; intros st st' H Hok Hg Hloc; simpl in H.
- by injection H as <-.
- destruct (deriveOp E opts loc st i) as [st1|] eqn:H1; [|done]. simpl in H.
  rewrite <- (deriveOp_keeps _ _ _ _ g k H1 Hok Hg Hloc).
  destruct (deriveOp_spec _ _ _ _ _ _ H1) as (op & _ & (_ & Hpool & _) & Hck & _).
  apply IH; [done|by apply Hck| |done].
  destruct (lookup_lt_is_Some_2 _ _ Hg) as [v Hv].
  destruct (Hpool _ _ Hv) as (v' & Hv' & _). by eapply lookup_lt_Some.
Qed.

(** *** The transaction buffer of one session *)








(** The states in which the first pass of [fillWriterVectors] reaches and
    leaves position [i] of the batch. *)
Lemma fillWriterVectors_reaches ops wv ds st' i op :
fillWriterVectors E opts ops wv ds = Some st' → ops !! i = Some op →
∃ sa sb,
  forEach (deriveOp E opts InputOps)
    (mkSt ops ds wv ∅ ∅ (Some (newSessionUpdateTracker E))) (seq 0 i) = Some sa
  ∧ deriveOp E opts InputOps sa i = Some sb
  ∧ cache_ok E sa
  ∧ st_tracker sa = Some (trackAll E opts (newSessionUpdateTracker E) (take i ops))
  ∧ (∀ j o, i ≤ j → ops !! j = Some o → deref sa (InputOps, j) = Some o)
  ∧ (∀ g j o, ds !! g ≫= (.!! j) = Some o → deref sa (DerivedOps g, j) = Some o)
  ∧ length ds ≤ length (st_derivedOps sa)
  ∧ grows wv (st_writerVectors sa)
  ∧ grows (st_writerVectors sb) (st_writerVectors st')
  ∧ (∀ q o, q.1 ≠ InputOps → deref sb q = Some o → deref st' q = Some o)
  ∧ ext sb st'
  ∧ (∀ j o, j < i → ops !! j = Some o →
       deref sa (InputOps, j) = Some (afterPass E opts o))
  ∧ (routed_ok E (mkSt ops ds wv ∅ ∅ (Some (newSessionUpdateTracker E))) → routed_ok E sa)
  ∧ (∀ g k, g < length (st_derivedOps sb) →
       intoGroup g <$> (st_writerVectors st' !! k)
       = intoGroup g <$> (st_writerVectors sb !! k)).
Proof.
intros Hfill Hi.
destruct (fillWriterVectors_exact _ _ _ _ _ _ Hfill) as (_ & _ & _ & _ & _ & st1 & H1 & _ & H2).
unfold _deriveOpsAndFillWriterVectors in H1. simpl in H1.
pose proof (lookup_lt_Some _ _ _ Hi) as Hlt.
destruct (forEach_seq_split _ _ _ _ _ i H1) as (sa & sb & Ha & Hb & Hc); [lia|].
rewrite Nat.sub_0_r in Ha. simpl in Hc.
set (st0 := mkSt ops ds wv ∅ ∅ (Some (newSessionUpdateTracker E))) in *.
assert (length (take i ops) = i) as Hlen by (rewrite length_take; lia).
destruct (pass_exact E opts InputOps (take i ops) 0 st0 sa)
  as (Ha1 & Ha2 & Ha3 & _ & _ & Ha6 & Ha7).
{ by rewrite Hlen. }
{ intros ns props. simpl. by rewrite lookup_empty. }
{ intros j o Hj. apply lookup_take_Some in Hj as [Hj _]. exact Hj. }
assert (∀ j o, i ≤ j → ops !! j = Some o → deref sa (InputOps, j) = Some o) as Htodo.
{ intros j o Hij Hj. apply Ha2; [|exact Hj]. intros j' Hj' [= ->]. lia. }
destruct (deriveOp_exact E opts _ _ _ _ _ Hb (Htodo _ _ (le_n i) Hi) Ha7)
  as (_ & Hb2 & _ & _ & _ & _).
destruct (deriveOp_spec _ _ _ _ _ _ Hb) as (? & _ & Hextb & Hckb & _).
assert (length (drop (S i) ops) = length ops - S i) as Hlen' by apply length_drop.
destruct (pass_exact E opts InputOps (drop (S i) ops) (S i) sb st1)
  as (_ & Hc2 & _ & _ & _ & Hc6 & _).
{ by rewrite Hlen'. }
{ by apply Hckb. }
{ intros j o Hj. rewrite lookup_drop in Hj. apply Hb2; [intros [= ?]; lia|].
  apply Htodo; [lia|done]. }
assert (ext sb st1) as Hext1 by (by eapply pass_ext).
assert (∀ q o, q.1 ≠ InputOps → deref sb q = Some o → deref st1 q = Some o) as Hk1.
{ intros q o Hq. apply Hc2. intros j _ ->. by apply Hq. }
assert (grows (st_writerVectors st1) (st_writerVectors st')
        ∧ (∀ q o, q.1 ≠ InputOps → deref st1 q = Some o → deref st' q = Some o)
        ∧ ext st1 st'
        ∧ (∀ g k, g < length (st_derivedOps st1) →
             intoGroup g <$> (st_writerVectors st' !! k)
             = intoGroup g <$> (st_writerVectors st1 !! k))) as (Hg2 & Hk2 & Hext2 & Hkeep2).
{ destruct (flushAll E _) as [|w ws];
    [subst st'; split_and!; [apply grows_refl|done|apply ext_refl|done]|].
  remember (w :: ws) as fl eqn:Hfl. clear Hfl.
  assert (vecAt (emplace_back fl st1) (DerivedOps (length (st_derivedOps st1)))
          = Some fl) as Hvec.
  { unfold vecAt, emplace_back. cbn [st_derivedOps].
    by rewrite lookup_app_r, Nat.sub_diag by lia. }
  destruct (_deriveOpsAndFillWriterVectors_exact _ _ _ _ _ _ fl Hvec H2)
    as (_ & Hk & _ & _ & _ & Hg).
  destruct (_deriveOpsAndFillWriterVectors_spec _ _ _ _ _ _ H2) as (_ & _ & Hext & _).
  split_and!.
  - exact Hg.
  - intros q o _ Hq. apply Hk; [|by apply deref_emplace_back].
    destruct q as [[|g] j]; simpl; [done|]. intros [= ->].
    rewrite deref_derived in Hq. by rewrite lookup_ge_None_2 in Hq.
  - eapply ext_trans; [apply ext_emplace_back|exact Hext].
  - intros g k Hg'. unfold _deriveOpsAndFillWriterVectors in H2.
    change (vecAt (mkSt (st_ops (emplace_back fl st1)) (st_derivedOps (emplace_back fl st1))
                     (st_writerVectors (emplace_back fl st1)) ∅ ∅ None)
              (DerivedOps (length (st_derivedOps st1))))
      with (vecAt (emplace_back fl st1) (DerivedOps (length (st_derivedOps st1)))) in H2.
    rewrite Hvec in H2. cbn [mbind option_bind] in H2.
    apply (pass_keeps _ g k) in H2; [exact H2| | |].
    + intros ns props. simpl. by rewrite lookup_empty.
    + simpl. rewrite length_app. lia.
    + intros [= Heq]. lia. }
assert (st_tracker sa = Some (trackAll E opts (newSessionUpdateTracker E) (take i ops)))
  as Htr by (by rewrite Ha3).
assert (∀ g j o, ds !! g ≫= (.!! j) = Some o → deref sa (DerivedOps g, j) = Some o) as Hds.
{ intros g j o Hd. apply Ha2; [by intros j' _ [=]|]. by rewrite deref_derived. }
assert (length ds ≤ length (st_derivedOps sa)) as Hlds.
{ apply pass_ext in Ha as (_ & Hpool & _). simpl in Hpool.
  destruct (decide (length ds ≤ length (st_derivedOps sa))) as [|Hn]; [done|].
  destruct (lookup_lt_is_Some_2 ds (length (st_derivedOps sa))) as [v Hv]; [lia|].
  destruct (Hpool _ _ Hv) as (v' & Hv' & _). apply lookup_lt_Some in Hv'. lia. }
assert (grows (st_writerVectors sb) (st_writerVectors st')) as Hgb
  by (by eapply grows_trans).
assert (∀ q o, q.1 ≠ InputOps → deref sb q = Some o → deref st' q = Some o) as Hkb.
{ intros q o Hq Hd. apply Hk2; [done|]. by apply Hk1. }
assert (ext sb st') as Hextb' by (by eapply ext_trans).
assert (∀ j o, j < i → ops !! j = Some o →
          deref sa (InputOps, j) = Some (afterPass E opts o)) as Hdone.
{ intros j o Hj Ho. apply (Ha1 j). by rewrite lookup_take_lt. }
assert (routed_ok E st0 → routed_ok E sa) as Hro.
{ destruct (pass_loop E opts InputOps (length wv) ops (seq 0 i) st0 sa Ha)
    as (_ & _ & Hr & _); [| | | |exact Hr].
  - intros ns props. simpl. by rewrite lookup_empty.
  - done.
  - intros j o Hj. exists o. split; [done|apply evolves_refl].
  - apply Forall_forall. intros j Hj%elem_of_seq. apply lookup_lt_is_Some. lia. }
assert (∀ g k, g < length (st_derivedOps sb) →
          intoGroup g <$> (st_writerVectors st' !! k)
          = intoGroup g <$> (st_writerVectors sb !! k)) as Hkeep.
{ intros g k Hg. rewrite Hkeep2.
  - by apply (pass_keeps _ g k) in Hc; [|by apply Hckb|done|done].
  - destruct Hext1 as (_ & Hpool & _).
    destruct (lookup_lt_is_Some_2 _ _ Hg) as [v Hv].
    destruct (Hpool _ _ Hv) as (v' & Hv' & _). by eapply lookup_lt_Some. }
by exists sa, sb.
Qed.

End BatchFacts.

(** ** The pass on pointers and the pass on values *)

Lemma option_Forall2_bind {A B A' B' : Type} (R : A → B → Prop) (S : A' → B' → Prop)
    (x : option A) (y : option B) (f : A → option A') (g : B → option B') :
option_Forall2 R x y → (∀ a b, R a b → option_Forall2 S (f a) (g b)) →
option_Forall2 S (x ≫= f) (y ≫= g).
Proof. intros [a b HR|] H; simpl; [by apply H|constructor]. Qed.

Lemma option_Forall2_bind_l {A B A' : Type} (R : A → B → Prop) (S : A' → B → Prop)
    (x : option A) (y : option B) (f : A → option A') :
option_Forall2 R x y → (∀ a b, R a b → option_Forall2 S (f a) (Some b)) →
option_Forall2 S (x ≫= f) y.
Proof. intros [a b HR|] H; simpl; [by apply H|constructor]. Qed.

Lemma option_Forall2_impl {A B : Type} (R S : A → B → Prop) (x : option A) (y : option B) :
option_Forall2 R x y → (∀ a b, R a b → S a b) → option_Forall2 S x y.
Proof. intros [a b HR|] H; constructor; auto. Qed.

Section Simulation.
Context {T : Type} (E : Externals T) (opts : Options).
Implicit Types (st : St T) (r : Fill T) (p q : OperationPtr) (op o : OplogEntry).
Implicit Types (todo : OperationPtr → Prop).

Lemma tied_mono todo todo' st st1 r :
tied todo st r →
(∀ p o, holds todo st p o → holds todo' st1 p o) →
st_writerVectors st1 = st_writerVectors st →
st_partialTxnOps st1 = st_partialTxnOps st →
st_tracker st1 = st_tracker st →
tied todo' st1 r.
Proof.
intros (Hw & Hp & Ht) Himp Hwv Hpt Htr. unfold tied. rewrite Hwv, Htr.
split_and!; [| |done].
- eapply Forall2_impl; [exact Hw|]. intros w ws Hws.
  eapply Forall2_impl; [exact Hws|]. exact Himp.
- intros sid. unfold partialTxnList. rewrite Hpt.
  eapply Forall2_impl; [apply Hp|]. exact Himp.
Qed.

Lemma tied_weaken todo todo' st r :
tied todo st r → (∀ p, todo' p → todo p) → tied todo' st r.
Proof.
intros Ht Hsub. eapply tied_mono; [exact Ht| |done|done|done].
intros p o [Hd Hn]. split; [done|]. intros ?. by apply Hn, Hsub.
Qed.

Lemma tied_setPartial todo st r sid l lo :
tied todo st r → Forall2 (holds todo st) l lo →
tied todo (set_partialTxnOps (<[sid := l]> (st_partialTxnOps st)) st) (setPartial sid lo r).
Proof.
intros (Hw & Hp & Ht) Hl. split_and!; [exact Hw| |exact Ht].
intros sid0. unfold partialTxnList, valuePartial. simpl.
destruct (decide (sid0 = sid)) as [->|Hne].
- rewrite !lookup_insert_eq. exact Hl.
- rewrite !lookup_insert_ne by done. apply Hp.
Qed.

Lemma tied_pointees todo st r : tied todo st r → pointees st = Some (fill_writers r).
Proof.
intros (Hw & _). unfold pointees. apply mapM_Some.
eapply Forall2_impl; [exact Hw|]. intros w ws Hws. apply mapM_Some.
eapply Forall2_impl; [exact Hws|]. by intros p o [? _].
Qed.

Lemma valid_not_last st g j o :
deref st (DerivedOps g, j) = Some o → g ≠ length (st_derivedOps st).
Proof.
intros Hd ->. rewrite deref_derived in Hd. by rewrite lookup_ge_None_2 in Hd.
Qed.

(** The hashing phase, in full. *)
Lemma hash_phase_sim p op st :
deref st p = Some op → cache_ok E st →
∃ st1, (if isCrudOpType op
        then processCrudOp E p (uint32 (hashed_key E (getNss op))) (getNss op) st
        else Some (uint32 (hashed_key E (getNss op)), st)) = Some (routeHash E op, st1)
  ∧ st_writerVectors st1 = st_writerVectors st
  ∧ st_partialTxnOps st1 = st_partialTxnOps st
  ∧ st_tracker st1 = st_tracker st
  ∧ length (st_derivedOps st1) = length (st_derivedOps st)
  ∧ cache_ok E st1
  ∧ deref st1 p = Some (markCapped E op)
  ∧ ∀ q o, q ≠ p → deref st q = Some o → deref st1 q = Some o.
Proof.
intros Hp Hok.
destruct (hash_phase_total E p op st Hp) as [[hash st1] Hh].
destruct (hash_phase _ _ _ _ _ _ Hp Hh)
  as ((_ & _ & Hck & _) & Hwv & Hpt & Ht & Hl & op1 & Hp1 & Hev & Hc).
destruct (Hc Hok) as [Hhash _].
destruct (hash_phase_exact E _ _ _ _ _ Hp Hh Hok) as (Hp1' & Hk).
rewrite Hhash, (evolves_routeHash _ _ _ Hev) in Hh.
exists st1. split_and!; try done. by apply Hck.
Qed.

(** Appending a pointer and appending the entry it points to. *)
Lemma route_sim todo p op st r :
tied todo st r → holds todo st p (markCapped E op) →
option_Forall2 (λ wv r', tied todo (set_writerVectors wv st) r')
  (addToWriterVector p (routeHash E op) (st_writerVectors st)) (route E op r).
Proof.
intros (Hw & Hpt & Ht) Hp. unfold addToWriterVector, route.
rewrite <- (Forall2_length _ _ _ Hw).
destruct (decide _); constructor.
split_and!; [| |exact Ht].
- simpl. unfold workerOf, bucket. apply Forall2_alter; [exact Hw|].
  intros w ws _ _ Hws. apply Forall2_app; [exact Hws|]. by constructor.
- exact Hpt.
Qed.

Lemma addDerivedOp_sim todo g s o st r :
(∀ j, ¬ todo (DerivedOps g, j)) →
tied (λ p, todo p ∨ fromOn (DerivedOps g) s p) st r →
cache_ok E st →
deref st (DerivedOps g, s) = Some o →
option_Forall2
  (λ st' r', tied (λ p, todo p ∨ fromOn (DerivedOps g) (S s) p) st' r'
             ∧ cache_ok E st'
             ∧ (∀ q o', q ≠ (DerivedOps g, s) → deref st q = Some o' →
                  deref st' q = Some o'))
  (addDerivedOp E g st s) (route E o r).
Proof.
intros Hfresh Ht Hok Hp. unfold addDerivedOp. rewrite Hp. simpl.
destruct (hash_phase_sim _ _ _ Hp Hok)
  as (st1 & -> & Hwv & Hpt & Htr & _ & Hok1 & Hp1 & Hk1).
simpl.
apply option_Forall2_bind_l
  with (R := λ wv r', tied (λ p, todo p ∨ fromOn (DerivedOps g) (S s) p)
                        (set_writerVectors wv st1) r').
- apply route_sim.
  + eapply tied_mono; [exact Ht| |done|done|done].
    intros p o' [Hd Hn]. split.
    * apply Hk1; [|done]. intros ->. apply Hn. right. by split.
    * intros [?|[? ?]]; apply Hn; [by left|right; split; [done|lia]].
  + split; [done|]. intros [?|[_ ?]]; [by eapply Hfresh|simpl in *; lia].
- intros wv r' Ht'. constructor. split_and!; [done|done|].
  intros q o' Hq Hd. rewrite deref_set_writerVectors. by apply Hk1.
Qed.

Lemma emit_loop_sim todo g : ∀ v s st r,
(∀ j, ¬ todo (DerivedOps g, j)) →
tied (λ p, todo p ∨ fromOn (DerivedOps g) s p) st r →
cache_ok E st →
(∀ j o, v !! j = Some o → deref st (DerivedOps g, s + j) = Some o) →
option_Forall2
  (λ st' r', tied todo st' r' ∧ cache_ok E st'
             ∧ (∀ q o, ¬ fromOn (DerivedOps g) s q → deref st q = Some o →
                  deref st' q = Some o))
  (forEach (addDerivedOp E g) st (seq s (length v))) (routeAll E v r).
Proof.
induction v as [|o v IH]; intros s st r Hfresh Ht Hok Hv.
- constructor. split_and!; [|done|done].
  eapply tied_weaken; [exact Ht|]. intros p ?. by left.
- simpl.
  assert (deref st (DerivedOps g, s) = Some o) as Hp.
  { rewrite <- (Nat.add_0_r s) at 1. by apply Hv. }
  eapply option_Forall2_bind; [by apply addDerivedOp_sim|].
  intros st1 r1 (Ht1 & Hok1 & Hk1).
  eapply option_Forall2_impl; [apply IH; [done|exact Ht1|exact Hok1|]|].
  + intros j o' Hj. replace (S s + j) with (s + S j) by lia.
    apply Hk1; [intros [= ?]; lia|]. by apply Hv.
  + intros st' r' (Ht' & Hok' & Hk'). split_and!; [done|done|].
    intros q o' Hq Hd. apply Hk'.
    * intros [? ?]. apply Hq. split; [done|lia].
    * apply Hk1; [|done]. intros ->. apply Hq. by split.
Qed.

(** A group put into the pool and routed, and its entries routed. *)
Lemma emit_sim todo v st r :
(∀ j, ¬ todo (DerivedOps (length (st_derivedOps st)), j)) →
tied todo st r → cache_ok E st →
option_Forall2
  (λ st' r', tied todo st' r' ∧ cache_ok E st'
             ∧ (∀ q o, deref st q = Some o → deref st' q = Some o))
  (emplaceAndAdd E v st) (routeAll E v r).
Proof.
intros Hfresh Ht Hok. unfold emplaceAndAdd.
assert (back (emplace_back v st) = length (st_derivedOps st)) as Hb.
{ unfold back. simpl. rewrite length_app. simpl. lia. }
rewrite Hb. unfold addDerivedOps.
assert (st_derivedOps (emplace_back v st) !! length (st_derivedOps st) = Some v) as ->.
{ simpl. by rewrite lookup_app_r, Nat.sub_diag by lia. }
cbn [mbind option_bind].
assert (∀ q o, deref st q = Some o →
          ¬ fromOn (DerivedOps (length (st_derivedOps st))) 0 q) as Hold.
{ intros [loc j] o Hd [Hl _]. simpl in Hl. subst loc. by eapply valid_not_last. }
eapply option_Forall2_impl;
  [apply (emit_loop_sim todo (length (st_derivedOps st)) v 0); [done| |exact Hok|]|].
- eapply tied_mono; [exact Ht| |done|done|done].
  intros p o [Hd Hn]. split; [by apply deref_emplace_back|].
  intros [?|?]; [done|]. by eapply Hold.
- intros j o Hj. rewrite <- Hb. simpl. by rewrite deref_back_emplace.
- intros st' r' (Ht' & Hok' & Hk'). split_and!; [done|done|].
  intros q o Hd. apply Hk'; [by eapply Hold|]. by apply deref_emplace_back.
Qed.

Lemma track_sim todo op st r :
(∀ j, ¬ todo (DerivedOps (length (st_derivedOps st)), j)) →
tied todo st r → cache_ok E st →
option_Forall2
  (λ st' r', tied todo st' r' ∧ cache_ok E st'
             ∧ (∀ q o, deref st q = Some o → deref st' q = Some o))
  (trackSession E op st) (askTracker E op r).
Proof.
intros Hfresh Ht Hok. unfold trackSession, askTracker.
pose proof Ht as (Hw & Hp & Htr). rewrite <- Htr.
destruct (st_tracker st) as [tr|]; [|by constructor].
destruct (updateSession E tr op) as [[ws|] tr'].
- apply (emit_sim todo ws (set_tracker (Some tr') st)
           (mkFill (fill_writers r) (fill_partial r) (Some tr'))); [done| |done].
  by split_and!.
- constructor. by split_and!.
Qed.

Lemma materialize_sim todo op sid st r :
(∀ j, ¬ todo (DerivedOps (length (st_derivedOps st)), j)) →
tied todo st r → cache_ok E st →
option_Forall2
  (λ st' r', tied todo st' r' ∧ cache_ok E st'
             ∧ (∀ q o, deref st q = Some o → deref st' q = Some o))
  (materialize E op sid st) (assemble E op sid r).
Proof.
intros Hfresh Ht Hok. unfold materialize, assemble.
assert (mapM (deref st) (partialTxnList sid st) = Some (valuePartial sid r)) as ->.
{ apply mapM_Some. destruct Ht as (_ & Hp & _).
  eapply Forall2_impl; [apply Hp|]. by intros p o [? _]. }
cbn [mbind option_bind].
refine (emit_sim todo (readTransactionOperationsFromOplogChain E op (valuePartial sid r))
          (set_partialTxnOps (<[sid := []]> (st_partialTxnOps st)) st)
          (setPartial sid [] r) Hfresh _ Hok).
apply tied_setPartial; [done|constructor].
Qed.

(** One iteration of the loop and one entry of the scan on values. *)
Lemma step_sim loc v i st r op :
v !! i = Some op → sim E loc v i st r →
option_Forall2 (sim E loc v (S i)) (deriveOp E opts loc st i) (valueStep E opts r op).
Proof.
intros Hi (Ht & Hok & Htodo).
pose proof (Htodo _ _ (le_n i) Hi) as Hp.
assert (∀ p, fromOn loc (S i) p → fromOn loc i p) as Hsub.
{ intros p [? ?]. split; [done|lia]. }
assert (∀ st', deref st' (loc, i) = Some op ∨ deref st' (loc, i) = Some (markCapped E op) →
          ∀ j, ¬ fromOn loc i (DerivedOps (length (st_derivedOps st')), j)) as Hfresh.
{ intros st' Hd j [Hl _]. simpl in Hl. subst loc.
  destruct Hd as [Hd|Hd]; exact (valid_not_last _ _ _ _ Hd eq_refl). }
assert (∀ st' r',
          tied (fromOn loc i) st' r' → cache_ok E st' →
          (∀ q o, q ≠ (loc, i) → deref st q = Some o → deref st' q = Some o) →
          sim E loc v (S i) st' r') as Hnext.
{ intros st' r' Ht' Hok' Hk'. split_and!; [by eapply tied_weaken|done|].
  intros j o Hj Ho. apply Hk'; [intros [= ?]; lia|]. apply Htodo; [lia|done]. }
unfold deriveOp, valueStep. rewrite Hp. cbn [mbind option_bind].
destruct (OpTime_le _ _); [constructor; by apply Hnext|].
eapply option_Forall2_bind; [apply (track_sim (fromOn loc i)); [by apply Hfresh; left|done|done]|].
intros st1 r1 (Ht1 & Hok1 & Hk1).
pose proof (Hk1 _ _ Hp) as Hp1.
unfold isBuffered.
destruct (isPartialTransaction op || _).
{ destruct (getSessionId op) as [sid|]; [|constructor]. cbn [mbind option_bind].
  pose proof Ht1 as (_ & Hpt1 & _). specialize (Hpt1 sid).
  assert (∀ l lo, Forall2 (holds (fromOn loc i) st1) l lo →
            sim E loc v (S i)
              (set_partialTxnOps (<[sid := l ++ [(loc, i)]]> (st_partialTxnOps st1)) st1)
              (setPartial sid (lo ++ [op]) r1)) as Hbuf.
  { intros l lo Hl. split_and!; [|done|].
    - apply tied_setPartial; [by eapply tied_weaken|].
      apply Forall2_app.
      + eapply Forall2_impl; [exact Hl|]. intros p o [? Hn]. split; [done|].
        intros ?. by apply Hn, Hsub.
      + constructor; [|constructor]. split; [done|]. intros [_ ?]. simpl in *. lia.
    - intros j o Hj Ho. apply Hk1. apply Htodo; [lia|done]. }
  destruct Hpt1 as [|f fo l lo [Hf Hn] Hl].
  - constructor. apply (Hbuf [] []). constructor.
  - rewrite Hf. cbn [mbind option_bind]. destruct (bool_decide _); constructor.
    apply (Hbuf (f :: l) (fo :: lo)). by constructor. }
eapply option_Forall2_bind
  with (R := λ st2 r2, tied (fromOn loc i) st2 r2 ∧ cache_ok E st2
                       ∧ deref st2 (loc, i) = Some op
                       ∧ (∀ q o, deref st1 q = Some o → deref st2 q = Some o)).
{ destruct (bool_decide _); [|by constructor].
  destruct (getSessionId op) as [sid|]; constructor.
  split_and!; [|done|done|done]. apply tied_setPartial; [done|constructor]. }
intros st2 r2 (Ht2 & Hok2 & Hp2 & Hk2).
destruct (hash_phase_sim _ _ _ Hp2 Hok2)
  as (st3 & -> & Hwv3 & Hpt3 & Htr3 & Hl3 & Hok3 & Hp3 & Hk3).
cbn [mbind option_bind]. rewrite Hp3. cbn [mbind option_bind].
assert (tied (fromOn loc i) st3 r2) as Ht3.
{ eapply tied_mono; [exact Ht2| |done|done|done].
  intros p o [Hd Hn]. split; [|done]. apply Hk3; [|done].
  intros ->. apply Hn. by split. }
assert (∀ st' r',
          tied (fromOn loc i) st' r' ∧ cache_ok E st'
          ∧ (∀ q o, deref st3 q = Some o → deref st' q = Some o) →
          sim E loc v (S i) st' r') as Hafter.
{ intros st' r' (Ht' & Hok' & Hk'). apply Hnext; [done|done|].
  intros q o Hq Hd. apply Hk', Hk3; [done|]. by apply Hk2, Hk1. }
destruct (isTerminalApplyOps (markCapped E op)).
{ destruct (getSessionId (markCapped E op)) as [sid|],
           (getTxnNumber (markCapped E op)) as [tn|];
    try (destruct (getPrevWriteOpTimeInTransaction (markCapped E op)); [constructor|];
         eapply option_Forall2_impl;
           [apply (emit_sim (fromOn loc i)); [by apply Hfresh; right|done|done]|exact Hafter]).
  eapply option_Forall2_impl;
    [apply (materialize_sim (fromOn loc i)); [by apply Hfresh; right|done|done]|exact Hafter]. }
destruct (isPreparedCommit (markCapped E op) && _).
{ destruct (getSessionId (markCapped E op)) as [sid|]; [|constructor].
  cbn [mbind option_bind].
  eapply option_Forall2_impl;
    [apply (materialize_sim (fromOn loc i)); [by apply Hfresh; right|done|done]|exact Hafter]. }
apply option_Forall2_bind_l
  with (R := λ wv r', tied (fromOn loc (S i)) (set_writerVectors wv st3) r').
- apply route_sim; [by eapply tied_weaken|].
  split; [done|]. intros [_ ?]. simpl in *. lia.
- intros wv r' Ht'. constructor. split_and!; [done|done|].
  intros j o Hj Ho. rewrite deref_set_writerVectors.
  apply Hk3; [intros [= ?]; lia|]. apply Hk2, Hk1. apply Htodo; [lia|done].
Qed.

Lemma pass_sim loc v : ∀ rest i st r,
drop i v = rest → i ≤ length v → sim E loc v i st r →
option_Forall2 (sim E loc v (length v))
  (forEach (deriveOp E opts loc) st (seq i (length rest))) (valuePass E opts r rest).
Proof.
induction rest as [|op rest IH]; intros i st r Hd Hle Hs.
- constructor. apply (f_equal length) in Hd. rewrite length_drop in Hd. simpl in Hd.
  by replace (length v) with i by lia.
- simpl.
  assert (v !! i = Some op) as Hi.
  { rewrite <- (Nat.add_0_r i), <- lookup_drop, Hd. done. }
  eapply option_Forall2_bind; [by apply step_sim|].
  intros st1 r1 Hs1. apply IH; [|by apply lookup_lt_Some in Hi|done].
  replace (S i) with (i + 1) by lia. by rewrite <- drop_drop, Hd.
Qed.

(** C2 (routing determinism).  The entries the writer vectors point to
    after [fillWriterVectors], vector by vector and in the order of each
    vector, are those of the pass on values: each entry that is routed, be
    it of the batch, read from a transaction, extracted from an [applyOps]
    or handed back by the session tracker, sits in the vector its hash
    selects, behind the entries routed before it; and the run fails exactly
    when the pass on values does.  That pass is a function of the batch,
    the number of writers, the options and the answers of the catalog, the
    storage engine, the hashes, the oplog chains and the session tracker;
    so two runs on the same batch return writer vectors that point to the
    same entries at the same worker indices in the same order, or both
    fail, whatever pools they are given. *)
Theorem routing_determinism ops W ds :
fillWriterVectors E opts ops (replicate W []) ds ≫= pointees = valueRun E opts W ops
∧ ∀ ds', fillWriterVectors E opts ops (replicate W []) ds' ≫= pointees
         = fillWriterVectors E opts ops (replicate W []) ds ≫= pointees.
Proof.
assert (∀ ds, fillWriterVectors E opts ops (replicate W []) ds ≫= pointees
              = valueRun E opts W ops) as Hrun;
  [|split; [apply Hrun|intros ds'; by rewrite !Hrun]].
clear ds. intros ds.
unfold fillWriterVectors, valueRun, _deriveOpsAndFillWriterVectors.
cbn [vecAt st_ops st_derivedOps st_writerVectors mbind option_bind].
pose proof (pass_sim InputOps ops ops 0
              (mkSt ops ds (replicate W []) ∅ ∅ (Some (newSessionUpdateTracker E)))
              (mkFill (replicate W []) ∅ (Some (newSessionUpdateTracker E)))
              (drop_0 ops) (Nat.le_0_l _)) as H1.
destruct H1 as [st1 r1 (Ht1 & Hok1 & _)|]; [| |done].
{ split_and!.
  - split_and!; [|by intros sid; constructor|done].
    apply Forall2_replicate. constructor.
  - intros ns props. simpl. by rewrite lookup_empty.
  - intros j o _ Hj. exact Hj. }
pose proof (tied_pointees _ _ _ Ht1) as Hpts1.
destruct Ht1 as (Hw1 & Hp1 & Htr1).
cbn [mbind option_bind]. rewrite <- Htr1.
destruct (st_tracker st1) as [tr|]; [|done]. cbn [mbind option_bind].
destruct (flushAll E tr) as [|w ws]; [exact Hpts1|].
remember (w :: ws) as fl eqn:Hfl. clear Hfl w ws.
assert (back (emplace_back fl st1) = length (st_derivedOps st1)) as Hb.
{ unfold back. simpl. rewrite length_app. simpl. lia. }
rewrite Hb. cbn [vecAt st_ops st_derivedOps st_writerVectors emplace_back].
rewrite lookup_app_r, Nat.sub_diag by lia. cbn [lookup list_lookup mbind option_bind].
pose proof (pass_sim (DerivedOps (length (st_derivedOps st1))) fl fl 0
              (mkSt (st_ops st1) (st_derivedOps st1 ++ [fl]) (st_writerVectors st1) ∅ ∅ None)
              (mkFill (fill_writers r1) ∅ None)
              (drop_0 fl) (Nat.le_0_l _)) as H2.
destruct H2 as [st2 r2 (Ht2 & _)|]; [| |done].
{ split_and!.
  - split_and!; [|by intros sid; constructor|done].
    eapply Forall2_impl; [exact Hw1|]. intros w ws Hws.
    eapply Forall2_impl; [exact Hws|]. intros p o [Hd _]. split.
    + by apply (deref_emplace_back fl).
    + intros [Hl _]. destruct p as [loc j]. simpl in Hl. subst loc.
      by eapply valid_not_last.
  - intros ns props. simpl. by rewrite lookup_empty.
  - intros j o _ Hj. rewrite deref_derived. simpl.
    by rewrite lookup_app_r, Nat.sub_diag by lia. }
simpl. by apply (tied_pointees (fromOn (DerivedOps (length (st_derivedOps st1))) (length fl))).
Qed.

End Simulation.

Section BatchClaims.
Context {T : Type} (E : Externals T) (opts : Options).
Implicit Types (st : St T) (p q : OperationPtr) (op : OplogEntry).

(** C5 (floor filter).  An entry of the batch at or below
    [beginApplyingOpTime] is in no writer vector after [fillWriterVectors];
    the loop body leaves the whole state (store, writer vectors, transaction
    buffer, session tracker, cache) as it was on such an entry; and a pass
    over a vector is the pass over its positions above the floor.  Every
    entry above the floor is processed: the first pass reaches it with the
    session tracker having seen the entries above the floor before it,
    shows it to the tracker, and then buffers it, or puts a group into the
    pool and routes that group, or routes the entry itself; and an entry
    that is routed is, after [fillWriterVectors], in the writer vector its
    hash selects. *)
Theorem floor_filter ops W ds st' :
fillWriterVectors E opts ops (replicate W []) ds = Some st' →
(∀ i op, ops !! i = Some op →
   OpTime_le (getOpTime op) (beginApplyingOpTime opts) = true →
   absent (st_writerVectors st') (InputOps, i))
∧ (∀ loc (st : St T) i op, deref st (loc, i) = Some op →
     OpTime_le (getOpTime op) (beginApplyingOpTime opts) = true →
     deriveOp E opts loc st i = Some st)
∧ (∀ loc tracker (st : St T) v, vecAt st loc = Some v →
     _deriveOpsAndFillWriterVectors E opts loc tracker st
     = forEach (deriveOp E opts loc)
         (mkSt (st_ops st) (st_derivedOps st) (st_writerVectors st) ∅ ∅ tracker)
         (filter (aboveFloor opts v) (seq 0 (length v))))
∧ (∀ i op, ops !! i = Some op →
     OpTime_le (getOpTime op) (beginApplyingOpTime opts) = false →
     ∃ sa st1 sb,
       forEach (deriveOp E opts InputOps)
         (mkSt ops ds (replicate W []) ∅ ∅ (Some (newSessionUpdateTracker E))) (seq 0 i)
       = Some sa
       ∧ st_tracker sa = Some (trackAll E opts (newSessionUpdateTracker E) (take i ops))
       ∧ trackSession E op sa = Some st1
       ∧ st_tracker st1
         = Some (updateSession E
                   (trackAll E opts (newSessionUpdateTracker E) (take i ops)) op).2
       ∧ deriveOp E opts InputOps sa i = Some sb
       ∧ disposed E opts InputOps i op st1 sb)
∧ (∀ i op, ops !! i = Some op → isRouted opts op = true →
     ∃ w, st_writerVectors st' !! workerOf E W op = Some w ∧ (InputOps, i) ∈ w
          ∧ deref st' (InputOps, i) = Some (afterPass E opts op)).
Proof.
intros Hfill. split_and!.
- intros i op Hi Hle k w Hw Hin.
  apply (input_pointer_iff _ _ _ _ _ _ _ _ _ _ Hfill Hi Hw) in Hin.
  unfold routedTo, isRouted in Hin. by rewrite Hle in Hin.
- apply deriveOp_floor.
- intros loc tracker st v Hv. unfold _deriveOpsAndFillWriterVectors.
  change (vecAt (mkSt (st_ops st) (st_derivedOps st) (st_writerVectors st) ∅ ∅ tracker) loc)
    with (vecAt st loc).
  rewrite Hv. simpl. apply floor_skip.
  + intros i o Hi. exists o. split; [|apply evolves_refl].
    change (vecAt st loc ≫= (.!! i) = Some o). by rewrite Hv.
  + apply Forall_forall. intros j Hj%elem_of_seq. apply lookup_lt_is_Some. lia.
- intros i op Hi Hfloor.
  destruct (fillWriterVectors_reaches E opts _ _ _ _ _ _ Hfill Hi)
    as (sa & sb & Ha & Hb & Hok & Htr & Htodo & _).
  pose proof (Htodo _ _ (le_n i) Hi) as Hp.
  destruct (deriveOp_disposed E opts _ _ _ _ _ Hp Hfloor Hok Hb) as (st1 & Ht1 & Hdis).
  exists sa, st1, sb. split_and!; try done.
  destruct (trackSession_exact _ _ _ _ Ht1 Hok) as [-> _]. by rewrite Htr.
- intros i op Hi Hr.
  destruct (fillWriterVectors_exact _ _ _ _ _ _ Hfill) as (Hops & _ & Hg & _ & HW & _).
  rewrite length_replicate in HW.
  assert (workerOf E W op < length (st_writerVectors st')) as Hlt.
  { rewrite (grows_length _ _ Hg), length_replicate. apply bucket_lt, HW.
    apply Exists_exists. exists op. split; [by eapply list_elem_of_lookup_2|done]. }
  destruct (lookup_lt_is_Some_2 _ _ Hlt) as [w Hw]. exists w. split_and!; [done| |by apply Hops].
  apply (input_pointer_iff _ _ _ _ _ _ _ _ _ _ Hfill Hi Hw).
  unfold routedTo. rewrite Hr. simpl. by apply bool_decide_eq_true_2.
Qed.


End BatchClaims.

(** C5 on the floor batch: position 0 (opTime (1,99), floor (1,100)) is in
    no writer vector; position 2 (opTime (1,101)) is in writer vector 0. *)
Lemma floor_filter_witness :
∃ st' w, fillWriterVectors Demo.env Demo.options Demo.floorBatch (replicate 4 []) [] = Some st'
  ∧ absent (st_writerVectors st') (InputOps, 0)
  ∧ st_writerVectors st' !! 0 = Some w ∧ (InputOps, 2) ∈ w.
Proof.
assert (∃ st', fillWriterVectors Demo.env Demo.options Demo.floorBatch (replicate 4 []) []
               = Some st') as [st' Hfill] by (eexists; vm_compute; reflexivity).
destruct (floor_filter Demo.env Demo.options Demo.floorBatch 4 [] st' Hfill)
  as (Hbelow & _ & _ & _ & Habove).
destruct (Habove 2 (Demo.insert "db.c" 101 1) eq_refl eq_refl) as (w & Hw & Hin & _).
exists st', w. split_and!; [done| |exact Hw|done].
by apply (Hbelow 0 (Demo.insert "db.c" 99 1)).
Defined.


(** C2 on the transaction batch, four writers: the table update of
    session 5 and the inner insert of [_id] 1 are in vector 0, that of
    [_id] 2 in vector 1, the insert into the capped [db.log], marked, and
    that of [_id] 4 in vector 3; and the same entries are there when the
    pool holds a group already. *)
Lemma routing_determinism_witness :
valueRun Demo.env Demo.options 4 Demo.txnBatch
= Some [[Demo.tableUpdate (5%Z, mkOpTime 1 104); Demo.insert "db.c" 101 1];
        [Demo.insert "db.c" 102 2];
        [];
        [setForCapped true (Demo.insert "db.log" 103 3); Demo.insert "db.c" 104 4]]
∧ fillWriterVectors Demo.env Demo.options Demo.txnBatch (replicate 4 []) [] ≫= pointees
  = valueRun Demo.env Demo.options 4 Demo.txnBatch
∧ fillWriterVectors Demo.env Demo.options Demo.txnBatch (replicate 4 [])
    [[Demo.insert "db.c" 1 1]] ≫= pointees
  = fillWriterVectors Demo.env Demo.options Demo.txnBatch (replicate 4 []) [] ≫= pointees.
Proof.
split_and!.
- vm_compute; reflexivity.
- exact (proj1 (routing_determinism Demo.env Demo.options Demo.txnBatch 4 [])).
- exact (proj2 (routing_determinism Demo.env Demo.options Demo.txnBatch 4 [])
           [[Demo.insert "db.c" 1 1]]).
Defined.

(** * Further properties of the apply path *)

Section ApplyFacts.
Context {World Database Paths : Type} (A : ApplyEnv World Database Paths).

(** What [writeConflictRetry] hands back is what some attempt produced,
    and that attempt did not end in a write conflict. *)
Lemma writeConflictRetry_Finished {R : Type} (f : World → World * Result R) fuel :
∀ w w' r, writeConflictRetry fuel f w = Finished (w', r) →
  (∃ w0, f w0 = (w', r))
  ∧ ∀ e, r = Thrown e → ex_code e ≠ WriteConflict.
Proof.
induction fuel as [|fuel IH]; intros w w' r; simpl; [done|].
destruct (f w) as [w1 [s|e]] eqn:Hf.
- intros [= <- <-]. split; [by eexists|done].
- case_bool_decide as Hc; [apply IH|].
  intros [= <- <-]. split; [by eexists|]. by intros e' [= <-].
Qed.

Lemma writeConflictRetry_no_invariant {R : Type} (f : World → World * Result R) fuel :
∀ w, writeConflictRetry fuel f w ≠ InvariantFailed.
Proof.
induction fuel as [|fuel IH]; intros w; simpl; [done|].
destruct (f w) as [w1 [s|e]]; [done|]. by case_bool_decide.
Qed.

Lemma finishApply_Finished t op o w' r :
finishApply A t op o = Finished (w', r) →
∃ w0, o = Finished (w0, r).
Proof.
destruct o as [[w0 [s|e]]| |]; simpl; try done.
- pose proof (finishAndLogApply_status A s t op w0) as Hs.
  destruct (finishAndLogApply A s t op w0) as [w1 s1]. simpl in Hs. subst s1.
  intros [= <- <-]. by eexists.
- intros [= <- <-]. by eexists.
Qed.

Lemma finishApply_no_invariant t op o :
o ≠ InvariantFailed → finishApply A t op o ≠ InvariantFailed.
Proof.
destruct o as [[w0 [s|e]]| |]; simpl; try done.
by destruct (finishAndLogApply A s t op w0).
Qed.

Lemma applyOp_Returned op m db w w' status :
applyOp A op m db w = (w', Returned status) → code status ≠ WriteConflict.
Proof.
unfold applyOp.
destruct (applyOperation_inlock A db op _ m w) as [w2 [s|e]]; [|done].
destruct (negb (isOK s) && bool_decide (code s = WriteConflict)) eqn:Hc; [done|].
intros [= <- <-] Hwc. rewrite bool_decide_eq_true_2 in Hc by done.
unfold isOK in Hc. rewrite bool_decide_eq_false_2 in Hc; [done|]. by rewrite Hwc.
Qed.

Lemma crudTry_Returned op m w w' status :
crudTry A op m w = (w', Returned status) → code status ≠ WriteConflict.
Proof.
unfold crudTry.
destruct (autoGetCollection A _ _ w) as [w1 [[db|]|e]]; [|done|done].
apply applyOp_Returned.
Qed.

Lemma crudAttempt_Returned op m w w' status :
crudAttempt A op m w = (w', Returned status) → code status ≠ WriteConflict.
Proof.
unfold crudAttempt.
destruct (crudTry A op m w) as [w1 [s|e]] eqn:Htry.
- intros [= <- <-]. by eapply crudTry_Returned.
- destruct (bool_decide (ex_code e = NamespaceNotFound)); [|done].
  destruct (_ || _); [|done]. by intros [= <- <-].
Qed.

(** X16.  [syncApply] lets no write conflict out: an exception it throws
    never has the code [WriteConflict], whatever the entry, and for a CRUD
    entry a status it returns never has that code either. *)
Theorem syncApply_no_WriteConflict fuel opCtx op oplogApplicationMode w w' r :
syncApply A fuel opCtx op oplogApplicationMode w = Finished (w', r) →
match r with
| Thrown e => ex_code e ≠ WriteConflict
| Returned status => isCrudOpType op = true → code status ≠ WriteConflict
end.
Proof.
unfold syncApply. destruct (_ || _); [done|].
unfold isCrudOpType.
destruct (getOpType op);
  try (intros (w0 & Hr)%finishApply_Finished;
       apply writeConflictRetry_Finished in Hr as [(w1 & Hf) Hne];
       destruct r as [status|e]; [|by apply Hne]; try done;
       intros _; by eapply crudAttempt_Returned).
intros [= <- <-]. done.
Qed.

Lemma syncApply_attempt fuel opCtx op oplogApplicationMode w :
writesAreReplicated opCtx = false → documentValidationDisabled opCtx = true →
getOpType op ≠ kNoop →
syncApply A fuel opCtx op oplogApplicationMode w
= finishApply A (now A w) op
    (writeConflictRetry fuel (attempt A op oplogApplicationMode) w).
Proof.
intros Hw Hv Hn. unfold syncApply, attempt, isCrudOpType. rewrite Hw, Hv. simpl.
by destruct (getOpType op).
Qed.

(** X17.  Write conflicts are not seen from outside: after [k] attempts
    that ended in a write conflict, [syncApply] ends as the next attempt
    ends, and the time an apply took is counted from before the first
    attempt. *)
Theorem syncApply_after_conflicts fuel k opCtx op oplogApplicationMode w wk w' r :
writesAreReplicated opCtx = false → documentValidationDisabled opCtx = true →
getOpType op ≠ kNoop →
conflictsFor k (attempt A op oplogApplicationMode) w = Some wk →
attempt A op oplogApplicationMode wk = (w', r) →
(∀ e, r = Thrown e → ex_code e ≠ WriteConflict) →
k < fuel →
syncApply A fuel opCtx op oplogApplicationMode w
= finishApply A (now A w) op (Finished (w', r)).
Proof.
intros Hw Hv Hn Hk Hat Hr Hfuel.
rewrite syncApply_attempt by done. f_equal.
replace fuel with (k + S (fuel - S k)) by lia.
rewrite (writeConflictRetry_conflicts _ _ _ _ _ Hk). simpl. rewrite Hat.
destruct r as [s|e]; [done|].
rewrite bool_decide_eq_false_2; [done|]. by apply Hr.
Qed.

(** X18.  The slow-op report changes no outcome: what [syncApply] returns
    or throws for an entry that is not a no-op is what the retry loop ended
    with, and the world differs from the one the loop left by at most one
    log line, written only for an OK status that took longer than
    [slowMS]. *)
Theorem syncApply_outcome_kept fuel opCtx op oplogApplicationMode w w' r :
getOpType op ≠ kNoop →
syncApply A fuel opCtx op oplogApplicationMode w = Finished (w', r) →
∃ w0, writeConflictRetry fuel (attempt A op oplogApplicationMode) w = Finished (w0, r)
  ∧ (w' = w0
     ∨ ∃ status msg, r = Returned status ∧ isOK status = true
         ∧ (slowMS A < now A w0 - now A w)%Z ∧ w' = log A msg w0).
Proof.
intros Hn. unfold syncApply. destruct (_ || _); [done|].
assert (∀ o, finishApply A (now A w) op o = Finished (w', r) →
          ∃ w0, o = Finished (w0, r)
            ∧ (w' = w0
               ∨ ∃ status msg, r = Returned status ∧ isOK status = true
                   ∧ (slowMS A < now A w0 - now A w)%Z ∧ w' = log A msg w0)) as Hfin.
{ intros [[w0 [s|e]]| |]; simpl; try done.
  - unfold finishAndLogApply. destruct (isOK s) eqn:Hok.
    + destruct (slowMS A <? now A w0 - now A w)%Z eqn:Hslow.
      * intros [= <- <-]. exists w0. split; [done|]. right.
        eexists s, _. split_and!; [done|done| |done]. by apply Z.ltb_lt.
      * intros [= <- <-]. exists w0. split; [done|by left].
    + intros [= <- <-]. exists w0. split; [done|by left].
  - intros [= <- <-]. exists w0. split; [done|by left]. }
unfold attempt, isCrudOpType. destruct (getOpType op); try done; apply Hfin.
Qed.

End ApplyFacts.

Section WorkerFacts.
Context {World Database Paths : Type} (A : ApplyEnv World Database Paths).

Lemma syncApply_no_invariant fuel op m w :
syncApply A fuel (mkOperationContext false true) op m w ≠ InvariantFailed.
Proof.
unfold syncApply. simpl.
destruct (getOpType op); try done;
  apply finishApply_no_invariant, writeConflictRetry_no_invariant.
Qed.

Lemma applyLoop_no_invariant fuel opts ops : ∀ skip w,
applyLoop A fuel (mkOperationContext false true) opts skip ops w ≠ InvariantFailed.
Proof.
induction ops as [|entry rest IH]; intros skip w; simpl; [done|].
destruct skip as [|skip]; [|apply IH].
destruct (groupAndApplyInserts A (entry :: rest) (mode opts) w) as [w0 [last|]];
  [apply IH|].
pose proof (syncApply_no_invariant fuel entry (mode opts) w0) as Hs.
destruct (syncApply A fuel _ entry (mode opts) w0) as [[w1 [status|e]]| |]; try done.
- destruct (isOK status); [apply IH|]. destruct (_ && _); [apply IH|done].
- destruct (_ && _); [apply IH|done].
Qed.

(** X19.  The only invariant a worker that was given a [SyncTail] can
    trip is the one on its multikey path vector, and only once its loop
    has reached the end of the vector: the invariants at the top of
    [syncApply] hold in the context [multiSyncApply] sets up. *)
Theorem multiSyncApply_InvariantFailed {P : Type} (entryAt : P → OplogEntry) fuel opts
    (ops : list P) (workerMultikeyPathInfo : list Paths) w :
multiSyncApply A entryAt fuel opts ops workerMultikeyPathInfo w = InvariantFailed ↔
workerMultikeyPathInfo ≠ []
∧ ∃ w', applyLoop A fuel (mkOperationContext false true) opts 0
          (entryAt <$> stableSortByNamespace entryAt ops) w = Finished (w', None).
Proof.
unfold multiSyncApply.
pose proof (applyLoop_no_invariant fuel opts
              (entryAt <$> stableSortByNamespace entryAt ops) 0 w) as Hni.
destruct (applyLoop A fuel _ opts 0 _ w) as [[w1 [status|]]| |]; try done.
- split; [done|]. by intros (_ & w' & ?).
- destruct workerMultikeyPathInfo as [|x l].
  + split; [done|]. by intros (? & _).
  + split; [|done]. intros _. split; [done|by eexists].
- split; [done|]. by intros (_ & w' & ?).
Qed.

(** X20.  When every entry applies, or fails in a way the worker passes
    over, the worker returns OK. *)
Theorem multiSyncApply_OK {P : Type} (entryAt : P → OplogEntry) fuel opts (ops : list P) w :
(∀ p w0, p ∈ ops →
   ∃ w1 r, syncApply A fuel (mkOperationContext false true) (entryAt p) (mode opts) w0
           = Finished (w1, r)
           ∧ (nonOK r → suppressed opts (entryAt p) r = true)) →
∃ w', multiSyncApply A entryAt fuel opts ops [] w
      = Finished (w', stableSortByNamespace entryAt ops, getMultikeyPathInfo A w', Status_OK).
Proof.
intros Hall. unfold multiSyncApply.
destruct (applyLoop_completes A fuel (mkOperationContext false true) opts
            (entryAt <$> stableSortByNamespace entryAt ops) 0 w) as (w' & ->); [|by eexists].
intros entry w0 (p & -> & Hp)%list_elem_of_fmap. apply Hall.
assert (stableSortByNamespace entryAt ops ≡ₚ ops) as Hperm.
{ unfold stableSortByNamespace. case_bool_decide; [done|].
  by destruct (stable_sort_acc (λ p, getNss (entryAt p)) ops [])
    as (_ & ? & _); [constructor|]. }
by rewrite <- Hperm.
Qed.

(** X21.  After a group of inserts was applied at the cursor, the loop goes
    on behind the last entry of the group. *)
Theorem applyLoop_insert_group fuel opCtx opts ops w w1 last :
ops ≠ [] →
groupAndApplyInserts A ops (mode opts) w = (w1, Some last) →
applyLoop A fuel opCtx opts 0 ops w
= applyLoop A fuel opCtx opts 0 (drop (S last) ops) w1.
Proof.
destruct ops as [|entry rest]; [done|]. intros _ Hg. simpl. rewrite Hg.
apply applyLoop_drop.
Qed.

End WorkerFacts.

(** ** Sorting a sorted vector *)

Section SortedInput.
Context {P : Type} (key : P → string).

Let comp (l r : P) : bool := NamespaceString_lt (key l) (key r).

Lemma stable_insert_last x l :
Forall (λ y, comp x y = false) l → stable_insert comp x l = l ++ [x].
Proof.
induction l as [|y l IH]; [done|]. intros [Hy Hl]%Forall_cons. simpl.
rewrite Hy. by rewrite IH.
Qed.

Lemma stable_sort_sorted l : ∀ acc,
StronglySorted (λ a b, comp b a = false) (acc ++ l) →
foldl (λ sorted x, stable_insert comp x sorted) acc l = acc ++ l.
Proof.
induction l as [|x l IH]; intros acc Hs; simpl; [by rewrite app_nil_r|].
rewrite stable_insert_last.
- rewrite IH; rewrite <- app_assoc; done.
- apply Forall_forall. intros y Hy.
  apply list_elem_of_split in Hy as (l1 & l2 & ->).
  rewrite <- !app_assoc in Hs. apply StronglySorted_app_1_r in Hs.
  apply StronglySorted_cons in Hs as [Hall _].
  rewrite Forall_forall in Hall. apply Hall.
  apply elem_of_app. right. by left.
Qed.

End SortedInput.

(** X22.  A vector that is sorted by namespace (no entry is followed,
    anywhere, by one with a smaller namespace) is left as it is, entries of
    one namespace included. *)
Theorem stableSortByNamespace_sorted {P : Type} (entryAt : P → OplogEntry) (ops : list P) :
StronglySorted (λ a b, nssComparator entryAt b a = false) ops →
stableSortByNamespace entryAt ops = ops.
Proof.
intros Hs. unfold stableSortByNamespace. case_bool_decide; [done|].
exact (stable_sort_sorted (λ p, getNss (entryAt p)) ops [] Hs).
Qed.

(** Sorting twice is sorting once. *)
Lemma stableSortByNamespace_idempotent {P : Type} (entryAt : P → OplogEntry) (ops : list P) :
stableSortByNamespace entryAt (stableSortByNamespace entryAt ops)
= stableSortByNamespace entryAt ops.
Proof.
assert (StronglySorted (λ a b, nssComparator entryAt b a = false)
          (stableSortByNamespace entryAt ops)) as Hs.
{ unfold stableSortByNamespace. case_bool_decide as Hlen.
  - destruct ops; [constructor|simpl in Hlen; lia].
  - by destruct (stable_sort_acc (λ p, getNss (entryAt p)) ops []) as (? & _);
      [constructor|]. }
revert Hs. generalize (stableSortByNamespace entryAt ops). intros l Hs.
unfold stableSortByNamespace. case_bool_decide; [done|].
exact (stable_sort_sorted (λ p, getNss (entryAt p)) l [] Hs).
Qed.

(** ** [parseUUIDOrNs] *)

(** X23.  [parseUUIDOrNs] answers with the entry's own namespace exactly
    when the entry has no UUID, with the catalog's namespace for a UUID the
    catalog knows, and throws [NamespaceNotFound], nothing else, exactly when
    the entry has a UUID the catalog does not know. *)
Theorem parseUUIDOrNs_result (catalog : CollectionCatalog) (oplogEntry : OplogEntry) :
(∀ nss, parseUUIDOrNs catalog oplogEntry = Returned nss ↔
   (getUuid oplogEntry = None ∧ nss = getNss oplogEntry)
   ∨ (∃ uuid, getUuid oplogEntry = Some uuid ∧ catalog !! uuid = Some nss))
∧ (∀ e, parseUUIDOrNs catalog oplogEntry = Thrown e →
     ex_code e = NamespaceNotFound)
∧ ((∃ e, parseUUIDOrNs catalog oplogEntry = Thrown e) ↔
   ∃ uuid, getUuid oplogEntry = Some uuid ∧ catalog !! uuid = None).
Proof.
unfold parseUUIDOrNs.
destruct (getUuid oplogEntry) as [uuid|]; [destruct (catalog !! uuid) as [ns|] eqn:Hc|].
- split_and!.
  + intros nss. split.
    * intros [= <-]. right. by exists uuid.
    * intros [[? _]|(u & [= <-] & Hu)]; [done|]. congruence.
  + done.
  + split; [by intros [e ?]|]. intros (u & [= <-] & Hu). congruence.
- split_and!.
  + intros nss. split; [done|].
    intros [[? _]|(u & [= <-] & Hu)]; [done|]. congruence.
  + by intros e [= <-].
  + split; [|by eexists]. intros _. by exists uuid.
- split_and!.
  + intros nss. split.
    * intros [= <-]. by left.
    * intros [[_ ->]|(u & ? & _)]; done.
  + done.
  + split; [by intros [e ?]|]. by intros (u & ? & _).
Qed.

(** * The further properties on concrete inputs *)

(** The insert into the database that is being dropped meets a write
    conflict, is retried, finds the database gone and, in recovering mode,
    counts as applied: no write conflict comes out of [syncApply]. *)
Lemma syncApply_no_WriteConflict_witness :
syncApply ApplyDemo.env 3 ApplyDemo.opCtx ApplyDemo.insertDropping kRecovering 0
= Finished (1, Returned Status_OK)
∧ (isCrudOpType ApplyDemo.insertDropping = true → code Status_OK ≠ WriteConflict).
Proof.
split; [reflexivity|].
exact (syncApply_no_WriteConflict ApplyDemo.env 3 ApplyDemo.opCtx ApplyDemo.insertDropping
         kRecovering 0 1 (Returned Status_OK) eq_refl).
Defined.

(** Initial sync, an update of a missing document and a delete: whatever
    the world, the update fails in the way the worker passes over and the
    delete applies, so the worker returns OK. *)
Lemma multiSyncApply_OK_witness :
∃ w', multiSyncApply ApplyDemo.env id 3 ApplyDemo.initialSync
        [ApplyDemo.update "db.c" 101 1; Demo.delete "db.c" 102 1] [] 0
      = Finished (w', stableSortByNamespace id
                        [ApplyDemo.update "db.c" 101 1; Demo.delete "db.c" 102 1],
                  getMultikeyPathInfo ApplyDemo.env w', Status_OK).
Proof.
apply (multiSyncApply_OK ApplyDemo.env id 3 ApplyDemo.initialSync
         [ApplyDemo.update "db.c" 101 1; Demo.delete "db.c" 102 1] 0).
intros p w0 Hp.
apply elem_of_cons in Hp as [->|Hp]; [|apply elem_of_cons in Hp as [->|Hp]].
- eexists _, _. split; [reflexivity|]. intros _. reflexivity.
- unfold syncApply, finishApply, finishAndLogApply. simpl.
  destruct (100 <? _)%Z; eexists _, _; (split; [reflexivity|done]).
- by apply elem_of_nil in Hp.
Defined.

(** Three inserts into one collection are applied as a group; the loop
    goes on with the delete behind them. *)
Lemma applyLoop_insert_group_witness :
groupAndApplyInserts GroupDemo.env GroupDemo.batch kInitialSync 0 = (1, Some 2)
∧ applyLoop GroupDemo.env 3 ApplyDemo.opCtx ApplyDemo.initialSync 0 GroupDemo.batch 0
  = applyLoop GroupDemo.env 3 ApplyDemo.opCtx ApplyDemo.initialSync 0
      [Demo.delete "db.c" 104 1] 1.
Proof.
split; [reflexivity|].
exact (applyLoop_insert_group GroupDemo.env 3 ApplyDemo.opCtx ApplyDemo.initialSync
         GroupDemo.batch 0 1 2 ltac:(discriminate) eq_refl).
Defined.

(** A vector sorted by namespace, with two entries of one namespace. *)
Lemma stableSortByNamespace_sorted_witness :
stableSortByNamespace id
  [Demo.insert "a.c" 101 2; Demo.insert "a.c" 102 1; Demo.delete "b.c" 103 1]
= [Demo.insert "a.c" 101 2; Demo.insert "a.c" 102 1; Demo.delete "b.c" 103 1].
Proof.
apply (stableSortByNamespace_sorted id).
repeat (constructor; try reflexivity).
Defined.

(** On the capped batch, the two inserts into [db.log] are marked and the
    two inserts into [db.c] are as they were. *)
Lemma fillWriterVectors_flags_witness :
∃ st', fillWriterVectors Demo.env Demo.options Demo.cappedBatch (Demo.fresh 4) [] = Some st'
  ∧ st_ops st'
    = [setForCapped true (Demo.insert "db.log" 101 1); Demo.insert "db.c" 102 1;
       setForCapped true (Demo.insert "db.log" 103 2); Demo.insert "db.c" 104 2].
Proof.
eexists. split; [vm_compute; reflexivity|].
rewrite (fillWriterVectors_flags Demo.env Demo.options Demo.cappedBatch (Demo.fresh 4) [] _
           ltac:(vm_compute; reflexivity)).
vm_compute; reflexivity.
Defined.

(** The transaction batch, run on a pool that already holds a group: the
    group is still the first of the pool. *)
Lemma fillWriterVectors_pool_witness :
∃ st', fillWriterVectors Demo.env Demo.options Demo.txnBatch (Demo.fresh 4)
         [[Demo.insert "db.log" 50 1]] = Some st'
  ∧ [[Demo.insert "db.log" 50 1]] `prefix_of` st_derivedOps st'.
Proof.
eexists. split; [vm_compute; reflexivity|].
apply (fillWriterVectors_pool Demo.env Demo.options Demo.txnBatch (Demo.fresh 4)
         [[Demo.insert "db.log" 50 1]]).
vm_compute; reflexivity.
Defined.

(** The floor batch, run on writer vectors of which the first already
    holds a pointer: it still starts with that pointer. *)
Lemma fillWriterVectors_appends_witness :
∃ st', fillWriterVectors Demo.env Demo.options Demo.floorBatch
         [[(DerivedOps 0, 0)]; []] [[Demo.insert "db.c" 50 1]] = Some st'
  ∧ length (st_writerVectors st') = 2
  ∧ ∃ w', st_writerVectors st' !! 0 = Some w' ∧ [(DerivedOps 0, 0)] `prefix_of` w'.
Proof.
eexists. split; [vm_compute; reflexivity|].
destruct (fillWriterVectors_appends Demo.env Demo.options Demo.floorBatch
            [[(DerivedOps 0, 0)]; []] [[Demo.insert "db.c" 50 1]] _
            ltac:(vm_compute; reflexivity)) as [Hlen Hpre].
split; [exact Hlen|]. exact (Hpre 0 [(DerivedOps 0, 0)] eq_refl).
Defined.

(** The transaction batch returns, so its entries have what the loop body
    reads, and there is a writer. *)
Lemma fillWriterVectors_requires_witness :
∃ st', fillWriterVectors Demo.env Demo.options Demo.txnBatch (Demo.fresh 4) [] = Some st'
  ∧ Forall (required Demo.options) Demo.txnBatch
  ∧ (Exists (λ op, isRouted Demo.options op = true) Demo.txnBatch →
     uint32 (Z.of_nat (length (Demo.fresh 4))) ≠ 0%Z).
Proof.
eexists. split; [vm_compute; reflexivity|].
eapply (fillWriterVectors_requires Demo.env Demo.options Demo.txnBatch (Demo.fresh 4) []).
vm_compute; reflexivity.
Defined.

(** On the floor batch, position 2 (an insert above the floor) is in the
    writer vector its hash selects. *)
Lemma routing_complete_witness :
∃ st' w, fillWriterVectors Demo.env Demo.options Demo.floorBatch (replicate 4 []) []
         = Some st'
  ∧ isRouted Demo.options (Demo.insert "db.c" 101 1) = true
  ∧ st_writerVectors st' !! workerOf Demo.env 4 (Demo.insert "db.c" 101 1) = Some w
  ∧ (InputOps, 2) ∈ w.
Proof.
destruct (proj1 (routing_complete Demo.env Demo.options Demo.floorBatch 4 []
                   _ 2 (Demo.insert "db.c" 101 1)
                   ltac:(vm_compute; reflexivity) eq_refl) eq_refl) as (w & Hw & Hin).
eexists _, w. split_and!; [vm_compute; reflexivity|reflexivity|exact Hw|exact Hin].
Defined.

(** On the floor batch, writer vector 0 holds positions 2 and 3, in that
    order. *)
Lemma input_pointers_in_order_witness :
∃ st', fillWriterVectors Demo.env Demo.options Demo.floorBatch (replicate 4 []) [] = Some st'
  ∧ st_writerVectors st' !! 0 = Some [(InputOps, 2); (InputOps, 3)]
  ∧ StronglySorted lt (inputIdxs [(InputOps, 2); (InputOps, 3)]).
Proof.
eexists. split_and!; [vm_compute; reflexivity|vm_compute; reflexivity|].
refine (proj1 (input_pointers_in_order Demo.env Demo.options Demo.floorBatch 4 [] _ 0
                 [(InputOps, 2); (InputOps, 3)] _ _)).
- vm_compute; reflexivity.
- vm_compute; reflexivity.
Defined.

(** Two entries at or below the floor and no writer vector at all: the
    run returns and nothing has changed. *)
Lemma fillWriterVectors_below_floor_witness :
fillWriterVectors Demo.env Demo.options
  [Demo.insert "db.c" 99 1; Demo.delete "db.c" 100 1] [] []
= Some (mkSt [Demo.insert "db.c" 99 1; Demo.delete "db.c" 100 1] [] [] ∅ ∅ (Some [])).
Proof.
apply (fillWriterVectors_below_floor Demo.env Demo.options
         [Demo.insert "db.c" 99 1; Demo.delete "db.c" 100 1] [] []).
- repeat constructor.
- reflexivity.
Defined.

(** The [applyOps] entry with two inner inserts: the pool gains the two
    inserts as one group, the one into the capped collection marked. *)
Lemma applyOps_expansion_witness :
∃ st',
  deriveOp Demo.env Demo.options InputOps (Demo.start [CatalogDemo.applyOps] 4) 0 = Some st'
  ∧ isPlainApplyOps Demo.options CatalogDemo.applyOps
  ∧ (∃ v', st_derivedOps st' = [v']
           ∧ Forall2 evolves (extractOperations Demo.env CatalogDemo.applyOps) v')
  ∧ st_ops st' = [CatalogDemo.applyOps].
Proof.
assert (isPlainApplyOps Demo.options CatalogDemo.applyOps) as Hplain.
{ split_and!; try reflexivity. by left. }
assert (cache_ok Demo.env (Demo.start [CatalogDemo.applyOps] 4)) as Hok.
{ intros ns props. simpl. rewrite lookup_empty. discriminate. }
eexists. split; [vm_compute; reflexivity|]. split; [exact Hplain|].
destruct (applyOps_expansion Demo.env Demo.options InputOps
            (Demo.start [CatalogDemo.applyOps] 4) 0 CatalogDemo.applyOps _ _
            eq_refl Hplain ltac:(vm_compute; reflexivity) Hok
            ltac:(vm_compute; reflexivity)) as (Hpool & Hops & _).
split; [exact Hpool|exact Hops].
Defined.

(** With the catalog behind the cache, the insert into the collection
    that is not there is not marked. *)
Lemma missing_collection_unmarked_witness :
∃ st', fillWriterVectors CatalogDemo.env Demo.options CatalogDemo.batch (replicate 4 []) []
       = Some st'
  ∧ st_ops st' !! 1 = Some (Demo.insert "db.gone" 102 1).
Proof.
eexists. split; [vm_compute; reflexivity|].
apply (missing_collection_unmarked Demo.env Demo.options CatalogDemo.holder
         CatalogDemo.batch 4 [] _ 1 (Demo.insert "db.gone" 102 1)).
- vm_compute; reflexivity.
- reflexivity.
- right. eexists. split; vm_compute; reflexivity.
Defined.

(** On the transaction batch, the partial entries at positions 0 and 2
    are of session 5, and carry the same transaction number. *)
Lemma buffered_txn_numbers_witness :
∃ st', fillWriterVectors Demo.env Demo.options Demo.txnBatch (Demo.fresh 4) [] = Some st'
  ∧ getTxnNumber (Demo.partialTxn 5 7 101 [("db.c"%string, NumberLong 1)])
    = getTxnNumber (Demo.partialTxn 5 7 103 [("db.log"%string, NumberLong 3)]).
Proof.
eexists. split; [vm_compute; reflexivity|].
apply (buffered_txn_numbers Demo.env Demo.options Demo.txnBatch (Demo.fresh 4) [] _ 0 2
         _ _ 5%Z ltac:(vm_compute; reflexivity) ltac:(lia) eq_refl eq_refl
         eq_refl eq_refl eq_refl eq_refl eq_refl eq_refl).
intros m c Hm Hc. assert (m = 1) as -> by lia.
injection Hc as <-. by right.
Defined.

(** On the transaction batch, three partial entries, then the terminal
    one and the session table update it triggers: five pointers handed
    out, all different. *)
Lemma fillWriterVectors_NoDup_witness :
∃ st', fillWriterVectors Demo.env Demo.options Demo.txnBatch (replicate 4 []) [] = Some st'
  ∧ length (concat (st_writerVectors st')) = 5
  ∧ NoDup (concat (st_writerVectors st')).
Proof.
eexists. split_and!; [vm_compute; reflexivity|vm_compute; reflexivity|].
apply (fillWriterVectors_NoDup Demo.env Demo.options Demo.txnBatch 4 []).
vm_compute; reflexivity.
Defined.

(** The insert into the database that is being dropped, in recovering
    mode: one write conflict, then the attempt that counts. *)
Lemma syncApply_after_conflicts_witness :
conflictsFor 1 (attempt ApplyDemo.env ApplyDemo.insertDropping kRecovering) 0 = Some 1
∧ attempt ApplyDemo.env ApplyDemo.insertDropping kRecovering 1 = (1, Returned Status_OK)
∧ syncApply ApplyDemo.env 3 ApplyDemo.opCtx ApplyDemo.insertDropping kRecovering 0
  = finishApply ApplyDemo.env 0 ApplyDemo.insertDropping (Finished (1, Returned Status_OK)).
Proof.
split_and!; [reflexivity|reflexivity|].
exact (syncApply_after_conflicts ApplyDemo.env 3 1 ApplyDemo.opCtx ApplyDemo.insertDropping
         kRecovering 0 1 1 (Returned Status_OK) eq_refl eq_refl ltac:(discriminate)
         eq_refl eq_refl ltac:(discriminate) ltac:(lia)).
Defined.

(** The delete on the demo world: the outcome of the retry loop is the
    outcome of [syncApply]. *)
Lemma syncApply_outcome_kept_witness :
syncApply ApplyDemo.env 3 ApplyDemo.opCtx (Demo.delete "db.c" 102 1) kSecondary 0
= Finished (1, Returned Status_OK)
∧ ∃ w0, writeConflictRetry 3 (attempt ApplyDemo.env (Demo.delete "db.c" 102 1) kSecondary) 0
        = Finished (w0, Returned Status_OK).
Proof.
split; [reflexivity|].
destruct (syncApply_outcome_kept ApplyDemo.env 3 ApplyDemo.opCtx (Demo.delete "db.c" 102 1)
            kSecondary 0 1 (Returned Status_OK) ltac:(discriminate) eq_refl)
  as (w0 & Hw0 & _).
by exists w0.
Defined.

(** Two partial entries of session 5 with different transaction numbers:
    the run does not return. *)
Lemma fillWriterVectors_txn_mismatch :
fillWriterVectors Demo.env Demo.options
  [Demo.partialTxn 5 7 101 [("db.c"%string, NumberLong 1)];
   Demo.partialTxn 5 8 102 [("db.c"%string, NumberLong 2)]] (Demo.fresh 4) []
= None.
Proof. vm_compute; reflexivity. Qed.

(** The capped batch with no writer vector: the run does not return. *)
Lemma fillWriterVectors_no_writer :
fillWriterVectors Demo.env Demo.options Demo.cappedBatch [] [] = None.
Proof. vm_compute; reflexivity. Qed.

(** Two sessions interleaved, one aborting and one ending with its
    terminal [applyOps]: the entries carry the session ids their kind calls
    for, sessions 5 and 6 buffer under transaction numbers 7 and 3, and the
    run on four writers returns. *)
Lemma fillWriterVectors_total_witness :
Forall (wellFormed Demo.options) Demo.mixedBatch
∧ txnConsistent Demo.options Demo.mixedBatch
∧ Exists (λ op, isBuffered Demo.options op = true) Demo.mixedBatch
∧ Exists (λ op, isAbortEntry Demo.options op 5%Z) Demo.mixedBatch
∧ Exists (λ op, endsTransaction Demo.options op 6%Z) Demo.mixedBatch
∧ is_Some (fillWriterVectors Demo.env Demo.options Demo.mixedBatch (replicate 4 []) []).
Proof.
assert (Forall (wellFormed Demo.options) Demo.mixedBatch) as Hwf.
{ repeat constructor; try done; simpl; try (by intros [=]); try (by eexists);
    intros _; left; split; by eexists. }
assert (txnConsistent Demo.options Demo.mixedBatch) as Htxn.
{ intros i j a b Ha%list_elem_of_lookup_2 Hb%list_elem_of_lookup_2.
  unfold Demo.mixedBatch in Ha, Hb. rewrite !elem_of_cons, elem_of_nil in Ha, Hb.
  destruct Ha as [->|[->|[->|[->|[->|[->|[]]]]]]];
    destruct Hb as [->|[->|[->|[->|[->|[->|[]]]]]]]; by intros ?? [=]. }
split_and!; [done|done| | | |].
- by apply Exists_cons_hd.
- do 3 apply Exists_cons_tl. apply Exists_cons_hd. by split_and!.
- do 4 apply Exists_cons_tl. apply Exists_cons_hd.
  split_and!; try done. left. split_and!; [done|done|by eexists].
- apply (fillWriterVectors_total Demo.env Demo.options Demo.mixedBatch 4 []);
    [lia|done|done|].
  intros tr. split.
  + simpl. apply Forall_fmap, Forall_forall. intros s _.
    split_and!; try done; by intros [=].
  + intros i j a b Ha Hb Hbuf.
    assert (isBuffered Demo.options a = false); [|congruence].
    apply list_elem_of_lookup_2 in Ha. simpl in Ha.
    by apply list_elem_of_fmap in Ha as (s & -> & _).
Defined.

(** Two sessions interleaved: the buffer of session 5 gains positions 0
    and 2, in that order, and not position 1, which is of session 6. *)
Lemma buffer_in_oplog_order_witness :
∃ st', forEach (deriveOp Demo.env Demo.options InputOps) (Demo.start CatalogDemo.twoSessions 4)
         (seq 0 3) = Some st'
  ∧ partialTxnList 5%Z st' = [(InputOps, 0); (InputOps, 2)].
Proof.
eexists. split; [vm_compute; reflexivity|].
apply (buffer_in_oplog_order Demo.env Demo.options InputOps 5%Z CatalogDemo.twoSessions 0
         (Demo.start CatalogDemo.twoSessions 4)).
- vm_compute; reflexivity.
- intros j o Hj. exact Hj.
- repeat constructor; by right.
Defined.
